(** * MarkSnip (markdownload-extension-updated): a shallow embedding of the
    conversion utilities and of the download bookkeeping, with the properties
    the specification states about them.

    Sources embedded here:
    - [src/src/offscreen/offscreen.js]: [turndown] (table rule, images rule,
      fenced code rules, final clean-up), [orgdown], [convertArticleToOrg],
      [textReplace], [generateValidFileName], [validateUri];
    - the service worker (kept as [src/unnamed/part_000]): [textReplace],
      [generateValidFileName], [handleImageDownloads], [handleDownloadChange],
      [handleDownloadComplete], the [track-download-url] message.

    JavaScript strings are sequences of UTF-16 code units; they are modelled
    as [list N].  Regular expressions that are written as literals in the
    source are unfolded into the scanning functions they denote; each one
    quotes its literal. *)

From Stdlib Require Import ZArith NArith List String Ascii Bool Lia.
From stdpp Require Import base option list gmap pretty.
Import ListNotations.

Set Default Proof Using "Type".

(** ** JavaScript strings *)

Module Js.

Definition jsstring := list N.

(** An ASCII literal as a JavaScript string. *)
Definition str (s : string) : jsstring := map N_of_ascii (list_ascii_of_string s).
Arguments str s%_string.

Definition ch (a : ascii) : N := N_of_ascii a.
Arguments ch a%_char.

Definition LF : N := 10.
Definition CR : N := 13.
Definition SPACE : N := 32.
Definition DQUOTE : N := 34.
Definition BACKSLASH : N := 92.
Definition PIPE : N := 124.
Definition NBSP : N := 0xA0.

Definition eqs (a b : jsstring) : bool := bool_decide (a = b).

(** [LineTerminator] of ECMAScript: the characters [.] does not match and after
    which [^] matches under the [m] flag. *)
Definition is_line_terminator (c : N) : bool :=
  (c =? LF)%N || (c =? CR)%N || (c =? 0x2028)%N || (c =? 0x2029)%N.

(** [s.startsWith(p)] *)
Fixpoint startsWith (p s : jsstring) : bool :=
  match p, s with
  | [], _ => true
  | _ :: _, [] => false
  | a :: p', b :: s' => (a =? b)%N && startsWith p' s'
  end.

(** [s.includes(sub)] *)
Fixpoint includes (s sub : jsstring) : bool :=
  startsWith sub s ||
  match s with
  | [] => false
  | _ :: s' => includes s' sub
  end.

(** [s.endsWith(p)] *)
Definition endsWith (p s : jsstring) : bool := startsWith (rev p) (rev s).

(** [parts.join(sep)] on an array of strings. *)
Fixpoint join (sep : jsstring) (parts : list jsstring) : jsstring :=
  match parts with
  | [] => []
  | [p] => p
  | p :: rest => p ++ sep ++ join sep rest
  end.

(** [s.split(c)] for a one-character separator.  The result is never empty:
    [''.split('.')] is [['']]. *)
Fixpoint split (c : N) (s : jsstring) : list jsstring :=
  match s with
  | [] => [[]]
  | x :: s' =>
      if (x =? c)%N then [] :: split c s'
      else match split c s' with
           | [] => [[x]]
           | p :: ps => (x :: p) :: ps
           end
  end.

(** [s.replace(re, '')] for a global regular expression [re] that matches
    exactly the literal text [pat] (one or two code units here): occurrences
    are found left to right and do not overlap.  [skip] counts the code units
    of the current occurrence that are still to be dropped. *)
Fixpoint remove_all_from (pat : jsstring) (skip : nat) (s : jsstring) : jsstring :=
  match s with
  | [] => []
  | x :: s' =>
      match skip with
      | S k => remove_all_from pat k s'
      | O =>
          if startsWith pat s && negb (eqs pat [])
          then remove_all_from pat (length pat - 1) s'
          else x :: remove_all_from pat 0 s'
      end
  end.

Definition remove_all (pat s : jsstring) : jsstring := remove_all_from pat 0 s.

(** The string iterator ([for (let c of s)]): it yields code points, so a
    high surrogate followed by a low surrogate comes out as one two-unit
    string, every other code unit as a one-unit string. *)
Definition is_high_surrogate (c : N) : bool := (0xD800 <=? c)%N && (c <=? 0xDBFF)%N.
Definition is_low_surrogate (c : N) : bool := (0xDC00 <=? c)%N && (c <=? 0xDFFF)%N.

Fixpoint code_points (s : jsstring) : list jsstring :=
  match s with
  | [] => []
  | a :: s' =>
      match s' with
      | b :: s'' =>
          if is_high_surrogate a && is_low_surrogate b
          then [a; b] :: code_points s''
          else [a] :: code_points s'
      | [] => [[a]]
      end
  end.

(** The values the sanitising functions are called with: a string, [null] or
    [undefined]. *)
Inductive jsval :=
| JUndefined
| JNull
| JStr (s : jsstring).

(** Truthiness: the empty string, [null] and [undefined] are falsy. *)
Definition truthy (v : jsval) : bool :=
  match v with
  | JStr (_ :: _) => true
  | _ => false
  end.

(** *** Facts about the string operations *)

Lemma startsWith_app (p s : jsstring) : startsWith p (p ++ s) = true.
Proof.
  induction p as [|a p IH]; simpl; [reflexivity|].
  rewrite N.eqb_refl. exact IH.
Qed.

Lemma startsWith_spec (p s : jsstring) :
  startsWith p s = true <-> exists t, s = p ++ t.
Proof.
  split.
  - revert s. induction p as [|a p IH]; intros s H.
    + exists s. reflexivity.
    + destruct s as [|b s]; simpl in H; [discriminate|].
      apply andb_true_iff in H as [Hab H]. apply N.eqb_eq in Hab. subst b.
      destruct (IH _ H) as [t ->]. exists t. reflexivity.
  - intros [t ->]. apply startsWith_app.
Qed.

Lemma remove_all_from_Forall (P : N -> Prop) pat s :
  Forall P s -> forall skip, Forall P (remove_all_from pat skip s).
Proof.
  induction 1 as [|x s Hx Hs IH]; intros skip; simpl; [constructor|].
  destruct skip as [|k]; [|apply IH].
  destruct (startsWith pat (x :: s) && negb (eqs pat [])); [apply IH|].
  constructor; [exact Hx | apply IH].
Qed.

Lemma remove_all_Forall (P : N -> Prop) pat s :
  Forall P s -> Forall P (remove_all pat s).
Proof. intros H. apply remove_all_from_Forall. exact H. Qed.

(** Removing a one-unit pattern is a filter. *)
Lemma remove_all_single (c : N) (s : jsstring) :
  remove_all [c] s = List.filter (fun x => negb (x =? c)%N) s.
Proof.
  unfold remove_all. induction s as [|x s IH]; simpl; [reflexivity|].
  rewrite !andb_true_r, (N.eqb_sym c x).
  destruct (x =? c)%N; simpl; rewrite IH; reflexivity.
Qed.

Lemma code_points_cons (a b : N) (s : jsstring) :
  code_points (a :: b :: s) =
  if is_high_surrogate a && is_low_surrogate b
  then [a; b] :: code_points s
  else [a] :: code_points (b :: s).
Proof. reflexivity. Qed.

Lemma filter_id_Forall {A} (f : A -> bool) (l : list A) :
  Forall (fun x => f x = true) l -> List.filter f l = l.
Proof.
  induction 1 as [|x l Hx Hl IH]; simpl; [reflexivity|].
  rewrite Hx, IH. reflexivity.
Qed.

Lemma filter_Forall_keep {A} (P : A -> Prop) (f : A -> bool) (l : list A) :
  Forall P l -> Forall P (List.filter f l).
Proof.
  induction 1 as [|x l Hx Hl IH]; simpl; [constructor|].
  destruct (f x); [constructor; assumption | assumption].
Qed.

Lemma filter_Forall_true {A} (f : A -> bool) (l : list A) :
  Forall (fun x => f x = true) (List.filter f l).
Proof.
  induction l as [|x l IH]; simpl; [constructor|].
  destruct (f x) eqn:E; [constructor; assumption | assumption].
Qed.

End Js.

Import Js.

(** ** File names: [generateValidFileName]

    The function is written twice, in [offscreen.js] and in the service
    worker; the two copies are the same text. *)

Module FileName.

(** [var illegalRe = /[\/\?<>\\:\*\|Q:]/g], where Q stands for the double
    quote: the class holds slash, question mark, the two angle brackets,
    backslash, colon, star, bar, double quote (and colon a second time). *)
Definition illegalRe (c : N) : bool :=
  existsb (N.eqb c)
    [ch "/"; ch "?"; ch "<"; ch ">"; BACKSLASH; ch ":"; ch "*"; PIPE; DQUOTE; ch ":"].

(** [.replace(new RegExp('\u00A0', 'g'), ' ')] *)
Definition nbsp_to_space (s : jsstring) : jsstring :=
  map (fun c => if (c =? NBSP)%N then SPACE else c) s.

(** The template literal [`[\\^$.|?*+()`]. *)
Definition metachars : jsstring := str "[\^$.|?*+()".

(** [if (`[\\^$.|?*+()`.includes(c)) c = `\\${c}`] *)
Definition escape_char (c : jsstring) : jsstring :=
  if includes metachars c then BACKSLASH :: c else c.

(** The text matched by [new RegExp(src, 'g')] when [src] is one character,
    or one character behind a backslash. *)
Definition matched_text (src : jsstring) : jsstring :=
  match src with
  | b :: rest => if (b =? BACKSLASH)%N then rest else src
  | [] => []
  end.

(** The loop [for (let c of disallowedChars) { ...; name = name.replace(new RegExp(c, 'g'), '') }] *)
Definition strip_disallowed (name disallowedChars : jsstring) : jsstring :=
  fold_left (fun name c => remove_all (matched_text (escape_char c)) name)
            (code_points disallowedChars) name.

(** The body of the function, once [title] is known to be a non-empty string. *)
Definition valid_name (title : jsstring) (disallowedChars : jsval) : jsstring :=
  let name := nbsp_to_space (List.filter (fun c => negb (illegalRe c)) title) in
  match disallowedChars with
  | JStr d => if truthy disallowedChars then strip_disallowed name d else name
  | _ => name
  end.

Definition generateValidFileName (title disallowedChars : jsval) : jsval :=
  if negb (truthy title) then title
  else match title with
       | JStr t => JStr (valid_name t disallowedChars)
       | _ => title
       end.

(** The characters the specification lists, and the non-breaking space. *)
Definition forbidden (c : N) : bool :=
  existsb (N.eqb c)
    [ch "/"; ch "?"; ch "<"; ch ">"; BACKSLASH; ch ":"; ch "*"; PIPE; DQUOTE; NBSP].

(** The code unit [c] stands in the list of disallowed characters (when the
    caller gives one that is not empty). *)
Definition listed (disallowedChars : jsval) (c : N) : bool :=
  match disallowedChars with
  | JStr d => existsb (N.eqb c) d
  | _ => false
  end.

(** What is asked of the title before the caller's list is looked at: the
    nine characters are taken out and each non-breaking space is a space. *)
Definition converted (title : jsstring) : jsstring :=
  map (fun c => if (c =? NBSP)%N then SPACE else c)
    (List.filter (fun c => negb (forbidden c) || (c =? NBSP)%N) title).

Definition has_surrogate_pair (s : jsstring) : bool :=
  existsb (fun c => negb (length c =? 1)) (code_points s).

(** The disallowed list holds no character outside the Basic Multilingual
    Plane: the iterator yields one code unit at a time. *)
Definition bmp_only (disallowedChars : jsval) : Prop :=
  match disallowedChars with
  | JStr d => has_surrogate_pair d = false
  | _ => True
  end.

Definition not_in (d : jsstring) (x : N) : bool := negb (existsb (N.eqb x) d).

Definition is_surrogate (c : N) : bool := is_high_surrogate c || is_low_surrogate c.

(** One code point in UTF-16: a code unit that is no surrogate, or a high
    surrogate and a low one. *)
Definition scalar (cp : jsstring) : bool :=
  match cp with
  | [x] => negb (is_surrogate x)
  | [h; l] => is_high_surrogate h && is_low_surrogate l
  | _ => false
  end.

Definition well_formed (s : jsstring) : bool := forallb scalar (code_points s).

Definition well_formed_val (v : jsval) : Prop :=
  match v with
  | JStr s => well_formed s = true
  | _ => True
  end.

Definition not_among (cps : list jsstring) (cp : jsstring) : bool :=
  negb (existsb (eqs cp) cps).

Lemma forbidden_illegal c : forbidden c = illegalRe c || (c =? NBSP)%N.
Proof.
  unfold forbidden, illegalRe. simpl.
  repeat match goal with |- context [(c =? ?k)%N] =>
    lazymatch k with
    | _ => destruct (c =? k)%N eqn:?; simpl; try reflexivity
    end end.
Qed.

Lemma nbsp_to_space_clean s :
  Forall (fun c => illegalRe c = false) s ->
  Forall (fun c => forbidden c = false) (nbsp_to_space s).
Proof.
  induction 1 as [|x s Hx Hs IH]; simpl; constructor; try exact IH.
  rewrite forbidden_illegal.
  destruct (x =? NBSP)%N eqn:E; [reflexivity|].
  rewrite Hx, E. reflexivity.
Qed.

Lemma filter_legal s :
  Forall (fun c => illegalRe c = false) (List.filter (fun c => negb (illegalRe c)) s).
Proof.
  eapply List.Forall_impl; [|apply filter_Forall_true].
  intros c H. simpl in H. apply negb_true_iff in H. exact H.
Qed.

Lemma strip_disallowed_Forall (P : N -> Prop) d name :
  Forall P name -> Forall P (strip_disallowed name d).
Proof.
  unfold strip_disallowed. revert name.
  induction (code_points d) as [|c cs IH]; intros name H; simpl; [exact H|].
  apply IH. apply remove_all_Forall. exact H.
Qed.

Lemma valid_name_clean title d :
  Forall (fun c => forbidden c = false) (valid_name title d).
Proof.
  unfold valid_name.
  pose proof (nbsp_to_space_clean _ (filter_legal title)) as H.
  destruct d as [| |d]; try exact H.
  destruct (truthy (JStr d)); [|exact H].
  apply strip_disallowed_Forall. exact H.
Qed.

Lemma matched_text_escape (c : N) : matched_text (escape_char [c]) = [c].
Proof.
  unfold escape_char.
  destruct (includes metachars [c]) eqn:E; simpl.
  - reflexivity.
  - destruct (N.eqb_spec c BACKSLASH) as [->|Hne]; [discriminate E|reflexivity].
Qed.

Lemma code_points_bmp d :
  has_surrogate_pair d = false -> code_points d = map (fun c => [c]) d.
Proof.
  unfold has_surrogate_pair.
  remember (length d) as n eqn:Hn. revert d Hn.
  induction n as [n IH] using lt_wf_ind. intros d Hn H.
  destruct d as [|a [|b d]]; try reflexivity.
  rewrite code_points_cons in *.
  destruct (is_high_surrogate a && is_low_surrogate b).
  - simpl in H. discriminate H.
  - cbn [existsb] in H. apply orb_false_iff in H as [_ H].
    cbn [map]. f_equal.
    apply (IH (length (b :: d))); [subst n; simpl; lia | reflexivity | exact H].
Qed.

Lemma filter_filter {A} (f g : A -> bool) (l : list A) :
  List.filter f (List.filter g l) = List.filter (fun x => g x && f x) l.
Proof.
  induction l as [|x l IH]; simpl; [reflexivity|].
  destruct (g x); simpl; [destruct (f x)|]; rewrite IH; reflexivity.
Qed.

Lemma strip_disallowed_bmp d name :
  has_surrogate_pair d = false ->
  strip_disallowed name d = List.filter (not_in d) name.
Proof.
  intros H. unfold strip_disallowed. rewrite (code_points_bmp d H). clear H.
  revert name. induction d as [|c d IH]; intros name; simpl.
  - symmetry. apply filter_id_Forall. apply Forall_forall. reflexivity.
  - rewrite matched_text_escape, remove_all_single, IH, filter_filter.
    apply filter_ext. intros x. unfold not_in. simpl.
    destruct (x =? c)%N; reflexivity.
Qed.

(** *** A second call

    The first pass (illegal characters, non-breaking spaces) changes nothing
    on a name that is clean; the question is what the loop over the
    disallowed characters does. *)

Lemma high_not_low h : is_high_surrogate h = true -> is_low_surrogate h = false.
Proof.
  unfold is_high_surrogate, is_low_surrogate. intros H.
  apply andb_true_iff in H as [_ H]. apply N.leb_le in H.
  apply andb_false_iff. left. apply N.leb_gt. lia.
Qed.

Lemma concat_code_points (s : jsstring) : concat (code_points s) = s.
Proof.
  remember (length s) as n eqn:Hn. revert s Hn.
  induction n as [n IH] using lt_wf_ind. intros s Hn.
  destruct s as [|a [|b s]]; try reflexivity.
  rewrite code_points_cons.
  destruct (is_high_surrogate a && is_low_surrogate b); cbn [concat app].
  - do 2 f_equal. apply (IH (length s)); [subst n; simpl; lia | reflexivity].
  - f_equal. apply (IH (length (b :: s))); [subst n; simpl; lia | reflexivity].
Qed.

Lemma code_points_concat (cps : list jsstring) :
  Forall (fun cp => scalar cp = true) cps -> code_points (concat cps) = cps.
Proof.
  induction 1 as [|cp cps Hcp Hcps IH]; [reflexivity|].
  destruct cp as [|x [|l [|y cp]]]; try discriminate Hcp; cbn [concat app].
  - destruct (concat cps) as [|b r] eqn:E.
    + simpl in IH. subst cps. reflexivity.
    + rewrite code_points_cons.
      simpl in Hcp. apply negb_true_iff, orb_false_iff in Hcp as [-> _].
      cbn [andb]. rewrite IH. reflexivity.
  - rewrite code_points_cons. simpl in Hcp. rewrite Hcp, IH. reflexivity.
Qed.

Lemma remove_all_scalar (pat : jsstring) (cps : list jsstring) :
  scalar pat = true ->
  Forall (fun cp => scalar cp = true) cps ->
  remove_all pat (concat cps) = concat (List.filter (fun cp => negb (eqs cp pat)) cps).
Proof.
  intros Hpat Hcps. unfold remove_all.
  induction Hcps as [|cp cps Hcp Hcps IH]; [reflexivity|].
  cbn [List.filter]. unfold eqs at 1.
  destruct cp as [|x [|l [|y cp]]]; try discriminate Hcp; cbn [concat app].
  - (* a single unit *)
    destruct pat as [|p [|q [|z pat]]]; try discriminate Hpat.
    + cbn [remove_all_from startsWith length]. rewrite ?andb_true_r.
      change (eqs [p] []) with false. rewrite ?andb_true_r.
      destruct (N.eqb_spec p x) as [->|Hne].
      * rewrite bool_decide_eq_true_2 by reflexivity. exact IH.
      * rewrite bool_decide_eq_false_2 by congruence.
        cbn [negb concat app]. f_equal. exact IH.
    + cbn [remove_all_from startsWith].
      simpl in Hcp, Hpat. apply andb_true_iff in Hpat as [Hp Hq].
      destruct (N.eqb_spec p x) as [->|Hne].
      * unfold is_surrogate in Hcp. rewrite Hp in Hcp. discriminate Hcp.
      * cbn [andb]. rewrite bool_decide_eq_false_2 by congruence.
        cbn [negb concat app]. f_equal. exact IH.
  - (* a pair *)
    simpl in Hcp. apply andb_true_iff in Hcp as [Hx Hl].
    destruct pat as [|p [|q [|z pat]]]; try discriminate Hpat.
    + simpl in Hpat. apply negb_true_iff, orb_false_iff in Hpat as [Hph Hpl].
      cbn [remove_all_from startsWith length]. rewrite ?andb_true_r.
      change (eqs [p] []) with false. cbn [negb]. rewrite ?andb_true_r.
      destruct (N.eqb_spec p x) as [->|_]; [congruence|].
      destruct (N.eqb_spec p l) as [->|_]; [congruence|].
      rewrite bool_decide_eq_false_2 by congruence.
      cbn [negb concat app]. do 2 f_equal. exact IH.
    + simpl in Hpat. apply andb_true_iff in Hpat as [Hp Hq].
      cbn [remove_all_from startsWith length]. rewrite ?andb_true_r.
      change (eqs [p; q] []) with false. cbn [negb]. rewrite ?andb_true_r.
      destruct (N.eqb_spec p x) as [->|Hpx], (N.eqb_spec q l) as [->|Hql]; cbn [andb].
      * rewrite bool_decide_eq_true_2 by reflexivity. cbn [negb Nat.sub].
        destruct (concat cps) eqn:E; exact IH.
      * rewrite bool_decide_eq_false_2 by congruence. cbn [negb concat app].
        f_equal.
        destruct (N.eqb_spec x l) as [->|_];
          [rewrite (high_not_low _ Hx) in Hl; discriminate Hl|].
        cbn [andb]. f_equal. exact IH.
      * rewrite bool_decide_eq_false_2 by congruence. cbn [negb concat app].
        f_equal.
        destruct (N.eqb_spec p l) as [->|_];
          [rewrite (high_not_low _ Hp) in Hl; discriminate Hl|].
        cbn [andb]. f_equal. exact IH.
      * rewrite bool_decide_eq_false_2 by congruence. cbn [negb concat app].
        f_equal.
        destruct (N.eqb_spec p l) as [->|_];
          [rewrite (high_not_low _ Hp) in Hl; discriminate Hl|].
        cbn [andb]. f_equal. exact IH.
Qed.

Lemma includes_head (s sub : jsstring) (a : N) :
  includes s (a :: sub) = true -> In a s.
Proof.
  induction s as [|x s IH]; simpl; intros H.
  - discriminate H.
  - apply orb_true_iff in H as [H|H].
    + apply andb_true_iff in H as [H _]. apply N.eqb_eq in H. left. congruence.
    + right. apply IH. exact H.
Qed.

Lemma ascii_below_surrogates (c : N) (l : list N) :
  In c l -> Forall (fun k => (k < 0xD800)%N) l -> is_surrogate c = false.
Proof.
  intros Hin Hl. rewrite List.Forall_forall in Hl. specialize (Hl c Hin).
  unfold is_surrogate, is_high_surrogate, is_low_surrogate.
  apply orb_false_iff. split; apply andb_false_iff; left; apply N.leb_gt; lia.
Qed.

Lemma metachars_small : Forall (fun k => (k < 0xD800)%N) (BACKSLASH :: metachars).
Proof. repeat constructor. Qed.

Lemma matched_text_escape_scalar (pat : jsstring) :
  scalar pat = true -> matched_text (escape_char pat) = pat.
Proof.
  intros Hpat. destruct pat as [|x [|l [|y pat]]]; try discriminate Hpat.
  - apply matched_text_escape.
  - simpl in Hpat. apply andb_true_iff in Hpat as [Hx _].
    assert (Hs : is_surrogate x = true) by (unfold is_surrogate; rewrite Hx; reflexivity).
    unfold escape_char. destruct (includes metachars [x; l]) eqn:E.
    + apply includes_head in E.
      rewrite (ascii_below_surrogates x (BACKSLASH :: metachars)) in Hs;
        [discriminate Hs | right; exact E | apply metachars_small].
    + unfold matched_text. destruct (N.eqb_spec x BACKSLASH) as [->|_]; [|reflexivity].
      discriminate Hs.
Qed.

Lemma strip_disallowed_scalar (dcps : list jsstring) :
  Forall (fun cp => scalar cp = true) dcps ->
  forall cps, Forall (fun cp => scalar cp = true) cps ->
    fold_left (fun name c => remove_all (matched_text (escape_char c)) name)
              dcps (concat cps)
    = concat (List.filter (not_among dcps) cps).
Proof.
  induction 1 as [|c dcps Hc Hdcps IH]; intros cps Hcps; cbn [fold_left].
  - f_equal. symmetry. apply filter_id_Forall. apply List.Forall_forall. reflexivity.
  - rewrite (matched_text_escape_scalar c Hc), (remove_all_scalar c cps Hc Hcps).
    rewrite IH by (apply filter_Forall_keep; exact Hcps).
    rewrite filter_filter. f_equal. apply filter_ext. intros cp.
    unfold not_among. cbn [existsb]. rewrite negb_orb. reflexivity.
Qed.

Lemma illegalRe_small (c : N) : illegalRe c = true -> is_surrogate c = false.
Proof.
  unfold illegalRe. rewrite existsb_exists. intros (k & Hin & Hk).
  apply N.eqb_eq in Hk. subst k.
  eapply ascii_below_surrogates; [exact Hin|]. repeat constructor.
Qed.

Lemma first_pass_scalar (cps : list jsstring) :
  Forall (fun cp => scalar cp = true) cps ->
  exists cps0,
    Forall (fun cp => scalar cp = true) cps0 /\
    nbsp_to_space (List.filter (fun c => negb (illegalRe c)) (concat cps)) = concat cps0.
Proof.
  induction 1 as [|cp cps Hcp Hcps (cps0 & Hcps0 & IH)].
  - exists []. split; [constructor | reflexivity].
  - destruct cp as [|x [|l [|y cp]]]; try discriminate Hcp; cbn [concat app List.filter].
    + destruct (illegalRe x) eqn:Ex; cbn [negb].
      * exists cps0. split; assumption.
      * exists ([if (x =? NBSP)%N then SPACE else x] :: cps0). split.
        -- constructor; [|exact Hcps0].
           destruct (x =? NBSP)%N; [reflexivity | exact Hcp].
        -- cbn [nbsp_to_space map concat app]. f_equal. exact IH.
    + simpl in Hcp. apply andb_true_iff in Hcp as [Hx Hl].
      assert (Hsx : is_surrogate x = true) by (unfold is_surrogate; rewrite Hx; reflexivity).
      assert (Hsl : is_surrogate l = true)
        by (unfold is_surrogate; rewrite Hl; apply orb_true_r).
      destruct (illegalRe x) eqn:Ex;
        [apply illegalRe_small in Ex; congruence|].
      destruct (illegalRe l) eqn:El;
        [apply illegalRe_small in El; congruence|].
      cbn [negb List.filter].
      exists ([x; l] :: cps0). split.
      * constructor; [|exact Hcps0]. simpl. rewrite Hx, Hl. reflexivity.
      * cbn [nbsp_to_space map concat app].
        destruct (N.eqb_spec x NBSP) as [->|_]; [discriminate Hsx|].
        destruct (N.eqb_spec l NBSP) as [->|_]; [discriminate Hsl|].
        do 2 f_equal. exact IH.
Qed.

Lemma first_pass_fixpoint (name : jsstring) :
  Forall (fun c => forbidden c = false) name ->
  nbsp_to_space (List.filter (fun c => negb (illegalRe c)) name) = name.
Proof.
  intros Hclean.
  assert (H1 : List.filter (fun c => negb (illegalRe c)) name = name).
  { apply filter_id_Forall. eapply List.Forall_impl; [|exact Hclean].
    intros c Hc. simpl in Hc. rewrite forbidden_illegal in Hc.
    apply orb_false_iff in Hc as [-> _]. reflexivity. }
  rewrite H1. induction Hclean as [|x l Hx Hl IH]; simpl; [reflexivity|].
  rewrite forbidden_illegal in Hx. apply orb_false_iff in Hx as [_ ->].
  rewrite IH; [reflexivity|].
  apply filter_id_Forall. eapply List.Forall_impl; [|exact Hl].
  intros c Hc. simpl in Hc. rewrite forbidden_illegal in Hc.
  apply orb_false_iff in Hc as [-> _]. reflexivity.
Qed.

Lemma well_formed_scalar (s : jsstring) :
  well_formed s = true -> Forall (fun cp => scalar cp = true) (code_points s).
Proof.
  unfold well_formed. intros H. apply List.Forall_forall.
  apply (proj1 (forallb_forall _ _) H).
Qed.

Lemma valid_name_idempotent_wf (t d : jsstring) :
  well_formed t = true -> well_formed d = true ->
  valid_name (valid_name t (JStr d)) (JStr d) = valid_name t (JStr d).
Proof.
  intros Ht Hd.
  pose proof (valid_name_clean t (JStr d)) as Hclean.
  unfold valid_name in *.
  destruct (truthy (JStr d)).
  - rewrite (first_pass_fixpoint _ Hclean).
    apply well_formed_scalar in Ht, Hd.
    destruct (first_pass_scalar _ Ht) as (cps0 & Hcps0 & H0).
    rewrite concat_code_points in H0. rewrite H0.
    unfold strip_disallowed.
    rewrite (strip_disallowed_scalar _ Hd cps0 Hcps0).
    rewrite (strip_disallowed_scalar _ Hd) by (apply filter_Forall_keep; exact Hcps0).
    f_equal. apply filter_id_Forall. apply filter_Forall_true.
  - rewrite (first_pass_fixpoint _ Hclean). reflexivity.
Qed.

Lemma valid_name_idempotent_bmp (t : jsstring) (d : jsval) :
  bmp_only d ->
  valid_name (valid_name t d) d = valid_name t d.
Proof.
  intros Hd. pose proof (valid_name_clean t d) as Hclean.
  unfold valid_name in *.
  destruct d as [| |s]; try (rewrite (first_pass_fixpoint _ Hclean); reflexivity).
  destruct (truthy (JStr s)); rewrite (first_pass_fixpoint _ Hclean); [|reflexivity].
  simpl in Hd. rewrite !strip_disallowed_bmp by exact Hd.
  apply filter_id_Forall. apply filter_Forall_true.
Qed.

Lemma converted_first_pass (title : jsstring) :
  nbsp_to_space (List.filter (fun c => negb (illegalRe c)) title) = converted title.
Proof.
  unfold converted, nbsp_to_space. f_equal. apply filter_ext. intros c.
  rewrite forbidden_illegal.
  destruct (illegalRe c) eqn:E, (c =? NBSP)%N eqn:En; try reflexivity.
  apply N.eqb_eq in En. subst c. discriminate E.
Qed.

Lemma remove_all_from_unlisted (keep : N -> bool) (pat s : jsstring) :
  Forall (fun x => keep x = false) pat ->
  forall skip,
    Forall (fun x => keep x = false) (take skip s) ->
    List.filter keep (remove_all_from pat skip s) = List.filter keep s.
Proof.
  intros Hpat. induction s as [|x s IH]; intros skip Hskip; [reflexivity|].
  cbn [remove_all_from]. destruct skip as [|k].
  - destruct pat as [|p pat].
    + cbn [startsWith andb]. unfold eqs. rewrite bool_decide_eq_true_2 by reflexivity.
      cbn [negb]. cbn [List.filter]. rewrite IH by constructor. reflexivity.
    + apply Forall_cons in Hpat as [Hp Hpat'].
      destruct (startsWith (p :: pat) (x :: s)) eqn:E; cbn [andb].
      * unfold eqs. rewrite bool_decide_eq_false_2 by discriminate. cbn [negb].
        cbn [startsWith] in E. apply andb_true_iff in E as [Epx E].
        apply N.eqb_eq in Epx. subst x.
        apply startsWith_spec in E as [t ->].
        replace (length (p :: pat) - 1) with (length pat) by (cbn [length]; lia).
        cbn [List.filter]. rewrite Hp.
        apply IH. rewrite take_app_length. exact Hpat'.
      * cbn [List.filter]. rewrite IH by constructor. reflexivity.
  - cbn [take] in Hskip. apply Forall_cons in Hskip as [Hx Hrest].
    cbn [List.filter]. rewrite Hx. apply IH. exact Hrest.
Qed.

Lemma code_point_units (d : jsstring) :
  Forall (fun cp => Forall (fun x => In x d) cp) (code_points d).
Proof.
  apply List.Forall_forall. intros cp Hcp.
  apply List.Forall_forall. intros x Hx.
  rewrite <- (concat_code_points d).
  apply in_concat. exists cp. split; assumption.
Qed.

Lemma matched_text_units (cp : jsstring) :
  forall x, In x (matched_text (escape_char cp)) -> In x cp.
Proof.
  intros x. unfold escape_char.
  destruct (includes metachars cp).
  - cbn [matched_text]. rewrite N.eqb_refl. auto.
  - destruct cp as [|b rest]; [auto|]. cbn [matched_text].
    destruct (b =? BACKSLASH)%N; [intros H; right; exact H|auto].
Qed.

Lemma strip_disallowed_unlisted (d name : jsstring) :
  List.filter (fun c => negb (existsb (N.eqb c) d)) (strip_disallowed name d)
  = List.filter (fun c => negb (existsb (N.eqb c) d)) name.
Proof.
  unfold strip_disallowed. pose proof (code_point_units d) as Hcps.
  revert name. induction Hcps as [|cp cps Hcp _ IH]; intros name; [reflexivity|].
  cbn [fold_left]. rewrite IH. apply remove_all_from_unlisted; [|constructor].
  apply List.Forall_forall. intros x Hx. apply matched_text_units in Hx.
  apply negb_false_iff, existsb_exists. exists x. split.
  - exact (proj1 (List.Forall_forall _ _) Hcp x Hx).
  - apply N.eqb_refl.
Qed.

(** C2. [generateValidFileName] on a string returns a string that holds none
    of the nine characters slash, question mark, less-than, greater-than,
    backslash, colon, star, bar and double quote, and no non-breaking space;
    the non-breaking spaces have become spaces: what the result holds of the
    code units that are not in the caller's list is the title without the
    nine characters and with a space for each non-breaking space, and without
    a list the result is just that.  The falsy inputs ([undefined], [null],
    the empty string) come back as they are. *)
Theorem generateValidFileName_clean :
  (forall (title : jsstring) (disallowedChars : jsval),
      exists name,
        generateValidFileName (JStr title) disallowedChars = JStr name /\
        Forall (fun c => forbidden c = false) name /\
        List.filter (fun c => negb (listed disallowedChars c)) name
        = List.filter (fun c => negb (listed disallowedChars c)) (converted title) /\
        (truthy disallowedChars = false -> name = converted title)) /\
  (forall disallowedChars,
      generateValidFileName JUndefined disallowedChars = JUndefined /\
      generateValidFileName JNull disallowedChars = JNull /\
      generateValidFileName (JStr []) disallowedChars = JStr []).
Proof.
  split.
  - intros title d. destruct title as [|c title].
    + exists []. split; [reflexivity|]. split; [constructor|].
      split; reflexivity.
    + exists (valid_name (c :: title) d). split; [reflexivity|].
      split; [apply valid_name_clean|].
      unfold valid_name. cbv zeta. rewrite converted_first_pass.
      destruct d as [| |d]; try (split; reflexivity).
      destruct d as [|x d]; [split; reflexivity|].
      cbn [truthy listed]. split; [|discriminate].
      apply strip_disallowed_unlisted.
  - intros d. repeat split.
Qed.

Lemma generateValidFileName_clean_witness :
  generateValidFileName (JStr (str "a" ++ [NBSP] ++ str "b/c")) JNull = JStr (str "a bc").
Proof.
  destruct (proj1 generateValidFileName_clean (str "a" ++ [NBSP] ++ str "b/c") JNull)
    as (name & Heq & _ & _ & Hname).
  rewrite Heq, (Hname eq_refl). reflexivity.
Defined.

(** C10, as amended. Sanitising a second time with the same list changes
    nothing when no disallowed character lies outside the Basic Multilingual
    Plane (the list holds no surrogate pair), and also when the input and the
    list are well-formed UTF-16 (no surrogate without its partner). *)
Theorem generateValidFileName_idempotent (title disallowedChars : jsval) :
  bmp_only disallowedChars \/
  (well_formed_val title /\ well_formed_val disallowedChars) ->
  generateValidFileName (generateValidFileName title disallowedChars) disallowedChars
  = generateValidFileName title disallowedChars.
Proof.
  intros H.
  destruct title as [| |[|c t]]; try reflexivity.
  change (generateValidFileName (JStr (c :: t)) disallowedChars)
    with (JStr (valid_name (c :: t) disallowedChars)).
  assert (Hfix : valid_name (valid_name (c :: t) disallowedChars) disallowedChars
                 = valid_name (c :: t) disallowedChars).
  { destruct H as [Hb|[Ht Hd]]; [apply valid_name_idempotent_bmp; exact Hb|].
    destruct disallowedChars as [| |d];
      [apply valid_name_idempotent_bmp; exact I ..|].
    apply valid_name_idempotent_wf; assumption. }
  destruct (valid_name (c :: t) disallowedChars) as [|x out'] eqn:E; [reflexivity|].
  unfold generateValidFileName. simpl. f_equal. exact Hfix.
Qed.

Lemma generateValidFileName_idempotent_witness :
  let title := JStr (str "a/" ++ [0xD83D; 0xDE00]%N ++ str " c#d") in
  let disallowedChars := JStr (str "[]#^" ++ [0xD83D; 0xDE00]%N) in
  generateValidFileName (generateValidFileName title disallowedChars) disallowedChars
  = generateValidFileName title disallowedChars.
Proof.
  apply (generateValidFileName_idempotent
           (JStr (str "a/" ++ [0xD83D; 0xDE00]%N ++ str " c#d"))
           (JStr (str "[]#^" ++ [0xD83D; 0xDE00]%N))).
  right. split; reflexivity.
Defined.

(** C10 as stated fails: with the emoji U+1F600 (the pair D83D DE00) and [x]
    disallowed, the title [D83D x DE00] first loses [x], which brings the two
    surrogates together; the second call then removes the pair. *)
Lemma generateValidFileName_not_idempotent :
  let title := JStr [0xD83D; ch "x"; 0xDE00]%N in
  let disallowedChars := JStr [0xD83D; 0xDE00; ch "x"]%N in
  generateValidFileName title disallowedChars = JStr [0xD83D; 0xDE00]%N /\
  generateValidFileName (generateValidFileName title disallowedChars) disallowedChars
  = JStr [] /\
  generateValidFileName (generateValidFileName title disallowedChars) disallowedChars
  <> generateValidFileName title disallowedChars.
Proof.
  repeat split; try reflexivity. discriminate.
Qed.

Lemma sublist_map {A B} (f : A -> B) (a b : list A) :
  sublist a b -> sublist (map f a) (map f b).
Proof. induction 1; cbn [map]; constructor; assumption. Qed.

Lemma sublist_filter_list {A} (f : A -> bool) (l : list A) : sublist (List.filter f l) l.
Proof.
  induction l as [|x l IH]; [constructor|]. cbn [List.filter].
  destruct (f x); constructor; exact IH.
Qed.

Lemma remove_all_from_sublist (pat s : jsstring) :
  forall skip, sublist (remove_all_from pat skip s) s.
Proof.
  induction s as [|x s IH]; intros skip; [constructor|].
  cbn [remove_all_from]. destruct skip as [|k]; [|constructor; apply IH].
  destruct (startsWith pat (x :: s) && negb (eqs pat [])); constructor; apply IH.
Qed.

Lemma strip_disallowed_sublist (d name : jsstring) : sublist (strip_disallowed name d) name.
Proof.
  unfold strip_disallowed. generalize (code_points d). intros cs. revert name.
  induction cs as [|c cs IH]; intros name; [reflexivity|].
  cbn [fold_left]. etransitivity; [apply IH|]. apply remove_all_from_sublist.
Qed.

(** X1. The function only takes code units away, once the non-breaking spaces
    are spaces: the name is the title with some code units deleted, the
    others in their order; in particular it is never longer than the
    title. *)
Theorem generateValidFileName_only_deletes (title : jsstring) (disallowedChars : jsval) :
  exists name,
    generateValidFileName (JStr title) disallowedChars = JStr name /\
    sublist name (nbsp_to_space title) /\
    length name <= length title.
Proof.
  assert (H : exists name, generateValidFileName (JStr title) disallowedChars = JStr name /\
                           sublist name (nbsp_to_space title)).
  { unfold generateValidFileName. destruct title as [|x title].
    - exists []. split; reflexivity.
    - cbn [truthy negb]. eexists. split; [reflexivity|].
      unfold valid_name. cbv zeta.
      assert (Hn : sublist (nbsp_to_space (List.filter (fun c => negb (illegalRe c))
                                             (x :: title)))
                     (nbsp_to_space (x :: title))).
      { apply sublist_map, sublist_filter_list. }
      destruct disallowedChars as [| |d]; try exact Hn.
      destruct (truthy (JStr d)); [|exact Hn].
      etransitivity; [apply strip_disallowed_sublist|exact Hn]. }
  destruct H as (name & Heq & Hsub). exists name. split; [exact Heq|].
  split; [exact Hsub|].
  apply sublist_length in Hsub. unfold nbsp_to_space in Hsub.
  rewrite length_map in Hsub. exact Hsub.
Qed.

End FileName.

(** ** Global regular-expression scans

    [s.replace(re, f)] and [s.match(re)] for a global [re] look for matches
    from left to right; after a match the scan goes on behind it, otherwise
    one code unit further.  A regular expression is given here by the function
    that tells, for the text that starts at the current position, how long the
    match that starts there is.  None of the expressions below matches the
    empty string. *)

Module Scan.

Definition matcher := jsstring -> option nat.

(** [s.replace(re, m => f(m))]; [skip] counts the code units of the current
    match that are still to be passed over. *)
Fixpoint replace_from (re : matcher) (f : jsstring -> jsstring) (skip : nat)
    (s : jsstring) : jsstring :=
  match s with
  | [] => []
  | x :: s' =>
      match skip with
      | S k => replace_from re f k s'
      | O =>
          match re s with
          | Some (S n) => f (take (S n) s) ++ replace_from re f n s'
          | _ => x :: replace_from re f 0 s'
          end
      end
  end.

Definition replace (re : matcher) (f : jsstring -> jsstring) (s : jsstring) : jsstring :=
  replace_from re f 0 s.

(** [s.match(re)]: the matched texts, in order ([null] is the empty list). *)
Fixpoint matches_from (re : matcher) (skip : nat) (s : jsstring) : list jsstring :=
  match s with
  | [] => []
  | x :: s' =>
      match skip with
      | S k => matches_from re k s'
      | O =>
          match re s with
          | Some (S n) => take (S n) s :: matches_from re n s'
          | _ => matches_from re 0 s'
          end
      end
  end.

Definition matches (re : matcher) (s : jsstring) : list jsstring := matches_from re 0 s.

Definition LBRACE : N := 123.
Definition RBRACE : N := 125.
Definition DOLLAR : N := 36.

(** A lazy [.*?] followed by a closing brace: the number of code units before
    the first closing brace, provided no line terminator comes before it. *)
Fixpoint lazy_close (s : jsstring) : option nat :=
  match s with
  | [] => None
  | x :: s' =>
      if (x =? RBRACE)%N then Some 0
      else if is_line_terminator x then None
      else S <$> lazy_close s'
  end.

(** A greedy [.*] followed by a closing brace: the number of code units before
    the last closing brace of the line. *)
Fixpoint greedy_close (s : jsstring) : option nat :=
  match s with
  | [] => None
  | x :: s' =>
      if is_line_terminator x then None
      else match greedy_close s' with
           | Some n => Some (S n)
           | None => if (x =? RBRACE)%N then Some 0 else None
           end
  end.

(** A literal as a matcher. *)
Definition literal (pat : jsstring) : matcher :=
  fun s => if startsWith pat s then Some (length pat) else None.

(** A character class as a matcher. *)
Definition one_of (cls : N -> bool) : matcher :=
  fun s => match s with
           | x :: _ => if cls x then Some 1 else None
           | [] => None
           end.

(** [s.substring(a, b)] for indices that are not negative: both are clamped to
    the length and swapped when [a > b]. *)
Definition substring (a b : nat) (s : jsstring) : jsstring :=
  let a' := Nat.min a (length s) in
  let b' := Nat.min b (length s) in
  take (Nat.max a' b' - Nat.min a' b') (drop (Nat.min a' b') s).

(** The replacement text of [replace] / [replaceAll] when the pattern has no
    capture group: [$$] is a dollar, [$&] the match, [$`] the text before it,
    [$'] the text behind it; any other dollar stands for itself. *)
Fixpoint expand (rep matched before after : jsstring) : jsstring :=
  match rep with
  | [] => []
  | d :: rep' =>
      if (d =? DOLLAR)%N then
        match rep' with
        | c :: rep'' =>
            if (c =? DOLLAR)%N then DOLLAR :: expand rep'' matched before after
            else if (c =? ch "&")%N then matched ++ expand rep'' matched before after
            else if (c =? ch "`")%N then before ++ expand rep'' matched before after
            else if (c =? ch "'")%N then after ++ expand rep'' matched before after
            else DOLLAR :: expand rep' matched before after
        | [] => [DOLLAR]
        end
      else d :: expand rep' matched before after
  end.

(** [s.replaceAll(pat, rep)] for a string [pat] that is not empty. *)
Fixpoint replaceAll_from (pat rep before : jsstring) (skip : nat) (s : jsstring) : jsstring :=
  match s with
  | [] => []
  | x :: s' =>
      match skip with
      | S k => replaceAll_from pat rep (before ++ [x]) k s'
      | O =>
          if startsWith pat s && negb (eqs pat [])
          then expand rep pat before (drop (length pat) s)
                 ++ replaceAll_from pat rep (before ++ [x]) (length pat - 1) s'
          else x :: replaceAll_from pat rep (before ++ [x]) 0 s'
      end
  end.

Definition replaceAll (pat rep s : jsstring) : jsstring := replaceAll_from pat rep [] 0 s.

(** *** The clean-up expression [/{(.*?)}/g]

    A match starts at an opening brace and ends at the first closing brace
    behind it; the dot does not step over a line terminator. *)
Definition brace_token : matcher :=
  fun s => match s with
           | x :: rest =>
               if (x =? LBRACE)%N
               then (fun n => S (S n)) <$> lazy_close rest
               else None
           | [] => None
           end.

(** The text holds a brace token: an opening brace, then code units none of
    which is a line terminator, then a closing brace. *)
Definition has_brace_token (s : jsstring) : Prop :=
  exists pre mid post,
    s = pre ++ LBRACE :: mid ++ RBRACE :: post /\
    Forall (fun c => is_line_terminator c = false) mid.


Lemma lazy_close_mid (mid post : jsstring) :
  Forall (fun c => is_line_terminator c = false) mid ->
  is_Some (lazy_close (mid ++ RBRACE :: post)).
Proof.
  induction 1 as [|x mid Hx Hmid IH]; simpl.
  - eexists. reflexivity.
  - destruct (x =? RBRACE)%N; [eexists; reflexivity|].
    rewrite Hx. destruct IH as [n ->]. eexists. reflexivity.
Qed.

(** Where no closing brace ends the line, none does after the tokens of the
    text are taken out. *)
Lemma lazy_close_replace_None (f : jsstring -> jsstring) (s : jsstring) :
  lazy_close s = None -> lazy_close (replace_from brace_token f 0 s) = None.
Proof.
  induction s as [|x s IH]; intros H; simpl in *; [reflexivity|].
  destruct (x =? RBRACE)%N eqn:Er; [discriminate H|].
  destruct (is_line_terminator x) eqn:Elt.
  - destruct (x =? LBRACE)%N eqn:El.
    + apply N.eqb_eq in El. subst x. discriminate Elt.
    + simpl. rewrite Er, Elt. reflexivity.
  - destruct (lazy_close s) as [n|] eqn:Es; [discriminate H|].
    destruct (x =? LBRACE)%N; simpl; rewrite Er, Elt, IH; reflexivity.
Qed.

(** After [replace(/{(.*?)}/g, '')] no opening brace is closed on its line. *)
Lemma replace_brace_token_free (s : jsstring) (skip : nat) (pre rest : jsstring) :
  replace_from brace_token (fun _ => []) skip s = pre ++ LBRACE :: rest ->
  lazy_close rest = None.
Proof.
  revert skip pre. induction s as [|x s IH]; intros skip pre H; simpl in H.
  - destruct pre; discriminate H.
  - destruct skip as [|k]; [|eapply IH; exact H].
    destruct (x =? LBRACE)%N eqn:El.
    + destruct (lazy_close s) as [n|] eqn:Es; simpl in H.
      * eapply IH. exact H.
      * destruct pre as [|p pre]; simpl in H.
        -- injection H as _ H. rewrite <- H.
           apply lazy_close_replace_None. exact Es.
        -- injection H as _ H. eapply IH. exact H.
    + destruct pre as [|p pre]; simpl in H.
      * injection H as H _. subst x. discriminate El.
      * injection H as _ H. eapply IH. exact H.
Qed.

Lemma replace_brace_no_token (s : jsstring) :
  ~ has_brace_token (replace brace_token (fun _ => []) s).
Proof.
  intros (pre & mid & post & Heq & Hmid).
  apply replace_brace_token_free in Heq.
  destruct (lazy_close_mid mid post Hmid) as [n Hn].
  rewrite Hn in Heq. discriminate Heq.
Qed.

End Scan.

(** ** The template engine: [textReplace]

    The function is written twice, in [offscreen.js] and in the service
    worker, with the same statements. *)

Module Template.
Import Scan.

(** What the function takes from outside the repository: the moment library
    and the clock, the case mappings of the runtime, the regular-expression
    engine for the patterns that are put together at run time from a key or
    from a matched text, and the JSON functions. *)
Record Runtime := {
  (** [moment(now).format(format)] *)
  moment_format : jsstring -> jsstring;
  (** [s.toLowerCase()] and [s.toUpperCase()] *)
  toLowerCase : jsstring -> jsstring;
  toUpperCase : jsstring -> jsstring;
  (** [RegExp_replace source replacement subject] is
      [subject.replace(new RegExp(source, 'g'), replacement)];
      [None] when the constructor throws a [SyntaxError]. *)
  RegExp_replace : jsstring -> jsstring -> jsstring -> option jsstring;
  (** [JSON.stringify(s)] for a string [s] *)
  JSON_stringify : jsstring -> jsstring;
  (** [JSON.parse(text)] for a text that opens with a double quote; [None]
      when it throws. *)
  JSON_parse : jsstring -> option jsstring
}.

(** The values found in a document record. *)
Inductive value :=
| VUndefined
| VNull
| VString (s : jsstring)
| VNumber (n : N)
| VArray (items : list jsstring)
| VObject.

(** The record: its own enumerable properties in the order of [for ... in]. *)
Definition article := list (jsstring * value).

(** [(article[key] || '') + ''] *)
Definition field_text (v : value) : jsstring :=
  match v with
  | VUndefined | VNull => []
  | VString s => s
  | VNumber n => if (n =? 0)%N then [] else str (pretty n)
  | VArray items => join (str ",") items
  | VObject => str "[object Object]"
  end.

Definition get (a : article) (key : jsstring) : value :=
  match List.find (fun kv => eqs (fst kv) key) a with
  | Some (_, v) => v
  | None => VUndefined
  end.

(** [(article.keywords || []).join(seperator)]; [None] when [join] is not a
    function of the value (a [TypeError]). *)
Definition keywords_joined (a : article) (seperator : jsstring) : option jsstring :=
  match get a (str "keywords") with
  | VArray items => Some (join seperator items)
  | VUndefined | VNull => Some []
  | VString s => if truthy (JStr s) then None else Some []
  | VNumber n => if (n =? 0)%N then Some [] else None
  | VObject => None
  end.

(** [s.replace(/ /g, c)] *)
Definition spaces_to (c : N) (s : jsstring) : jsstring :=
  replace (one_of (N.eqb SPACE)) (fun _ => [c]) s.

(** White space and line terminators, which [trim] takes away. *)
Definition is_white_space (c : N) : bool :=
  existsb (N.eqb c) [9; 10; 11; 12; 13; 32; 0xA0; 0x1680; 0x2028; 0x2029; 0x202F;
                     0x205F; 0x3000; 0xFEFF]%N
  || ((0x2000 <=? c)%N && (c <=? 0x200A)%N).

Fixpoint trimStart (s : jsstring) : jsstring :=
  match s with
  | x :: s' => if is_white_space x then trimStart s' else s
  | [] => []
  end.

(** [str.trim()] *)
Definition trim (s : jsstring) : jsstring := rev (trimStart (rev (trimStart s))).

(** [/ ./g]: a space and one more code unit that is not a line terminator. *)
Definition space_dot : matcher :=
  fun s => match s with
           | x :: y :: _ =>
               if (x =? SPACE)%N && negb (is_line_terminator y) then Some 2 else None
           | _ => None
           end.

(** [s.replace(/^./, f)]: the first code unit, unless it is a line terminator. *)
Definition replace_first (f : jsstring -> jsstring) (s : jsstring) : jsstring :=
  match s with
  | x :: s' => if is_line_terminator x then s else f [x] ++ s'
  | [] => []
  end.

Section WithRuntime.
Context (rt : Runtime).

(** [s.replace(/ ./g, (str) => str.trim().toUpperCase())] *)
Definition join_words (s : jsstring) : jsstring :=
  replace space_dot (fun m => toUpperCase rt (trim m)) s.

Definition kebab (s : jsstring) : jsstring := toLowerCase rt (spaces_to (ch "-") s).
Definition snake (s : jsstring) : jsstring := toLowerCase rt (spaces_to (ch "_") s).
Definition camel (s : jsstring) : jsstring := replace_first (toLowerCase rt) (join_words s).
Definition pascal (s : jsstring) : jsstring := replace_first (toUpperCase rt) (join_words s).

(** The body of the [for (const key in article)] loop for one key. *)
Definition substitute_field (disallowedChars : jsval) (key : jsstring) (v : value)
    (string : jsstring) : option jsstring :=
  if eqs key (str "content") then Some string
  else
    let s := field_text v in
    let s := if truthy (JStr s) && truthy disallowedChars
             then FileName.valid_name s disallowedChars else s in
    string ← RegExp_replace rt (str "{" ++ key ++ str "}") s string;
    string ← RegExp_replace rt (str "{" ++ key ++ str ":kebab}") (kebab s) string;
    string ← RegExp_replace rt (str "{" ++ key ++ str ":snake}") (snake s) string;
    string ← RegExp_replace rt (str "{" ++ key ++ str ":camel}") (camel s) string;
    RegExp_replace rt (str "{" ++ key ++ str ":pascal}") (pascal s) string.

Fixpoint substitute_fields (disallowedChars : jsval) (a : article) (string : jsstring)
    : option jsstring :=
  match a with
  | [] => Some string
  | (key, v) :: a' =>
      string ← substitute_field disallowedChars key v string;
      substitute_fields disallowedChars a' string
  end.

(** [const dateRegex = /{date:(.+?)}/g] *)
Definition dateRegex : matcher :=
  fun s =>
    if startsWith (str "{date:") s then
      match drop 6 s with
      | x :: rest =>
          if is_line_terminator x then None
          else (fun n => 6 + 1 + n + 1) <$> lazy_close rest
      | [] => None
      end
    else None.

(** The [matches.forEach] of the dates. *)
Definition substitute_dates (string : jsstring) : jsstring :=
  fold_left
    (fun string m =>
       let format := substring 6 (length m - 1) m in
       let dateString := moment_format rt format in
       replaceAll m dateString string)
    (matches dateRegex string) string.

(** [const keywordRegex]: the text [{keywords], an optional colon, an optional
    group holding a greedy dot-star, and a closing brace, under the [g] flag.
    The greedy star runs to the last closing brace of the line. *)
Definition keywordRegex : matcher :=
  fun s =>
    if startsWith (str "{keywords") s
    then (fun n => 9 + n + 1) <$> greedy_close (drop 9 s)
    else None.

(** [.replace(/\\\\/g, '\\')]: two backslashes become one. *)
Definition halve_backslashes (s : jsstring) : jsstring :=
  replace (literal [BACKSLASH; BACKSLASH]) (fun _ => [BACKSLASH]) s.

(** [.replace(/\\/g, '\\\\')]: one backslash becomes two. *)
Definition double_backslashes (s : jsstring) : jsstring :=
  replace (literal [BACKSLASH]) (fun _ => [BACKSLASH; BACKSLASH]) s.

(** The [try { seperator = JSON.parse(...) } catch { }] *)
Definition unescape_seperator (seperator : jsstring) : jsstring :=
  match JSON_parse rt (halve_backslashes (JSON_stringify rt seperator)) with
  | Some s => s
  | None => seperator
  end.

(** The body of [keywordMatches.forEach] for one match. *)
Definition substitute_keyword (a : article) (m : jsstring) (string : jsstring)
    : option jsstring :=
  let seperator := unescape_seperator (substring 10 (length m - 1) m) in
  keywordsString ← keywords_joined a seperator;
  RegExp_replace rt (double_backslashes m) keywordsString string.

Fixpoint substitute_keywords (a : article) (ms : list jsstring) (string : jsstring)
    : option jsstring :=
  match ms with
  | [] => Some string
  | m :: ms' =>
      string ← substitute_keyword a m string;
      substitute_keywords a ms' string
  end.

(** [string.replace(/{(.*?)}/g, '')] *)
Definition strip_braces (string : jsstring) : jsstring :=
  replace brace_token (fun _ => []) string.

Definition textReplace (string : jsstring) (a : article) (disallowedChars : jsval)
    : option jsstring :=
  string ← substitute_fields disallowedChars a string;
  let string := substitute_dates string in
  string ← substitute_keywords a (matches keywordRegex string) string;
  Some (strip_braces string).

End WithRuntime.

(** A runtime for plain ASCII input, to run the function on examples: the
    clock stands in 2024 and knows the format [YYYY]; the case mappings know
    the ASCII letters; a pattern put together at run time is read as the
    literal text it is (right for keys and separators without regular
    expression syntax); the JSON functions add and take off the quotes (right
    for texts without escapes). *)
Definition ascii_lower (c : N) : N :=
  if (65 <=? c)%N && (c <=? 90)%N then (c + 32)%N else c.
Definition ascii_upper (c : N) : N :=
  if (97 <=? c)%N && (c <=? 122)%N then (c - 32)%N else c.

Definition ascii_runtime : Runtime := {|
  moment_format := fun format => if eqs format (str "YYYY") then str "2024" else format;
  toLowerCase := map ascii_lower;
  toUpperCase := map ascii_upper;
  RegExp_replace := fun source replacement subject =>
                      Some (replaceAll source replacement subject);
  JSON_stringify := fun s => DQUOTE :: s ++ [DQUOTE];
  JSON_parse := fun text => match text with
                            | q :: rest => Some (removelast rest)
                            | [] => None
                            end
|}.



(** The scenario of the specification: [{title:kebab}-{date:YYYY}] with the
    title [Hello World] in the year 2024. *)
Example textReplace_scenario :
  textReplace ascii_runtime (str "{title:kebab}-{date:YYYY}")
    [(str "title", VString (str "Hello World"))] JNull
  = Some (str "hello-world-2024").
Proof. vm_compute. reflexivity. Qed.




(** *** More on the clean-up and on the field loop *)

Lemma lazy_close_Some (s : jsstring) (n : nat) :
  lazy_close s = Some n ->
  exists mid post,
    s = mid ++ RBRACE :: post /\
    Forall (fun c => is_line_terminator c = false) mid.
Proof.
  revert n. induction s as [|x s IH]; intros n H; simpl in H; [discriminate H|].
  destruct (N.eqb_spec x RBRACE) as [->|_].
  - exists [], s. split; [reflexivity | constructor].
  - destruct (is_line_terminator x) eqn:Ex; [discriminate H|].
    destruct (lazy_close s) as [k|] eqn:Es; [|discriminate H].
    destruct (IH k eq_refl) as (mid & post & -> & Hmid).
    exists (x :: mid), post. split; [reflexivity|].
    constructor; assumption.
Qed.

Lemma has_brace_token_tail (x : N) (s : jsstring) :
  has_brace_token s -> has_brace_token (x :: s).
Proof.
  intros (pre & mid & post & -> & Hmid).
  exists (x :: pre), mid, post. split; [reflexivity | exact Hmid].
Qed.

Lemma strip_braces_no_token (s : jsstring) :
  ~ has_brace_token s -> strip_braces s = s.
Proof.
  unfold strip_braces, replace.
  induction s as [|x s IH]; intros Hno; [reflexivity|].
  cbn [replace_from].
  assert (Hnone : brace_token (x :: s) = None).
  { unfold brace_token. destruct (N.eqb_spec x LBRACE) as [->|_]; [|reflexivity].
    destruct (lazy_close s) as [n|] eqn:E; [|reflexivity].
    exfalso. apply Hno.
    destruct (lazy_close_Some s n E) as (mid & post & -> & Hmid).
    exists [], mid, post. split; [reflexivity | exact Hmid]. }
  rewrite Hnone. f_equal. apply IH.
  intros H. apply Hno. apply has_brace_token_tail. exact H.
Qed.

(** X2. The clean-up changes a text exactly when the text holds a brace token on
    one line; a text it has cleaned it leaves alone. *)
Theorem strip_braces_fixpoint (s : jsstring) :
  (strip_braces s = s <-> ~ has_brace_token s) /\
  strip_braces (strip_braces s) = strip_braces s.
Proof.
  split; [split|].
  - intros H. rewrite <- H. apply replace_brace_no_token.
  - apply strip_braces_no_token.
  - apply strip_braces_no_token. apply replace_brace_no_token.
Qed.

Lemma strip_braces_fixpoint_witness : ~ has_brace_token (str "a}b{c").
Proof.
  apply (proj1 (proj1 (strip_braces_fixpoint (str "a}b{c")))). reflexivity.
Defined.

Lemma substitute_fields_app rt d (a1 a2 : article) (string : jsstring) :
  substitute_fields rt d (a1 ++ a2) string
  = substitute_fields rt d a1 string ≫= substitute_fields rt d a2.
Proof.
  revert string. induction a1 as [|[key v] a1 IH]; intros string; [reflexivity|].
  cbn [app substitute_fields].
  destruct (substitute_field rt d key v string) as [s1|]; [|reflexivity].
  cbn [mbind option_bind]. apply IH.
Qed.

Lemma get_skips (a1 a2 : article) (key other : jsstring) (v : value) :
  other <> key ->
  get (a1 ++ (other, v) :: a2) key = get (a1 ++ a2) key.
Proof.
  intros Hne. unfold get. induction a1 as [|[k w] a1 IH]; cbn [app List.find fst].
  - unfold eqs at 1. rewrite bool_decide_eq_false_2 by exact Hne. reflexivity.
  - destruct (eqs k key); [reflexivity | exact IH].
Qed.

(** X3. The [content] of the record is never put into a template: with or
    without that property, whatever its value and its place in the record,
    [textReplace] gives the same result. *)
Theorem textReplace_ignores_content rt (string : jsstring) (a1 a2 : article)
    (v : value) (d : jsval) :
  textReplace rt string (a1 ++ (str "content", v) :: a2) d
  = textReplace rt string (a1 ++ a2) d.
Proof.
  unfold textReplace.
  assert (Hf : forall s, substitute_fields rt d (a1 ++ (str "content", v) :: a2) s
                         = substitute_fields rt d (a1 ++ a2) s).
  { intros s. rewrite !substitute_fields_app.
    destruct (substitute_fields rt d a1 s) as [s1|]; reflexivity. }
  rewrite Hf.
  destruct (substitute_fields rt d (a1 ++ a2) string) as [s1|]; [|reflexivity].
  cbn [mbind option_bind].
  assert (Hk : forall ms s,
             substitute_keywords rt (a1 ++ (str "content", v) :: a2) ms s
             = substitute_keywords rt (a1 ++ a2) ms s).
  { induction ms as [|m ms IH]; intros s; [reflexivity|].
    cbn [substitute_keywords]. unfold substitute_keyword, keywords_joined.
    rewrite get_skips by discriminate.
    destruct (substitute_keyword rt (a1 ++ a2) m s) eqn:E;
      unfold substitute_keyword, keywords_joined in E; rewrite E;
      cbn [mbind option_bind]; [apply IH | reflexivity]. }
  rewrite Hk. reflexivity.
Qed.

End Template.

(** ** The table rule of [turndown]

    [turndownService.addRule('table', ...)] in [offscreen.js]: the rows are
    enumerated, every cell is rendered and written into [tableMatrix] over its
    rowspan and colspan, and the matrix is printed as a Markdown table. *)

Module Table.
Import Scan.

(** A JavaScript array, holes included: [None] is a hole (it reads as
    [undefined]). *)
Abbreviation jsarray A := (list (option A)) (only parsing).

(** [a[i]] *)
Definition arr_get {A} (a : jsarray A) (i : nat) : option A :=
  match a !! i with
  | Some x => x
  | None => None
  end.

(** [a[i] = x]; an index behind the end lengthens the array and leaves holes. *)
Definition arr_set {A} (a : jsarray A) (i : nat) (x : A) : jsarray A :=
  if i <? length a then <[i := Some x]> a
  else a ++ replicate (i - length a) None ++ [Some x].

(** A cell ([td] or [th]) of a row. [content] is what the cell converter makes
    of the cell's inner HTML, [cellTurndownService.turndown(cellContainer.innerHTML)]
    (the text [1], the two paragraphs [1<LF><LF>2], ...); [colspan] and
    [rowspan] are [parseInt] of the attributes, [None] for [NaN] (the
    attribute is missing or does not start with a number). *)
Record cell := {
  content : jsstring;
  colspan : option Z;
  rowspan : option Z
}.

(** [Array.from(row.children)] *)
Abbreviation row := (list cell) (only parsing).

(** What the rule reads of the [table] element. *)
Record table_node := {
  (** [thead?.querySelector('tr')], when there is one *)
  thead_row : option row;
  (** [Array.from(tbody.children)], when there is a [tbody] *)
  tbody_rows : option (list row);
  (** [Array.from(node.querySelectorAll('tr'))] *)
  all_tr : list row
}.

(** [const rows = headerRow ? [headerRow, ...(tbody ? ... : [])] : (tbody ? ... : ...)] *)
Definition rows_of (node : table_node) : list row :=
  match thead_row node with
  | Some headerRow => headerRow :: default [] (tbody_rows node)
  | None => default (all_tr node) (tbody_rows node)
  end.

(** [parseInt(cell.getAttribute(...)) || 1] *)
Definition span (attr : option Z) : Z :=
  match attr with
  | Some z => if (z =? 0)%Z then 1%Z else z
  | None => 1%Z
  end.

Definition is_marker (c : N) : bool :=
  existsb (N.eqb c) [ch "*"; ch "_"; ch "~"; ch "`"].

Fixpoint run_length (cls : N -> bool) (s : jsstring) : nat :=
  match s with
  | x :: s' => if cls x then S (run_length cls s') else 0
  | [] => 0
  end.

(** The link expression: an optional bang, a label in square brackets that
    holds no closing bracket, and a target in round brackets that holds no
    closing round bracket. *)
Definition link_at (s : jsstring) : option nat :=
  let bang := match s with x :: _ => (x =? ch "!")%N | [] => false end in
  let s1 := if bang then drop 1 s else s in
  match s1 with
  | x :: r =>
      if (x =? ch "[")%N then
        let label := run_length (fun c => negb (c =? ch "]")%N) r in
        match drop label r with
        | y :: z :: r' =>
            if (y =? ch "]")%N && (z =? ch "(")%N then
              let target := run_length (fun c => negb (c =? ch ")")%N) r' in
              match drop target r' with
              | w :: _ =>
                  if (w =? ch ")")%N
                  then Some ((if bang then 1 else 0) + 1 + label + 2 + target + 1)
                  else None
              | [] => None
              end
            else None
        | _ => None
        end
      else None
  | [] => None
  end.

(** [$1] of the link expression: the label. *)
Definition link_label (m : jsstring) : jsstring :=
  let m1 := match m with
            | x :: r => if (x =? ch "!")%N then r else m
            | [] => []
            end in
  take (run_length (fun c => negb (c =? ch "]")%N) (drop 1 m1)) (drop 1 m1).

(** The place of the next marker on the line. *)
Fixpoint next_marker (s : jsstring) : option nat :=
  match s with
  | [] => None
  | x :: s' =>
      if is_marker x then Some 0
      else if is_line_terminator x then None
      else S <$> next_marker s'
  end.

(** The formatting expression: a run of markers (star, underscore, tilde,
    backquote), a lazy dot-star, and a run of markers.  When no marker
    follows on the line, a first run of at least two is split into the two
    runs around an empty middle. *)
Definition emphasis_at (s : jsstring) : option nat :=
  let k := run_length is_marker s in
  match k with
  | 0 => None
  | S k' =>
      let rest := drop k s in
      match next_marker rest with
      | Some j => Some (k + j + run_length is_marker (drop j rest))
      | None => if 2 <=? k then Some k else None
      end
  end.

(** [$1] of the formatting expression: what lies between the two runs. *)
Definition emphasis_inner (m : jsstring) : jsstring :=
  let rest := drop (run_length is_marker m) m in
  take (run_length (fun c => negb (is_marker c)) rest) rest.

(** [.replace(links, '$1').replace(formatting, '$1')] *)
Definition visible (s : jsstring) : jsstring :=
  replace emphasis_at emphasis_inner (replace link_at link_label s).

(** [processedContent.replace(/\n/g, ' ')], then the two above. *)
Definition simplifiedContent (processedContent : jsstring) : jsstring :=
  visible (map (fun c => if (c =? LF)%N then SPACE else c) processedContent).

Record state := {
  tableMatrix : jsarray (list jsstring);
  columnWidths : jsarray nat
}.

(** The body of the two [for] loops: one write into [tableMatrix[targetRow]]. *)
Definition place (processedContent : jsstring) (targetRow : nat) (st : state) : state :=
  let m := tableMatrix st in
  let m := match arr_get m targetRow with
           | None => arr_set m targetRow []
           | Some _ => m
           end in
  let r := default [] (arr_get m targetRow) in
  let targetCol := length r in
  let m := arr_set m targetRow (r ++ [processedContent]) in
  let visibleLength := length (simplifiedContent processedContent) in
  let w := columnWidths st in
  let w := match arr_get w targetCol with
           | None => arr_set w targetCol visibleLength
           | Some old =>
               if (old =? 0) || (old <? visibleLength)
               then arr_set w targetCol visibleLength else w
           end in
  {| tableMatrix := m; columnWidths := w |}.

Definition colspan_of (c : cell) : nat := Z.to_nat (span (colspan c)).
Definition rowspan_of (c : cell) : nat := Z.to_nat (span (rowspan c)).

(** [for (let j = 0; j < colspan; j++)] for one target row *)
Definition place_across (c : cell) (targetRow : nat) (st : state) : state :=
  Nat.iter (colspan_of c) (place (content c) targetRow) st.

(** [for (let i = 0; i < rowspan; i++)] *)
Definition place_cell (rowIndex : nat) (c : cell) (st : state) : state :=
  fold_left (fun st i => place_across c (rowIndex + i) st) (seq 0 (rowspan_of c)) st.

(** [Array.from(row.children).forEach(cell => ...)] *)
Definition place_row (rowIndex : nat) (r : row) (st : state) : state :=
  fold_left (fun st c => place_cell rowIndex c st) r st.

(** [rows.forEach((row, rowIndex) => ...)] *)
Fixpoint place_rows (rowIndex : nat) (rows : list row) (st : state) : state :=
  match rows with
  | [] => st
  | r :: rows' => place_rows (S rowIndex) rows' (place_row rowIndex r st)
  end.

Definition build (rows : list row) : state :=
  place_rows 0 rows
    {| tableMatrix := replicate (length rows) (Some []); columnWidths := [] |}.

(** [options.tableFormatting], as far as printing goes. *)
Record tableFormatting := {
  prettyPrint : bool;
  centerText : bool
}.

Definition defaultFormatting : tableFormatting :=
  {| prettyPrint := true; centerText := true |}.

Definition spaces (n : nat) : jsstring := replicate n SPACE.

Definition formatCell (opts : tableFormatting) (columnWidths : jsarray nat)
    (content : jsstring) (columnIndex : nat) : jsstring :=
  let safeContent := content in
  let unpadded := [SPACE] ++ safeContent ++ [SPACE] in
  if negb (prettyPrint opts) then unpadded
  else if length columnWidths <=? columnIndex then unpadded
  else if includes safeContent [LF] then unpadded
  else
    let visibleLength := length (visible safeContent) in
    let width := default 0 (arr_get columnWidths columnIndex) in
    let totalWidth := width + 2 in
    if negb (centerText opts)
    then [SPACE] ++ safeContent ++ spaces (totalWidth - visibleLength - 1)
    else spaces ((totalWidth - visibleLength) / 2) ++ safeContent
           ++ spaces ((totalWidth - visibleLength + 1) / 2).

(** [r.map((cell, i) => formatCell(cell, i)).join('|')] between two bars. *)
Definition format_row (opts : tableFormatting) (w : jsarray nat) (r : list jsstring)
    : jsstring :=
  [PIPE] ++ join [PIPE] (imap (fun i c => formatCell opts w c i) r) ++ [PIPE; LF].

(** [columnWidths.map(width => '-'.repeat(Math.max(3, width) + 2)).join('|')];
    [map] passes over a hole and [join] prints it as the empty string. *)
Definition separator (w : jsarray nat) : jsstring :=
  join [PIPE]
    (map (fun width => match width with
                       | Some width => replicate (Nat.max 3 width + 2) (ch "-")
                       | None => []
                       end) w).

(** The loop over the data rows; a hole is passed over. *)
Definition format_data (opts : tableFormatting) (w : jsarray nat)
    (rows : jsarray (list jsstring)) : jsstring :=
  concat (map (fun r => match r with
                        | Some r => format_row opts w r
                        | None => []
                        end) rows).

Definition render (opts : tableFormatting) (st : state) : jsstring :=
  let markdown := [LF; LF] in
  match tableMatrix st with
  | Some header :: data =>
      markdown ++ format_row opts (columnWidths st) header
        ++ [PIPE] ++ separator (columnWidths st) ++ [PIPE; LF]
        ++ format_data opts (columnWidths st) data
  | _ => markdown ++ str "| No data available |" ++ [LF] ++ str "|-|" ++ [LF]
  end.

(** The [replacement] of the rule. *)
Definition table_replacement (opts : tableFormatting) (node : table_node) : jsstring :=
  render opts (build (rows_of node)).

(** The lines of the table in the output: what stands between line feeds,
    blank lines left out. *)
Definition output_lines (markdown : jsstring) : list jsstring :=
  List.filter (fun l => negb (eqs l [])) (split LF markdown).

Definition count_char (c : N) (s : jsstring) : nat :=
  length (List.filter (N.eqb c) s).

Definition text_cell (s : jsstring) : cell :=
  {| content := s; colspan := None; rowspan := None |}.

(** Row [targetRow] of the matrix holds [s] at [n] places in a row. *)
Definition holds_block (st : state) (targetRow : nat) (s : jsstring) (n : nat) : Prop :=
  exists (cells : list jsstring) (col0 : nat),
    arr_get (tableMatrix st) targetRow = Some cells /\
    forall j, j < n -> cells !! (col0 + j) = Some s.

(** Every row of [st] is still there in [st'], possibly longer. *)
Definition extends (st st' : state) : Prop :=
  forall targetRow cells,
    arr_get (tableMatrix st) targetRow = Some cells ->
    exists cells', arr_get (tableMatrix st') targetRow = Some cells' /\
                   cells `prefix_of` cells'.

(** Every text of the matrix is counted in the width of its column. *)
Definition widths_cover (st : state) : Prop :=
  forall R cells col s,
    arr_get (tableMatrix st) R = Some cells -> cells !! col = Some s ->
    exists w, arr_get (columnWidths st) col = Some w /\
              length (simplifiedContent s) <= w.


(** The parts of the separator line, one for each column. *)
Definition separator_parts (w : list (option nat)) : list jsstring :=
  map (fun width => match width with
                    | Some width => replicate (Nat.max 3 width + 2) (ch "-")
                    | None => []
                    end) w.

(** *** Arrays *)

Lemma arr_get_set_eq {A} (a : jsarray A) i x : arr_get (arr_set a i x) i = Some x.
Proof.
  unfold arr_get, arr_set.
  destruct (Nat.ltb_spec i (length a)) as [Hlt|Hge]; cbv iota.
  - rewrite list_lookup_insert_eq by exact Hlt. reflexivity.
  - rewrite lookup_app_r by lia.
    rewrite lookup_app_r by (rewrite length_replicate; lia).
    rewrite length_replicate, Nat.sub_diag. reflexivity.
Qed.

Lemma arr_get_set_ne {A} (a : jsarray A) i j x :
  i <> j -> arr_get (arr_set a i x) j = arr_get a j.
Proof.
  intros Hne. unfold arr_get, arr_set.
  destruct (Nat.ltb_spec i (length a)) as [Hlt|Hge]; cbv iota.
  - rewrite list_lookup_insert_ne by exact Hne. reflexivity.
  - destruct (Nat.lt_ge_cases j (length a)) as [Hj|Hj].
    + rewrite lookup_app_l by exact Hj. reflexivity.
    + rewrite (lookup_ge_None_2 a j) by lia.
      rewrite lookup_app_r by lia.
      destruct (Nat.lt_ge_cases (j - length a) (i - length a)) as [Hk|Hk].
      * rewrite lookup_app_l by (rewrite length_replicate; lia).
        rewrite lookup_replicate_2 by lia. reflexivity.
      * rewrite lookup_app_r by (rewrite length_replicate; lia).
        rewrite length_replicate.
        destruct (j - length a - (i - length a)) as [|n] eqn:E; [lia|].
        reflexivity.
Qed.

Lemma arr_set_length {A} (a : jsarray A) i x :
  length (arr_set a i x) = Nat.max (length a) (S i).
Proof.
  unfold arr_set. destruct (Nat.ltb_spec i (length a)) as [Hlt|Hge]; cbv iota.
  - rewrite length_insert. lia.
  - rewrite !length_app, length_replicate. simpl. lia.
Qed.

(** *** One write *)

Lemma place_get_eq s R st :
  arr_get (tableMatrix (place s R st)) R
  = Some (default [] (arr_get (tableMatrix st) R) ++ [s]).
Proof.
  unfold place. cbn [tableMatrix]. rewrite arr_get_set_eq.
  destruct (arr_get (tableMatrix st) R) as [r|] eqn:E.
  - rewrite E. reflexivity.
  - rewrite arr_get_set_eq. reflexivity.
Qed.

Lemma place_get_ne s R R' st :
  R <> R' -> arr_get (tableMatrix (place s R st)) R' = arr_get (tableMatrix st) R'.
Proof.
  intros Hne. unfold place. cbn [tableMatrix].
  rewrite arr_get_set_ne by exact Hne.
  destruct (arr_get (tableMatrix st) R); [reflexivity|].
  apply arr_get_set_ne. exact Hne.
Qed.

Lemma extends_refl st : extends st st.
Proof. intros R cells H. exists cells. split; [exact H | reflexivity]. Qed.

Lemma extends_trans st1 st2 st3 : extends st1 st2 -> extends st2 st3 -> extends st1 st3.
Proof.
  intros H12 H23 R cells H.
  destruct (H12 _ _ H) as (c2 & H2 & P2).
  destruct (H23 _ _ H2) as (c3 & H3 & P3).
  exists c3. split; [exact H3 | etransitivity; eassumption].
Qed.

Lemma place_extends s R st : extends st (place s R st).
Proof.
  intros R' cells H. destruct (Nat.eq_dec R R') as [->|Hne].
  - rewrite place_get_eq, H. simpl. eexists. split; [reflexivity|].
    apply prefix_app_r. reflexivity.
  - rewrite place_get_ne by exact Hne. exists cells. split; [exact H | reflexivity].
Qed.

Lemma iter_place_extends s R n st : extends st (Nat.iter n (place s R) st).
Proof.
  induction n as [|n IH]; [apply extends_refl|].
  rewrite Nat.iter_succ.
  eapply extends_trans; [exact IH | apply place_extends].
Qed.

Lemma fold_left_extends {A} (f : state -> A -> state) (l : list A) :
  (forall st x, extends st (f st x)) -> forall st, extends st (fold_left f l st).
Proof.
  intros Hf. induction l as [|x l IH]; intros st; simpl; [apply extends_refl|].
  eapply extends_trans; [apply Hf | apply IH].
Qed.

Lemma place_across_extends c R st : extends st (place_across c R st).
Proof. apply iter_place_extends. Qed.

Lemma place_cell_extends ri c st : extends st (place_cell ri c st).
Proof. apply fold_left_extends. intros. apply place_across_extends. Qed.

Lemma place_row_extends ri r st : extends st (place_row ri r st).
Proof. apply fold_left_extends. intros. apply place_cell_extends. Qed.

Lemma place_rows_extends rows : forall ri st, extends st (place_rows ri rows st).
Proof.
  induction rows as [|r rows IH]; intros ri st; simpl; [apply extends_refl|].
  eapply extends_trans; [apply place_row_extends | apply IH].
Qed.

Lemma holds_block_extends st st' R s n :
  extends st st' -> holds_block st R s n -> holds_block st' R s n.
Proof.
  intros Hext (cells & col0 & Hget & Hcells).
  destruct (Hext _ _ Hget) as (cells' & Hget' & [k ->]).
  exists (cells ++ k), col0. split; [exact Hget'|].
  intros j Hj. apply lookup_app_l_Some. apply Hcells. exact Hj.
Qed.

(** *** A cell over its span *)

Lemma iter_place_row s R n st :
  arr_get (tableMatrix (Nat.iter n (place s R) st)) R
  = match n with
    | 0 => arr_get (tableMatrix st) R
    | S _ => Some (default [] (arr_get (tableMatrix st) R) ++ replicate n s)
    end.
Proof.
  induction n as [|n IH]; [reflexivity|].
  rewrite Nat.iter_succ, place_get_eq, IH.
  destruct n as [|n].
  - reflexivity.
  - cbn [from_option id].
    rewrite (replicate_S_end (S n)), app_assoc. reflexivity.
Qed.

Lemma place_across_block c R st :
  0 < colspan_of c ->
  holds_block (place_across c R st) R (content c) (colspan_of c).
Proof.
  unfold place_across. destruct (colspan_of c) as [|n] eqn:E; [lia|]. intros _.
  exists (default [] (arr_get (tableMatrix st) R) ++ replicate (S n) (content c)),
    (length (default [] (arr_get (tableMatrix st) R))).
  split; [apply iter_place_row|].
  intros j Hj. rewrite lookup_app_r by lia.
  apply lookup_replicate_2. lia.
Qed.

(** In a fold, what one step brings about and every step keeps holds at the
    end. *)
Lemma fold_left_establish {A} (f : state -> A -> state) (P : state -> Prop)
    (l : list A) (x : A) :
  In x l ->
  (forall st, P (f st x)) ->
  (forall st y, P st -> P (f st y)) ->
  forall st, P (fold_left f l st).
Proof.
  intros Hin Hx Hkeep.
  assert (Hall : forall l' st, P st -> P (fold_left f l' st)).
  { induction l' as [|y l' IH]; intros st H; simpl; [exact H|].
    apply IH. apply Hkeep. exact H. }
  induction l as [|y l IH]; intros st; [destruct Hin|].
  simpl. destruct Hin as [->|Hin].
  - apply Hall. apply Hx.
  - apply IH. exact Hin.
Qed.

Lemma place_cell_block ri c i st :
  i < rowspan_of c -> 0 < colspan_of c ->
  holds_block (place_cell ri c st) (ri + i) (content c) (colspan_of c).
Proof.
  intros Hi Hc. unfold place_cell.
  apply (fold_left_establish
           (fun st i => place_across c (ri + i) st)
           (fun st => holds_block st (ri + i) (content c) (colspan_of c))
           (seq 0 (rowspan_of c)) i).
  - apply in_seq. lia.
  - intros st'. apply place_across_block. exact Hc.
  - intros st' y H. eapply holds_block_extends; [apply place_across_extends | exact H].
Qed.

Lemma place_row_block ri (r : row) k c i st :
  r !! k = Some c -> i < rowspan_of c -> 0 < colspan_of c ->
  holds_block (place_row ri r st) (ri + i) (content c) (colspan_of c).
Proof.
  intros Hk Hi Hc. unfold place_row.
  apply (fold_left_establish
           (fun st c => place_cell ri c st)
           (fun st => holds_block st (ri + i) (content c) (colspan_of c))
           r c).
  - apply list_elem_of_In. eapply list_elem_of_lookup_2. exact Hk.
  - intros st'. apply place_cell_block; assumption.
  - intros st' y H. eapply holds_block_extends; [apply place_cell_extends | exact H].
Qed.

Lemma place_rows_block (rows : list row) :
  forall first ri (r : row) k c i st,
    rows !! ri = Some r -> r !! k = Some c ->
    i < rowspan_of c -> 0 < colspan_of c ->
    holds_block (place_rows first rows st) (first + ri + i) (content c) (colspan_of c).
Proof.
  induction rows as [|r0 rows IH]; intros first ri r k c i st Hri Hk Hi Hc.
  - discriminate Hri.
  - destruct ri as [|ri]; simpl in *.
    + injection Hri as ->. rewrite Nat.add_0_r.
      eapply holds_block_extends; [apply place_rows_extends|].
      eapply place_row_block; eassumption.
    + replace (first + S ri + i) with (S first + ri + i) by lia.
      eapply IH; eassumption.
Qed.









(** *** Tables without spans *)

(** The rendered text holds neither a line feed nor a bar. *)
Definition plain_text (s : jsstring) : Prop :=
  Forall (fun x => x <> LF /\ x <> PIPE) s.

(** A cell without [rowspan] and [colspan] whose text is plain. *)
Definition plain_cell (c : cell) : Prop :=
  colspan c = None /\ rowspan c = None /\ plain_text (content c).

Lemma place_cell_plain ri c st :
  colspan c = None -> rowspan c = None ->
  place_cell ri c st = place (content c) ri st.
Proof.
  intros Hc Hr. unfold place_cell, place_across, rowspan_of, colspan_of.
  rewrite Hc, Hr. simpl. rewrite Nat.add_0_r. reflexivity.
Qed.

Lemma arr_get_lookup {A} (a : list (option A)) i x :
  a !! i = Some (Some x) -> arr_get a i = Some x.
Proof. intros H. unfold arr_get. rewrite H. reflexivity. Qed.

Lemma place_matrix s R st row0 :
  tableMatrix st !! R = Some (Some row0) ->
  tableMatrix (place s R st) = <[R := Some (row0 ++ [s])]> (tableMatrix st).
Proof.
  intros H. unfold place. cbn [tableMatrix].
  rewrite (arr_get_lookup _ _ _ H). cbn [from_option id].
  rewrite (arr_get_lookup _ _ _ H). cbn [from_option id].
  unfold arr_set. apply lookup_lt_Some in H.
  destruct (Nat.ltb_spec R (length (tableMatrix st))) as [_|Hge]; [reflexivity | lia].
Qed.

Lemma place_widths_length s R st row0 :
  tableMatrix st !! R = Some (Some row0) ->
  length (columnWidths (place s R st))
  = Nat.max (length (columnWidths st)) (S (length row0)).
Proof.
  intros H. unfold place. cbn [columnWidths].
  rewrite (arr_get_lookup _ _ _ H). cbn [from_option id].
  rewrite (arr_get_lookup _ _ _ H). cbn [from_option id].
  destruct (arr_get (columnWidths st) (length row0)) as [old|] eqn:E.
  - assert (Hlt : length row0 < length (columnWidths st)).
    { unfold arr_get in E.
      destruct (columnWidths st !! length row0) as [x|] eqn:E'; [|discriminate E].
      eapply lookup_lt_Some. exact E'. }
    destruct ((old =? 0) || (old <? length (simplifiedContent s)));
      [rewrite arr_set_length|]; lia.
  - apply arr_set_length.
Qed.

Lemma place_row_plain (r : list cell) :
  forall st ri row0,
    Forall plain_cell r ->
    tableMatrix st !! ri = Some (Some row0) ->
    tableMatrix (place_row ri r st)
    = <[ri := Some (row0 ++ map content r)]> (tableMatrix st) /\
    length (columnWidths (place_row ri r st))
    = match r with
      | [] => length (columnWidths st)
      | _ :: _ => Nat.max (length (columnWidths st)) (length row0 + length r)
      end.
Proof.
  induction r as [|c r IH]; intros st ri row0 Hplain Hrow.
  - simpl. rewrite app_nil_r. split; [|reflexivity].
    symmetry. apply list_insert_id. exact Hrow.
  - apply Forall_cons in Hplain as [(Hc & Hr & _) Hplain].
    unfold place_row in *. cbn [fold_left].
    rewrite (place_cell_plain ri c st Hc Hr).
    pose proof (place_matrix (content c) ri st row0 Hrow) as Hm.
    pose proof (place_widths_length (content c) ri st row0 Hrow) as Hw.
    assert (Hrow' : tableMatrix (place (content c) ri st) !! ri
                    = Some (Some (row0 ++ [content c]))).
    { rewrite Hm. apply list_lookup_insert_eq. eapply lookup_lt_Some. exact Hrow. }
    destruct (IH (place (content c) ri st) ri (row0 ++ [content c]) Hplain Hrow')
      as [IHm IHw].
    split.
    + rewrite IHm, Hm, list_insert_insert_eq. cbn [map].
      rewrite <- app_assoc. reflexivity.
    + rewrite IHw, Hw. rewrite length_app. simpl.
      destruct r; simpl; lia.
Qed.

Lemma place_rows_plain (rows : list (list cell)) :
  forall first st pre,
    Forall (Forall plain_cell) rows ->
    tableMatrix st = pre ++ replicate (length rows) (Some []) ->
    length pre = first ->
    tableMatrix (place_rows first rows st)
    = pre ++ map (fun r => Some (map content r)) rows /\
    forall M, Forall (fun r : list cell => length r = M) rows ->
      length (columnWidths (place_rows first rows st))
      = match rows with
        | [] => length (columnWidths st)
        | _ :: _ => Nat.max (length (columnWidths st)) M
        end.
Proof.
  induction rows as [|r rows IH]; intros first st pre Hplain Hm Hpre.
  - simpl in *. rewrite app_nil_r in *. split; [exact Hm | reflexivity].
  - apply Forall_cons in Hplain as [Hr Hplain].
    assert (Hrow : tableMatrix st !! first = Some (Some [])).
    { rewrite Hm. rewrite lookup_app_r by lia.
      rewrite Hpre, Nat.sub_diag. reflexivity. }
    destruct (place_row_plain r st first [] Hr Hrow) as [Hm1 Hw1].
    cbn [app] in Hm1.
    assert (Hm1' : tableMatrix (place_row first r st)
                   = (pre ++ [Some (map content r)]) ++ replicate (length rows) (Some [])).
    { rewrite Hm1, Hm. cbn [length replicate].
      rewrite <- Hpre. rewrite insert_app_r_alt by lia.
      rewrite Nat.sub_diag. cbn [insert list_insert].
      rewrite <- app_assoc. reflexivity. }
    cbn [place_rows].
    destruct (IH (S first) (place_row first r st) (pre ++ [Some (map content r)])
                Hplain Hm1') as [IHm IHw].
    { rewrite length_app. simpl. lia. }
    split.
    + rewrite IHm, <- app_assoc. reflexivity.
    + intros M HM. apply Forall_cons in HM as [HrM HM].
      rewrite (IHw M HM), Hw1.
      destruct r, rows; simpl in *; lia.
Qed.

Lemma build_plain (rows : list (list cell)) :
  Forall (Forall plain_cell) rows ->
  tableMatrix (build rows) = map (fun r => Some (map content r)) rows /\
  forall M, Forall (fun r : list cell => length r = M) rows -> rows <> [] ->
    length (columnWidths (build rows)) = M.
Proof.
  intros Hplain. unfold build.
  destruct (place_rows_plain rows 0
              {| tableMatrix := replicate (length rows) (Some []); columnWidths := [] |}
              [] Hplain eq_refl eq_refl) as [Hm Hw].
  split; [exact Hm|].
  intros M HM Hne. rewrite (Hw M HM). destruct rows; [congruence | reflexivity].
Qed.

(** *** Printing *)

(** A printed row without its line feed. *)
Definition row_line (opts : tableFormatting) (w : jsarray nat) (r : list jsstring)
    : jsstring :=
  [PIPE] ++ join [PIPE] (imap (fun i c => formatCell opts w c i) r) ++ [PIPE].

Definition separator_line (w : jsarray nat) : jsstring :=
  [PIPE] ++ separator w ++ [PIPE].

Definition with_line_feeds (lines : list jsstring) : jsstring :=
  concat (map (fun l => l ++ [LF]) lines).

Lemma count_char_app c a b : count_char c (a ++ b) = count_char c a + count_char c b.
Proof. unfold count_char. rewrite List.filter_app, length_app. reflexivity. Qed.

Lemma plain_text_count s : plain_text s -> count_char PIPE s = 0.
Proof.
  unfold count_char. induction 1 as [|x s [_ Hx] Hs IH]; [reflexivity|].
  cbn [List.filter].
  destruct (N.eqb_spec PIPE x) as [E|_]; [congruence | exact IH].
Qed.

Lemma plain_text_app a b : plain_text a -> plain_text b -> plain_text (a ++ b).
Proof. intros Ha Hb. apply Forall_app. split; assumption. Qed.

Lemma plain_text_spaces n : plain_text (spaces n).
Proof. apply Forall_replicate. split; discriminate. Qed.

Lemma formatCell_plain opts w s i : plain_text s -> plain_text (formatCell opts w s i).
Proof.
  intros Hs. unfold formatCell.
  assert (Hsp : plain_text [SPACE]) by (apply (plain_text_spaces 1)).
  repeat match goal with
         | |- plain_text (if ?b then _ else _) => destruct b
         | |- plain_text (_ ++ _) => apply plain_text_app
         | |- plain_text (spaces _) => apply plain_text_spaces
         end; assumption.
Qed.

Lemma cells_plain opts w (r : list jsstring) :
  Forall plain_text r ->
  Forall plain_text (imap (fun i c => formatCell opts w c i) r).
Proof.
  intros Hr. apply Forall_forall. intros x Hx.
  apply elem_of_lookup_imap in Hx as (i & y & -> & Hy).
  apply formatCell_plain.
  eapply Forall_lookup_1; eassumption.
Qed.

Lemma join_count (parts : list jsstring) :
  Forall plain_text parts ->
  count_char PIPE (join [PIPE] parts) = length parts - 1 /\
  Forall (fun x => x <> LF) (join [PIPE] parts).
Proof.
  induction 1 as [|p parts Hp Hparts [IHc IHl]].
  - split; [reflexivity | constructor].
  - destruct parts as [|q parts].
    + simpl. split; [apply plain_text_count; exact Hp|].
      eapply List.Forall_impl; [|exact Hp]. intros a [Ha _]. exact Ha.
    + change (join [PIPE] (p :: q :: parts))
        with (p ++ [PIPE] ++ join [PIPE] (q :: parts)).
      split.
      * rewrite !count_char_app, IHc, (plain_text_count p Hp).
        change (count_char PIPE [PIPE]) with 1. simpl. lia.
      * apply Forall_app. split.
        -- eapply List.Forall_impl; [|exact Hp]. intros a [Ha _]. exact Ha.
        -- apply Forall_app. split; [|exact IHl].
           constructor; [discriminate | constructor].
Qed.

Lemma row_line_shape opts w (r : list jsstring) :
  Forall plain_text r -> 1 <= length r ->
  count_char PIPE (row_line opts w r) = length r + 1 /\
  Forall (fun x => x <> LF) (row_line opts w r).
Proof.
  intros Hr Hlen. unfold row_line.
  destruct (join_count _ (cells_plain opts w r Hr)) as [Hc Hl].
  rewrite length_imap in Hc. split.
  - rewrite !count_char_app, Hc. change (count_char PIPE [PIPE]) with 1. lia.
  - apply Forall_app. split; [constructor; [discriminate | constructor]|].
    apply Forall_app. split; [exact Hl|].
    constructor; [discriminate | constructor].
Qed.

Lemma separator_line_shape (w : jsarray nat) :
  1 <= length w ->
  count_char PIPE (separator_line w) = length w + 1 /\
  Forall (fun x => x <> LF) (separator_line w).
Proof.
  intros Hlen. unfold separator_line, separator.
  match goal with |- context [join [PIPE] ?parts] =>
    assert (Hparts : Forall plain_text parts) end.
  { apply List.Forall_forall. intros p Hp. apply in_map_iff in Hp as (x & <- & _).
    destruct x as [width|]; [|constructor].
    apply Forall_replicate. split; discriminate. }
  destruct (join_count _ Hparts) as [Hc Hl].
  rewrite length_map in Hc. split.
  - rewrite !count_char_app, Hc. change (count_char PIPE [PIPE]) with 1. lia.
  - apply Forall_app. split; [constructor; [discriminate | constructor]|].
    apply Forall_app. split; [exact Hl|].
    constructor; [discriminate | constructor].
Qed.

(** *** Lines *)

Lemma split_line c (l rest : jsstring) :
  Forall (fun x => x <> c) l -> split c (l ++ c :: rest) = l :: split c rest.
Proof.
  induction 1 as [|x l Hx Hl IH]; simpl.
  - rewrite N.eqb_refl. reflexivity.
  - destruct (N.eqb_spec x c) as [E|_]; [contradiction|].
    rewrite IH. reflexivity.
Qed.

Lemma split_with_line_feeds (lines : list jsstring) :
  Forall (Forall (fun x => x <> LF)) lines ->
  split LF (with_line_feeds lines) = lines ++ [[]].
Proof.
  unfold with_line_feeds.
  induction 1 as [|l lines Hl Hlines IH]; simpl; [reflexivity|].
  rewrite <- app_assoc. cbn [app]. rewrite split_line by exact Hl.
  rewrite IH. reflexivity.
Qed.

Lemma output_lines_with_line_feeds (lines : list jsstring) :
  Forall (Forall (fun x => x <> LF)) lines ->
  Forall (fun l => l <> []) lines ->
  output_lines ([LF; LF] ++ with_line_feeds lines) = lines.
Proof.
  intros Hlf Hne. unfold output_lines.
  change ([LF; LF] ++ with_line_feeds lines)
    with ([] ++ LF :: ([] ++ LF :: with_line_feeds lines)).
  rewrite !split_line by constructor.
  rewrite split_with_line_feeds by exact Hlf.
  cbn [List.filter]. unfold eqs at 1 2. simpl.
  rewrite List.filter_app. simpl. rewrite app_nil_r.
  apply filter_id_Forall.
  eapply List.Forall_impl; [|exact Hne].
  intros l Hl. unfold eqs. rewrite bool_decide_eq_false_2 by exact Hl. reflexivity.
Qed.

Lemma render_lines opts w (header : list jsstring) (data : list (list jsstring)) :
  render opts {| tableMatrix := map Some (header :: data); columnWidths := w |}
  = [LF; LF] ++ with_line_feeds
      (row_line opts w header :: separator_line w :: map (row_line opts w) data).
Proof.
  unfold render, with_line_feeds. cbn [tableMatrix columnWidths map concat].
  f_equal. unfold format_row, row_line, separator_line.
  repeat (rewrite <- ?app_assoc; cbn [app]).
  do 2 f_equal. do 4 f_equal. do 2 f_equal.
  unfold format_data. rewrite !map_map. f_equal.
  apply map_ext. intros r. unfold format_row.
  repeat (rewrite <- ?app_assoc; cbn [app]). reflexivity.
Qed.

(** The table of the scenario: a row of two [th], A and B, and a row of two
    [td], 1 and 2; the parser puts both rows into a [tbody]. *)
Definition scenario_table : table_node :=
  {| thead_row := None;
     tbody_rows := Some [[text_cell (str "A"); text_cell (str "B")];
                         [text_cell (str "1"); text_cell (str "2")]];
     all_tr := [[text_cell (str "A"); text_cell (str "B")];
                [text_cell (str "1"); text_cell (str "2")]] |}.

(** The same table with two paragraphs, 1 and 2, in the first cell of the
    second row (the cell converter renders them with a blank line between
    them) and with a bar in the text of the second cell. *)
Definition paragraphs_table : table_node :=
  {| thead_row := None;
     tbody_rows := Some [[text_cell (str "A"); text_cell (str "B")];
                         [text_cell (str "1" ++ [LF; LF] ++ str "2");
                          text_cell (str "x|y")]];
     all_tr := [[text_cell (str "A"); text_cell (str "B")];
                [text_cell (str "1" ++ [LF; LF] ++ str "2");
                 text_cell (str "x|y")]] |}.

(** A table with a [thead] and two [tbody] elements of one row each: the
    header row A, B and the data rows 1, 2 and 3, 4.  [querySelector('tbody')]
    gives the first [tbody]. *)
Definition two_tbody_table : table_node :=
  {| thead_row := Some [text_cell (str "A"); text_cell (str "B")];
     tbody_rows := Some [[text_cell (str "1"); text_cell (str "2")]];
     all_tr := [[text_cell (str "A"); text_cell (str "B")];
                [text_cell (str "1"); text_cell (str "2")];
                [text_cell (str "3"); text_cell (str "4")]] |}.

(** C3, as amended. Take a table whose rows are all read by the rule: the
    rows of the table (all its [tr] elements) are the row of the [thead]
    followed by the children of the first [tbody], or without a [thead] the
    children of the first [tbody], or without either all the [tr] elements.
    When it has a header row and N data rows, every row of M cells (M at
    least 1) without rowspan and colspan, and the rendered cells hold neither
    a line feed nor a bar, it is printed as exactly N + 2 lines (header,
    separator, data rows), and every line holds exactly M + 1 bars, which
    delimit its M cells.  The table of the scenario is printed with the
    header line [| A | B |]. *)
Theorem table_shape :
  (forall opts node (hdr : list cell) (data : list (list cell)) M,
      all_tr node = hdr :: data ->
      rows_of node = all_tr node ->
      1 <= M ->
      Forall (fun r : list cell => length r = M /\ Forall plain_cell r) (hdr :: data) ->
      length (output_lines (table_replacement opts node)) = length data + 2 /\
      Forall (fun l => count_char PIPE l = M + 1)
             (output_lines (table_replacement opts node))) /\
  output_lines (table_replacement defaultFormatting scenario_table)
  = [str "| A | B |"; str "|-----|-----|"; str "| 1 | 2 |"].
Proof.
  split; [|vm_compute; reflexivity].
  intros opts node hdr data M Htr Hread HM Hall.
  assert (Hrows : rows_of node = hdr :: data) by (rewrite Hread; exact Htr).
  unfold table_replacement. rewrite Hrows.
  assert (Hplain : Forall (Forall plain_cell) (hdr :: data)).
  { eapply List.Forall_impl; [|exact Hall]. intros r [_ Hr]. exact Hr. }
  assert (Hlen : Forall (fun r : list cell => length r = M) (hdr :: data)).
  { eapply List.Forall_impl; [|exact Hall]. intros r [Hr _]. exact Hr. }
  destruct (build_plain (hdr :: data) Hplain) as [Hm Hw].
  specialize (Hw M Hlen ltac:(discriminate)).
  destruct (build (hdr :: data)) as [m w]. cbn [tableMatrix columnWidths] in Hm, Hw.
  subst m.
  replace (map (fun r : list cell => Some (map content r)) (hdr :: data))
    with (map Some (map content hdr :: map (map content) data))
    by (cbn [map]; rewrite map_map; reflexivity).
  assert (Htext : forall r : list cell,
             length r = M /\ Forall plain_cell r ->
             count_char PIPE (row_line opts w (map content r)) = M + 1 /\
             Forall (fun x => x <> LF) (row_line opts w (map content r))).
  { intros r [Hr Hp].
    replace M with (length (map content r)) at 1 by (rewrite length_map; exact Hr).
    apply row_line_shape; [|rewrite length_map; lia].
    apply List.Forall_map. eapply List.Forall_impl; [|exact Hp].
    intros c (_ & _ & Hc). exact Hc. }
  assert (Hsep : count_char PIPE (separator_line w) = M + 1 /\
                 Forall (fun x => x <> LF) (separator_line w)).
  { rewrite <- Hw. apply separator_line_shape. lia. }
  apply Forall_cons in Hall as [Hhdr Hdata].
  assert (Hlines : Forall (fun l => count_char PIPE l = M + 1 /\
                                    Forall (fun x => x <> LF) l)
                     (row_line opts w (map content hdr) :: separator_line w
                        :: map (row_line opts w) (map (map content) data))).
  { constructor; [apply Htext; exact Hhdr|].
    constructor; [exact Hsep|].
    rewrite map_map. apply List.Forall_map.
    eapply List.Forall_impl; [|exact Hdata]. intros r Hr. apply Htext. exact Hr. }
  rewrite !render_lines, !output_lines_with_line_feeds.
  - split.
    + simpl. rewrite !length_map. lia.
    + eapply List.Forall_impl; [|exact Hlines]. intros l [Hl _]. exact Hl.
  - eapply List.Forall_impl; [|exact Hlines]. intros l [_ Hl]. exact Hl.
  - eapply List.Forall_impl; [|exact Hlines]. intros l [Hl _] ->.
    change (count_char PIPE []) with 0 in Hl. lia.
Qed.

Lemma table_shape_witness :
  length (output_lines (table_replacement defaultFormatting scenario_table)) = 1 + 2 /\
  Forall (fun l => count_char PIPE l = 2 + 1)
         (output_lines (table_replacement defaultFormatting scenario_table)).
Proof.
  apply (proj1 table_shape defaultFormatting scenario_table
           [text_cell (str "A"); text_cell (str "B")]
           [[text_cell (str "1"); text_cell (str "2")]] 2).
  - reflexivity.
  - reflexivity.
  - lia.
  - repeat constructor; discriminate.
Defined.

(** C3 as stated fails on a table of one data row and two columns without
    spans: the blank line between the two paragraphs of a cell breaks the
    data row into two lines, so that four lines are printed instead of three,
    and the bar in the text of the other cell is one bar more on its line.
    It also fails on a table without spans, of plain cells, that has a second
    [tbody]: of the header row and the two data rows, the rule reads the
    header row and the row of the first [tbody], and prints three lines
    instead of four. *)
Lemma table_shape_fails :
  (all_tr paragraphs_table
   = [[text_cell (str "A"); text_cell (str "B")];
      [text_cell (str "1" ++ [LF; LF] ++ str "2"); text_cell (str "x|y")]] /\
   rows_of paragraphs_table = all_tr paragraphs_table /\
   output_lines (table_replacement defaultFormatting paragraphs_table)
   = [str "|  A   |  B  |"; str "|------|-----|"; str "| 1"; str "2 | x|y |"] /\
   length (output_lines (table_replacement defaultFormatting paragraphs_table)) <> 1 + 2 /\
   ~ Forall (fun l => count_char PIPE l = 2 + 1)
       (output_lines (table_replacement defaultFormatting paragraphs_table))) /\
  (all_tr two_tbody_table
   = [text_cell (str "A"); text_cell (str "B")]
       :: [[text_cell (str "1"); text_cell (str "2")];
           [text_cell (str "3"); text_cell (str "4")]] /\
   Forall (fun r : list cell => length r = 2 /\ Forall plain_cell r)
     (all_tr two_tbody_table) /\
   rows_of two_tbody_table
   = [[text_cell (str "A"); text_cell (str "B")];
      [text_cell (str "1"); text_cell (str "2")]] /\
   output_lines (table_replacement defaultFormatting two_tbody_table)
   = [str "| A | B |"; str "|-----|-----|"; str "| 1 | 2 |"] /\
   length (output_lines (table_replacement defaultFormatting two_tbody_table)) <> 2 + 2).
Proof.
  split.
  - split; [reflexivity|]. split; [reflexivity|].
    split; [vm_compute; reflexivity|].
    split; [vm_compute; discriminate|].
    intros H. vm_compute in H.
    apply Forall_cons in H as [_ H]. apply Forall_cons in H as [_ H].
    apply Forall_cons in H as [H _]. discriminate H.
  - split; [reflexivity|].
    split; [repeat constructor; discriminate|].
    split; [reflexivity|].
    split; [vm_compute; reflexivity|].
    vm_compute. discriminate.
Qed.

(** *** The widths of the columns *)

Lemma place_width_here s R st :
  exists w,
    arr_get (columnWidths (place s R st))
      (length (default [] (arr_get (tableMatrix st) R))) = Some w /\
    length (simplifiedContent s) <= w.
Proof.
  unfold place. cbn [columnWidths].
  assert (Hr : default [] (arr_get
                 match arr_get (tableMatrix st) R with
                 | Some _ => tableMatrix st
                 | None => arr_set (tableMatrix st) R []
                 end R) = default [] (arr_get (tableMatrix st) R)).
  { destruct (arr_get (tableMatrix st) R) as [r|] eqn:E.
    - rewrite E. reflexivity.
    - rewrite arr_get_set_eq. reflexivity. }
  rewrite Hr.
  set (col := length (default [] (arr_get (tableMatrix st) R))).
  destruct (arr_get (columnWidths st) col) as [old|] eqn:E.
  - destruct ((old =? 0) || (old <? length (simplifiedContent s))) eqn:C.
    + rewrite arr_get_set_eq. eexists. split; [reflexivity|lia].
    + apply orb_false_iff in C as [_ C]. apply Nat.ltb_ge in C.
      exists old. split; [exact E|exact C].
  - rewrite arr_get_set_eq. eexists. split; [reflexivity|lia].
Qed.

Lemma place_width_grows s R st col w :
  arr_get (columnWidths st) col = Some w ->
  exists w', arr_get (columnWidths (place s R st)) col = Some w' /\ w <= w'.
Proof.
  intros Hw. unfold place. cbn [columnWidths].
  match goal with
  | |- context [arr_get (columnWidths st) ?c] => set (here := c)
  end.
  destruct (Nat.eq_dec here col) as [Heq|Hne].
  - rewrite Heq, Hw.
    destruct ((w =? 0) || (w <? length (simplifiedContent s))) eqn:C.
    + rewrite arr_get_set_eq. eexists. split; [reflexivity|].
      apply orb_true_iff in C as [C|C];
        [apply Nat.eqb_eq in C|apply Nat.ltb_lt in C]; lia.
    + exists w. split; [exact Hw|lia].
  - exists w. split; [|lia].
    destruct (arr_get (columnWidths st) here) as [old|].
    + destruct ((old =? 0) || (old <? length (simplifiedContent s))); [|exact Hw].
      rewrite arr_get_set_ne by exact Hne. exact Hw.
    + rewrite arr_get_set_ne by exact Hne. exact Hw.
Qed.

Lemma place_widths_cover s R st : widths_cover st -> widths_cover (place s R st).
Proof.
  intros Hinv R' cells col s' Hget Hcell.
  destruct (Nat.eq_dec R R') as [<-|Hne].
  - rewrite place_get_eq in Hget. injection Hget as <-.
    destruct (place_width_here s R st) as (w & Hw & Hle).
    destruct (Nat.lt_ge_cases col (length (default [] (arr_get (tableMatrix st) R))))
      as [Hlt|Hge].
    + rewrite lookup_app_l in Hcell by exact Hlt.
      destruct (arr_get (tableMatrix st) R) as [r|] eqn:E.
      * destruct (Hinv R r col s' E Hcell) as (w0 & Hw0 & Hle0).
        destruct (place_width_grows s R st col w0 Hw0) as (w' & Hw' & Hle').
        exists w'. split; [exact Hw'|lia].
      * cbn in Hcell. rewrite lookup_nil in Hcell. discriminate Hcell.
    + rewrite lookup_app_r in Hcell by exact Hge.
      destruct (col - length (default [] (arr_get (tableMatrix st) R))) as [|k] eqn:Ek.
      * cbn in Hcell. injection Hcell as <-.
        assert (col = length (default [] (arr_get (tableMatrix st) R))) as -> by lia.
        exists w. split; [exact Hw|exact Hle].
      * cbn in Hcell. try rewrite lookup_nil in Hcell. discriminate Hcell.
  - rewrite place_get_ne in Hget by exact Hne.
    destruct (Hinv R' cells col s' Hget Hcell) as (w0 & Hw0 & Hle0).
    destruct (place_width_grows s R st col w0 Hw0) as (w' & Hw' & Hle').
    exists w'. split; [exact Hw'|lia].
Qed.

Lemma place_rows_widths_cover rows :
  forall ri st, widths_cover st -> widths_cover (place_rows ri rows st).
Proof.
  assert (Hiter : forall s R n st, widths_cover st ->
                                   widths_cover (Nat.iter n (place s R) st)).
  { intros s R n st H. induction n as [|n IH]; [exact H|].
    rewrite Nat.iter_succ. apply place_widths_cover, IH. }
  assert (Hfold : forall {A} (f : state -> A -> state) (l : list A),
             (forall st x, widths_cover st -> widths_cover (f st x)) ->
             forall st, widths_cover st -> widths_cover (fold_left f l st)).
  { intros A f l Hf. induction l as [|x l IH]; intros st H; [exact H|].
    cbn [fold_left]. apply IH, Hf, H. }
  assert (Hcell : forall ri c st, widths_cover st -> widths_cover (place_cell ri c st)).
  { intros ri c st. unfold place_cell. apply Hfold. intros st' i. apply Hiter. }
  induction rows as [|r rows IH]; intros ri st H; [exact H|].
  cbn [place_rows]. apply IH. unfold place_row.
  apply Hfold; [|exact H]. intros st' c. apply Hcell.
Qed.

Lemma build_widths_cover (rows : list (list cell)) : widths_cover (build rows).
Proof.
  unfold build. apply place_rows_widths_cover.
  intros R cells col s Hget Hcell. cbn [tableMatrix] in Hget.
  unfold arr_get in Hget.
  destruct (replicate (length rows) (Some ([] : list jsstring)) !! R) as [x|] eqn:E;
    [|discriminate Hget].
  apply lookup_replicate in E as [-> _]. injection Hget as <-.
  rewrite lookup_nil in Hcell. discriminate Hcell.
Qed.

Lemma no_line_feed (s : jsstring) :
  includes s [LF] = false -> map (fun c => if (c =? LF)%N then SPACE else c) s = s.
Proof.
  induction s as [|x s IH]; [reflexivity|]. intros H.
  cbn [includes startsWith] in H. apply orb_false_iff in H as [H1 H2].
  rewrite andb_true_r in H1. cbn [map]. rewrite N.eqb_sym, H1.
  f_equal. apply IH, H2.
Qed.

Lemma lookup_map_list {A B} (f : A -> B) (l : list A) (i : nat) (x : A) :
  l !! i = Some x -> map f l !! i = Some (f x).
Proof.
  revert i. induction l as [|y l IH]; intros [|i] H; try discriminate H.
  - injection H as ->. reflexivity.
  - cbn. apply IH. exact H.
Qed.

(** X4. The widths of the columns. Every text of the matrix is counted in the
    width [w] of its column: its length, with line feeds read as spaces and
    without the markup that is not seen (link targets, emphasis markers), is
    at most [w]. With [prettyPrint] on, a text without line feed is printed
    with [w + 2] code units, not counting that markup, centred or not. The
    separator line is made of one run of dashes for each column, with bars
    between them, and the run of the column has [max(3, w) + 2] dashes. *)
Theorem table_column_widths (rows : list (list cell)) (R col : nat)
    (cells : list jsstring) (s : jsstring) :
  arr_get (tableMatrix (build rows)) R = Some cells ->
  cells !! col = Some s ->
  exists w,
    arr_get (columnWidths (build rows)) col = Some w /\
    length (simplifiedContent s) <= w /\
    (forall opts,
        prettyPrint opts = true -> includes s [LF] = false ->
        length (formatCell opts (columnWidths (build rows)) s col) + length (visible s)
        = length s + (w + 2)) /\
    separator (columnWidths (build rows))
    = join [PIPE] (separator_parts (columnWidths (build rows))) /\
    separator_parts (columnWidths (build rows)) !! col
    = Some (replicate (Nat.max 3 w + 2) (ch "-")).
Proof.
  intros Hget Hcell.
  destruct (build_widths_cover rows R cells col s Hget Hcell) as (w & Hw & Hle).
  exists w. split; [exact Hw|]. split; [exact Hle|].
  assert (Hlook : columnWidths (build rows) !! col = Some (Some w)).
  { unfold arr_get in Hw.
    destruct (columnWidths (build rows) !! col) as [[x|]|] eqn:E; try discriminate Hw.
    injection Hw as ->. reflexivity. }
  split; [|split; [reflexivity|]].
  - intros opts Hpp Hlf.
    unfold simplifiedContent in Hle. rewrite (no_line_feed s Hlf) in Hle.
    unfold formatCell. rewrite Hpp, Hlf, Hw. cbn [negb from_option id].
    assert (Hlen : col < length (columnWidths (build rows)))
      by (eapply lookup_lt_Some; exact Hlook).
    destruct (Nat.leb_spec (length (columnWidths (build rows))) col) as [?|_]; [lia|].
    destruct (centerText opts); cbn [negb].
    + rewrite !length_app. unfold spaces. rewrite !length_replicate.
      set (v := length (visible s)) in *.
      assert ((w + 2 - v) / 2 + (w + 2 - v + 1) / 2 = w + 2 - v).
      { pose proof (Nat.div_mod_eq (w + 2 - v) 2).
        pose proof (Nat.div_mod_eq (w + 2 - v + 1) 2).
        pose proof (Nat.mod_upper_bound (w + 2 - v) 2).
        pose proof (Nat.mod_upper_bound (w + 2 - v + 1) 2). lia. }
      lia.
    + rewrite !length_app. unfold spaces. rewrite length_replicate. cbn [length]. lia.
  - unfold separator_parts. rewrite (lookup_map_list _ _ _ _ Hlook). reflexivity.
Qed.

Lemma table_column_widths_witness :
  exists w,
    arr_get (columnWidths (build [[text_cell (str "A"); text_cell (str "*a" ++ [LF] ++ str "b*")];
                                  [text_cell (str "long text"); text_cell (str "x")]])) 1
    = Some w /\
    length (simplifiedContent (str "x")) <= w /\
    (forall opts,
        prettyPrint opts = true -> includes (str "x") [LF] = false ->
        length (formatCell opts
                  (columnWidths (build [[text_cell (str "A");
                                         text_cell (str "*a" ++ [LF] ++ str "b*")];
                                        [text_cell (str "long text"); text_cell (str "x")]]))
                  (str "x") 1)
        + length (visible (str "x"))
        = length (str "x") + (w + 2)) /\
    separator (columnWidths (build [[text_cell (str "A");
                                     text_cell (str "*a" ++ [LF] ++ str "b*")];
                                    [text_cell (str "long text"); text_cell (str "x")]]))
    = join [PIPE]
        (separator_parts
           (columnWidths (build [[text_cell (str "A");
                                  text_cell (str "*a" ++ [LF] ++ str "b*")];
                                 [text_cell (str "long text"); text_cell (str "x")]]))) /\
    separator_parts
      (columnWidths (build [[text_cell (str "A");
                             text_cell (str "*a" ++ [LF] ++ str "b*")];
                            [text_cell (str "long text"); text_cell (str "x")]])) !! 1
    = Some (replicate (Nat.max 3 w + 2) (ch "-")).
Proof.
  apply (table_column_widths
           [[text_cell (str "A"); text_cell (str "*a" ++ [LF] ++ str "b*")];
            [text_cell (str "long text"); text_cell (str "x")]]
           1 1 [str "long text"; str "x"] (str "x")).
  - vm_compute. reflexivity.
  - reflexivity.
Defined.

(** X5. A table without rows is printed as the fall-back text. With one row
    or more the first row of the matrix is printed as the header row (also
    when the table has no [thead], and when the row has no cell), then the
    separator, then the other rows. *)
Theorem table_fallback (opts : tableFormatting) (node : table_node) :
  (rows_of node = [] ->
   table_replacement opts node
   = [LF; LF] ++ str "| No data available |" ++ [LF] ++ str "|-|" ++ [LF]) /\
  (rows_of node <> [] ->
   exists header data,
     tableMatrix (build (rows_of node)) = Some header :: data /\
     table_replacement opts node
     = [LF; LF] ++ format_row opts (columnWidths (build (rows_of node))) header
         ++ [PIPE] ++ separator (columnWidths (build (rows_of node))) ++ [PIPE; LF]
         ++ format_data opts (columnWidths (build (rows_of node))) data).
Proof.
  unfold table_replacement. split.
  - intros ->. reflexivity.
  - intros Hne. destruct (rows_of node) as [|r rows]; [congruence|].
    assert (H0 : exists cells, arr_get (tableMatrix (build (r :: rows))) 0 = Some cells).
    { unfold build.
      destruct (place_rows_extends (r :: rows) 0
                  {| tableMatrix := replicate (length (r :: rows)) (Some []);
                     columnWidths := [] |} 0 [] eq_refl) as (cells & Hc & _).
      exists cells. exact Hc. }
    destruct H0 as [cells Hcells]. unfold render.
    unfold arr_get in Hcells.
    destruct (tableMatrix (build (r :: rows))) as [|[header|] data]; try discriminate Hcells.
    exists header, data. split; reflexivity.
Qed.

Lemma table_fallback_witness :
  table_replacement defaultFormatting
    {| thead_row := None; tbody_rows := None; all_tr := [] |}
  = [LF; LF] ++ str "| No data available |" ++ [LF] ++ str "|-|" ++ [LF] /\
  exists header data,
    tableMatrix (build (rows_of {| thead_row := None; tbody_rows := None;
                                   all_tr := [[]] |}))
    = Some header :: data /\
    table_replacement defaultFormatting
      {| thead_row := None; tbody_rows := None; all_tr := [[]] |}
    = [LF; LF]
        ++ format_row defaultFormatting
             (columnWidths (build (rows_of {| thead_row := None; tbody_rows := None;
                                              all_tr := [[]] |}))) header
        ++ [PIPE]
        ++ separator (columnWidths (build (rows_of {| thead_row := None;
                                                      tbody_rows := None;
                                                      all_tr := [[]] |})))
        ++ [PIPE; LF]
        ++ format_data defaultFormatting
             (columnWidths (build (rows_of {| thead_row := None; tbody_rows := None;
                                              all_tr := [[]] |}))) data.
Proof.
  split.
  - apply (proj1 (table_fallback defaultFormatting
                    {| thead_row := None; tbody_rows := None; all_tr := [] |})).
    reflexivity.
  - apply (proj2 (table_fallback defaultFormatting
                    {| thead_row := None; tbody_rows := None; all_tr := [[]] |})).
    discriminate.
Defined.

End Table.

(** ** The image manifest

    [imageList] of the [images] rule of [turndown] and of the [customImages]
    rule of [orgdown]: an object used as a map from the source of an image to
    the name of the file it is saved as.  The two rules hold the same loop
    for it.  The [images] rule uses the [src] attribute as it is written for
    the key and compares with [!=]; this is the rule modelled below.  The
    [customImages] rule uses the result of [validateUri] for the key, a text
    that holds a colon or a slash and so is no name of [Object.prototype], and compares
    with [!==], which on two strings is [!=]: for such keys the definitions
    below are that rule as well. *)

Module Manifest.
Import Scan.

Definition DOT : N := 46.
Definition SLASH : N := 47.

(** [s.indexOf(c)] and [s.lastIndexOf(c)] for one character; -1 when there is
    none. *)
Fixpoint indexOf (c : N) (s : jsstring) : Z :=
  match s with
  | [] => (-1)%Z
  | x :: s' =>
      if (x =? c)%N then 0%Z
      else let i := indexOf c s' in
           if (i <? 0)%Z then (-1)%Z else (i + 1)%Z
  end.

Definition lastIndexOf (c : N) (s : jsstring) : Z :=
  let i := indexOf c (rev s) in
  if (i <? 0)%Z then (-1)%Z else (Z.of_nat (length s) - 1 - i)%Z.

(** [s.indexOf(sub)] for a text *)
Fixpoint indexOf_text (sub s : jsstring) : Z :=
  if startsWith sub s then 0%Z
  else match s with
       | [] => (-1)%Z
       | _ :: s' =>
           let i := indexOf_text sub s' in
           if (i <? 0)%Z then (-1)%Z else (i + 1)%Z
       end.

(** [s.substring(a, b)] for integers: a negative index counts as 0. *)
Definition substringZ (a b : Z) (s : jsstring) : jsstring :=
  substring (Z.to_nat a) (Z.to_nat b) s.

(** What [getImageFilename] reads of the options. *)
Record options := {
  imagePrefix : jsval;
  disallowedChars : jsval
}.

(** [getImageFilename(src, options, false)]: the rules call it with
    [prependFilePath] off. *)
Definition getImageFilename (src : jsstring) (opts : options) : jsstring :=
  let slashPos := lastIndexOf SLASH src in
  let queryPos := indexOf (ch "?") src in
  let filename :=
    substringZ (slashPos + 1)
      (if (0 <? queryPos)%Z then queryPos else Z.of_nat (length src)) src in
  let imagePrefix := match imagePrefix opts with
                     | JStr p => p
                     | _ => []
                     end in
  let filename :=
    if includes filename (str ";base64,")
    then str "image." ++ substringZ 0 (indexOf (ch ";") filename) filename
    else filename in
  let extension := substringZ (lastIndexOf DOT filename) (Z.of_nat (length filename)) filename in
  let filename := if eqs extension filename then filename ++ str ".idunno" else filename in
  let filename :=
    match FileName.generateValidFileName (JStr filename) (disallowedChars opts) with
    | JStr f => f
    | _ => []
    end in
  imagePrefix ++ filename.

(** The first value of [filename] in [getImageFilename]: the text between the
    last slash and the query string. *)
Definition path_filename (src : jsstring) : jsstring :=
  substringZ (lastIndexOf SLASH src + 1)
    (if (0 <? indexOf (ch "?") src)%Z then indexOf (ch "?") src
     else Z.of_nat (length src)) src.

(** [Object.values(imageList).includes(imageFilename)] *)
Definition values_include (imageList : gmap jsstring jsstring) (imageFilename : jsstring)
    : bool :=
  existsb (eqs imageFilename) (snd <$> map_to_list imageList).

(** [parts.splice(start, deleteCount, item)]; a negative [start] counts from
    the end. *)
Definition splice (start : Z) (deleteCount : nat) (item : jsstring)
    (parts : list jsstring) : list jsstring :=
  let len := length parts in
  let s := if (start <? 0)%Z then Z.to_nat (Z.max (Z.of_nat len + start) 0)
           else Nat.min (Z.to_nat start) len in
  take s parts ++ item :: drop (s + deleteCount) parts.

(** The counter [i] as it is printed by [join]. *)
Definition number (i : N) : jsstring := str (pretty i).

(** The body of the [while] loop: the next name to try. *)
Definition next_name (i : N) (imageFilename : jsstring) : jsstring :=
  let parts := split DOT imageFilename in
  let parts :=
    if (i =? 1)%N then splice (Z.of_nat (length parts) - 1) 0 (number i) parts
    else splice (Z.of_nat (length parts) - 2) 1 (number i) parts in
  join [DOT] parts.

(** [while (Object.values(imageList).includes(imageFilename)) { ... }], run
    for at most [fuel] rounds; [None] when the rounds are used up. *)
Fixpoint disambiguate (fuel : nat) (imageList : gmap jsstring jsstring) (i : N)
    (imageFilename : jsstring) : option jsstring :=
  if values_include imageList imageFilename then
    match fuel with
    | 0 => None
    | S fuel' => disambiguate fuel' imageList (i + 1) (next_name i imageFilename)
    end
  else Some imageFilename.

(** *** [imageList], a plain object

    [let imageList = {}] makes an object whose prototype is
    [Object.prototype]. The map holds its own properties, which are the
    entries that [Object.values] lists. A read [imageList[src]] of a name that
    is no own property goes to the prototype: for [__proto__] it gives the
    prototype itself, an object that compares as the text
    [[object Object]]; for the name of a method ([constructor], [toString],
    ...) it gives a function, which compares as its source text; for any
    other name it gives [undefined]. *)

Definition PROTO : jsstring := str "__proto__".

(** An example of the methods of [Object.prototype] with their texts, as one
    engine prints them; [constructor] is the function [Object]. *)
Definition example_prototype (name : jsstring) : option jsstring :=
  if eqs name (str "constructor")
  then Some (str "function Object() { [native code] }")
  else if existsb (eqs name)
       [str "__defineGetter__"; str "__defineSetter__";
        str "hasOwnProperty"; str "__lookupGetter__"; str "__lookupSetter__";
        str "isPrototypeOf"; str "propertyIsEnumerable"; str "toString";
        str "valueOf"; str "toLocaleString"]
  then Some (str "function " ++ name ++ str "() { [native code] }")
  else None.

Section WithPrototype.

(** The text of the function that [Object.prototype] has under a name, for
    the names of its methods; it depends on the engine. *)
Context (Object_prototype : jsstring -> option jsstring).

(** [!imageList[src] || imageList[src] != imageFilename]. An object or a
    function is truthy, and [!=] compares its text with the string. *)
Definition needs_entry (imageList : gmap jsstring jsstring) (src imageFilename : jsstring)
    : bool :=
  match imageList !! src with
  | Some v => negb (truthy (JStr v)) || negb (eqs v imageFilename)
  | None =>
      if eqs src PROTO then negb (eqs (str "[object Object]") imageFilename)
      else match Object_prototype src with
           | Some text => negb (eqs text imageFilename)
           | None => true
           end
  end.

(** [imageList[src] = imageFilename]. The name [__proto__], when it is no own
    property, goes to the setter of [Object.prototype], which does nothing
    with a string; any other assignment makes or changes an own property. *)
Definition set_property (imageList : gmap jsstring jsstring) (src imageFilename : jsstring)
    : gmap jsstring jsstring :=
  match imageList !! src with
  | None => if eqs src PROTO then imageList else <[src := imageFilename]> imageList
  | Some _ => <[src := imageFilename]> imageList
  end.

(** What the rule does to [imageList] for one image.  The loop is given one
    round more than the manifest has entries, which is enough
    ([disambiguate_returns] below). *)
Definition add_image (imageList : gmap jsstring jsstring) (src imageFilename : jsstring)
    : option (gmap jsstring jsstring) :=
  if needs_entry imageList src imageFilename then
    imageFilename ← disambiguate (S (size imageList)) imageList 1 imageFilename;
    Some (set_property imageList src imageFilename)
  else Some imageList.

(** The images of a document, in the order in which the rule meets them, each
    with the file name computed for it. *)
Fixpoint add_images (imageList : gmap jsstring jsstring)
    (images : list (jsstring * jsstring)) : option (gmap jsstring jsstring) :=
  match images with
  | [] => Some imageList
  | (src, imageFilename) :: images' =>
      imageList ← add_image imageList src imageFilename;
      add_images imageList images'
  end.

(** [let imageList = {}] and the images of the document. *)
Definition build_manifest (images : list (jsstring * jsstring))
    : option (gmap jsstring jsstring) :=
  add_images ∅ images.

(** The manifest of a conversion: every image with the name
    [getImageFilename] computes from its source. *)
Definition manifest_of (opts : options) (srcs : list jsstring)
    : option (gmap jsstring jsstring) :=
  build_manifest (map (fun src => (src, getImageFilename src opts)) srcs).

(** No two sources have the same file name. *)
Definition unique_names (imageList : gmap jsstring jsstring) : Prop :=
  forall src1 src2 name,
    imageList !! src1 = Some name -> imageList !! src2 = Some name -> src1 = src2.

(** The name tried in round [k] (from 1 on), for a first name whose parts are
    [init ++ [last]]. *)
Definition candidate (init : list jsstring) (last : jsstring) (k : N) : jsstring :=
  join [DOT] (init ++ [number k; last]).

(** What [join] puts before the last parts. *)
Definition joined_before (init : list jsstring) : jsstring :=
  match init with
  | [] => []
  | _ :: _ => join [DOT] init ++ [DOT]
  end.

(** *** [split] and [join] *)

Lemma split_nonempty c s : split c s <> [].
Proof.
  destruct s as [|x s]; simpl; [discriminate|].
  destruct (x =? c)%N; [discriminate|].
  destruct (split c s); discriminate.
Qed.

Lemma split_app c (a b : jsstring) :
  split c (a ++ c :: b) = split c a ++ split c b.
Proof.
  induction a as [|x a IH]; simpl.
  - rewrite N.eqb_refl. reflexivity.
  - destruct (x =? c)%N; rewrite IH; [reflexivity|].
    pose proof (split_nonempty c a) as Hne.
    destruct (split c a) as [|p ps]; [congruence | reflexivity].
Qed.

Lemma split_free c (s : jsstring) :
  Forall (fun x => x <> c) s -> split c s = [s].
Proof.
  induction 1 as [|x s Hx Hs IH]; simpl; [reflexivity|].
  destruct (N.eqb_spec x c) as [E|_]; [contradiction|].
  rewrite IH. reflexivity.
Qed.

Lemma split_parts_free c (s : jsstring) :
  Forall (Forall (fun x => x <> c)) (split c s).
Proof.
  induction s as [|x s IH]; simpl.
  - repeat constructor.
  - destruct (N.eqb_spec x c) as [E|Hne].
    + constructor; [constructor | exact IH].
    + destruct (split c s) as [|p ps].
      * repeat constructor. exact Hne.
      * apply Forall_cons in IH as [Hp Hps].
        constructor; [constructor; assumption | exact Hps].
Qed.

Lemma join_cons sep (p q : jsstring) (rest : list jsstring) :
  join sep (p :: q :: rest) = p ++ sep ++ join sep (q :: rest).
Proof. reflexivity. Qed.

Lemma join_last sep (init : list jsstring) (tail : list jsstring) :
  tail <> [] ->
  join sep (init ++ tail)
  = match init with
    | [] => []
    | _ :: _ => join sep init ++ sep
    end ++ join sep tail.
Proof.
  intros Htail. induction init as [|p init IH]; [reflexivity|].
  destruct init as [|q init].
  - destruct tail as [|t tail]; [congruence|].
    cbn [app]. rewrite join_cons. cbn [join]. rewrite <- app_assoc. reflexivity.
  - change ((p :: q :: init) ++ tail) with (p :: q :: (init ++ tail)).
    rewrite !join_cons.
    change (q :: init ++ tail) with ((q :: init) ++ tail). rewrite IH.
    rewrite <- !app_assoc. reflexivity.
Qed.

Lemma split_join c (parts : list jsstring) :
  parts <> [] ->
  Forall (Forall (fun x => x <> c)) parts ->
  split c (join [c] parts) = parts.
Proof.
  intros Hne Hfree. revert Hne.
  induction Hfree as [|p parts Hp Hparts IH]; intros Hne;
    [exfalso; apply Hne; reflexivity|].
  destruct parts as [|q parts].
  - simpl. apply split_free. exact Hp.
  - rewrite join_cons. cbn [app]. rewrite split_app.
    rewrite split_free by exact Hp. cbn [app]. f_equal.
    apply IH. discriminate.
Qed.

Lemma join_split c (s : jsstring) : join [c] (split c s) = s.
Proof.
  induction s as [|x s IH]; [reflexivity|]. cbn [split].
  pose proof (split_nonempty c s) as Hne.
  destruct (split c s) as [|p ps]; [exfalso; apply Hne; reflexivity|].
  destruct (N.eqb_spec x c) as [->|_].
  - rewrite join_cons. cbn [app]. f_equal. exact IH.
  - destruct ps as [|q ps].
    + cbn [join] in *. f_equal. exact IH.
    + rewrite join_cons in *. cbn [app]. f_equal. exact IH.
Qed.

Lemma split_init_last c (s : jsstring) :
  exists init last, split c s = init ++ [last].
Proof.
  destruct (exists_last (split_nonempty c s)) as (init & last & H).
  exists init, last. exact H.
Qed.

(** *** The printed counter *)

Lemma pretty_N_go_no_dot (x : N) :
  forall s : string,
    Forall (fun a => a <> "."%char) (list_ascii_of_string s) ->
    Forall (fun a => a <> "."%char) (list_ascii_of_string (pretty_N_go x s)).
Proof.
  induction x as [x IH] using (well_founded_induction N.lt_wf_0). intros s Hs.
  destruct (N.eq_dec x 0%N) as [->|Hx].
  - rewrite pretty_N_go_0. exact Hs.
  - rewrite pretty_N_go_step by lia.
    apply IH; [apply N.div_lt; lia|].
    simpl. constructor; [|exact Hs].
    unfold pretty_N_char. repeat case_match; discriminate.
Qed.

Lemma number_free (i : N) : Forall (fun x => x <> DOT) (number i).
Proof.
  unfold number, str.
  assert (H : Forall (fun a => a <> "."%char) (list_ascii_of_string (pretty i))).
  { unfold pretty, pretty_N. case_decide; [repeat constructor; discriminate|].
    apply pretty_N_go_no_dot. constructor. }
  apply List.Forall_map. eapply List.Forall_impl; [|exact H].
  intros a Ha E. apply Ha.
  rewrite <- (ascii_N_embedding a), E. reflexivity.
Qed.

Lemma str_inj (s t : string) : str s = str t -> s = t.
Proof.
  unfold str. intros H.
  rewrite <- (string_of_list_ascii_of_string s), <- (string_of_list_ascii_of_string t).
  f_equal. revert H. generalize (list_ascii_of_string s) (list_ascii_of_string t).
  induction l as [|a l IH]; intros [|b l'] H; try discriminate; [reflexivity|].
  simpl in H. injection H as Hab H. f_equal; [|apply IH; exact H].
  rewrite <- (ascii_N_embedding a), <- (ascii_N_embedding b), Hab. reflexivity.
Qed.

Lemma number_inj (i j : N) : number i = number j -> i = j.
Proof. intros H. apply str_inj in H. apply (inj pretty) in H. exact H. Qed.

(** *** The names that are tried *)

Lemma candidate_eq init last k :
  candidate init last k = joined_before init ++ number k ++ [DOT] ++ last.
Proof.
  unfold candidate, joined_before.
  rewrite join_last by discriminate. reflexivity.
Qed.

Lemma candidate_inj init last k1 k2 :
  candidate init last k1 = candidate init last k2 -> k1 = k2.
Proof.
  rewrite !candidate_eq. intros H.
  apply app_inv_head in H. rewrite !app_assoc in H.
  apply app_inv_tail in H. apply app_inv_tail in H.
  apply number_inj. exact H.
Qed.

Lemma take_app_exact {A} (l k : list A) : take (length l) (l ++ k) = l.
Proof. rewrite take_app_length. reflexivity. Qed.

Lemma next_name_first (f : jsstring) init last :
  split DOT f = init ++ [last] ->
  next_name 1 f = candidate init last 1.
Proof.
  intros H. unfold next_name, candidate. rewrite H. cbn [N.eqb Pos.eqb].
  unfold splice. rewrite length_app. cbn [length].
  destruct (Z.ltb_spec (Z.of_nat (length init + 1) - 1) 0) as [Hlt|_]; [lia|].
  replace (Nat.min (Z.to_nat (Z.of_nat (length init + 1) - 1)) (length init + 1))
    with (length init) by lia.
  rewrite take_app_exact, Nat.add_0_r, drop_app_length. reflexivity.
Qed.

Lemma next_name_later (i : N) init (x last : jsstring) :
  i <> 1%N ->
  Forall (Forall (fun c => c <> DOT)) (init ++ [x; last]) ->
  next_name i (join [DOT] (init ++ [x; last])) = candidate init last i.
Proof.
  intros Hi Hfree. unfold next_name, candidate.
  rewrite split_join; [|destruct init; discriminate | exact Hfree].
  destruct (N.eqb_spec i 1) as [E|_]; [contradiction|].
  unfold splice. rewrite length_app. cbn [length].
  destruct (Z.ltb_spec (Z.of_nat (length init + 2) - 2) 0) as [Hlt|_]; [lia|].
  replace (Nat.min (Z.to_nat (Z.of_nat (length init + 2) - 2)) (length init + 2))
    with (length init) by lia.
  rewrite take_app_exact.
  replace (length init + 1) with (length init + length [x]) by reflexivity.
  change (init ++ [x; last]) with (init ++ [x] ++ [last]) at 1.
  rewrite drop_app_add, drop_app_length. reflexivity.
Qed.

(** *** The loop *)

Lemma values_include_spec (m : gmap jsstring jsstring) (f : jsstring) :
  values_include m f = true <-> exists src, m !! src = Some f.
Proof.
  unfold values_include. rewrite existsb_exists. split.
  - intros (x & Hin & Heq). unfold eqs in Heq. apply bool_decide_eq_true in Heq.
    subst x. apply list_elem_of_In, list_elem_of_fmap in Hin as ([src v] & Hv & Hin).
    simpl in Hv. subst v. apply elem_of_map_to_list in Hin. exists src. exact Hin.
  - intros (src & H). exists f. split.
    + apply list_elem_of_In, list_elem_of_fmap. exists (src, f). split; [reflexivity|].
      apply elem_of_map_to_list. exact H.
    + unfold eqs. apply bool_decide_eq_true. reflexivity.
Qed.

Lemma values_include_elem (m : gmap jsstring jsstring) (f : jsstring) :
  values_include m f = true -> f ∈ (snd <$> map_to_list m).
Proof.
  intros H. apply values_include_spec in H as (src & H).
  apply list_elem_of_fmap. exists (src, f). split; [reflexivity|].
  apply elem_of_map_to_list. exact H.
Qed.

Lemma disambiguate_sound (m : gmap jsstring jsstring) :
  forall fuel i f name,
    disambiguate fuel m i f = Some name -> values_include m name = false.
Proof.
  induction fuel as [|fuel IH]; intros i f name H; cbn [disambiguate] in H;
    destruct (values_include m f) eqn:E; try discriminate H.
  - injection H as <-. exact E.
  - eapply IH. exact H.
  - injection H as <-. exact E.
Qed.

Section Candidates.
Context (m : gmap jsstring jsstring) (init : list jsstring) (last : jsstring).
Context (Hfree : Forall (Forall (fun c => c <> DOT)) (init ++ [last])).

Lemma candidate_parts_free (i : N) :
  Forall (Forall (fun c => c <> DOT)) (init ++ [number i; last]).
Proof using Hfree.
  apply Forall_app in Hfree as [Hinit Hlast].
  apply Forall_app. split; [exact Hinit|].
  constructor; [apply number_free | exact Hlast].
Qed.

Lemma disambiguate_candidates_none :
  forall fuel i,
    (1 <= i)%N ->
    disambiguate fuel m (i + 1) (candidate init last i) = None ->
    forall k, (i <= k <= i + N.of_nat fuel)%N ->
              values_include m (candidate init last k) = true.
Proof using Hfree.
  induction fuel as [|fuel IH]; intros i Hi H k Hk; cbn [disambiguate] in H;
    destruct (values_include m (candidate init last i)) eqn:E; try discriminate H.
  - replace k with i by lia. exact E.
  - unfold candidate in H at 1.
    rewrite next_name_later in H by (try lia; apply candidate_parts_free).
    destruct (N.eq_dec k i) as [->|Hne]; [exact E|].
    apply (IH (i + 1)%N); [lia | exact H | lia].
Qed.

Lemma disambiguate_candidates_some :
  forall fuel i name,
    (1 <= i)%N ->
    disambiguate fuel m (i + 1) (candidate init last i) = Some name ->
    exists k, (1 <= k)%N /\ name = candidate init last k.
Proof using Hfree.
  induction fuel as [|fuel IH]; intros i name Hi H; cbn [disambiguate] in H;
    destruct (values_include m (candidate init last i)) eqn:E; try discriminate H.
  - injection H as <-. exists i. split; [exact Hi | reflexivity].
  - unfold candidate in H at 1.
    rewrite next_name_later in H by (try lia; apply candidate_parts_free).
    apply (IH (i + 1)%N); [lia | exact H].
  - injection H as <-. exists i. split; [exact Hi | reflexivity].
Qed.

(** More names than the manifest has entries cannot all be in it. *)
Lemma candidates_not_all_included :
  ~ (forall k, (1 <= k <= 1 + N.of_nat (size m))%N ->
               values_include m (candidate init last k) = true).
Proof using Type.
  intros Hall.
  set (names := (fun k => candidate init last (N.of_nat k)) <$> seq 1 (S (size m))).
  assert (Hnodup : NoDup names).
  { apply NoDup_fmap_2_strong; [|apply NoDup_seq].
    intros a b _ _ Hab. apply candidate_inj in Hab. lia. }
  assert (Hsub : names ⊆+ (snd <$> map_to_list m)).
  { apply NoDup_submseteq; [exact Hnodup|].
    intros x Hx. apply list_elem_of_fmap in Hx as (k & -> & Hk).
    apply elem_of_seq in Hk. apply values_include_elem, Hall. lia. }
  apply submseteq_length in Hsub.
  unfold names in Hsub.
  rewrite !length_fmap, length_seq, length_map_to_list in Hsub. lia.
Qed.

End Candidates.

(** The loop ends within the rounds it is given. *)
Lemma disambiguate_returns (m : gmap jsstring jsstring) (f : jsstring) :
  exists name,
    disambiguate (S (size m)) m 1 f = Some name /\
    values_include m name = false.
Proof.
  destruct (disambiguate (S (size m)) m 1 f) as [name|] eqn:E.
  - exists name. split; [reflexivity|]. eapply disambiguate_sound. exact E.
  - exfalso. cbn [disambiguate] in E.
    destruct (values_include m f); [|discriminate E].
    destruct (split_init_last DOT f) as (init & last & Hsplit).
    rewrite (next_name_first f init last Hsplit) in E.
    assert (Hfree : Forall (Forall (fun c => c <> DOT)) (init ++ [last])).
    { rewrite <- Hsplit. apply split_parts_free. }
    apply (candidates_not_all_included m init last).
    apply (disambiguate_candidates_none m init last Hfree (size m) 1%N);
      [lia | exact E].
Qed.

(** *** The manifest *)

Lemma unique_names_insert (m : gmap jsstring jsstring) (src name : jsstring) :
  unique_names m -> values_include m name = false ->
  unique_names (<[src := name]> m).
Proof.
  intros Hm Hnew src1 src2 v H1 H2.
  assert (Hfresh : forall s, m !! s = Some name -> False).
  { intros s Hs. assert (values_include m name = true) as Ht
      by (apply values_include_spec; exists s; exact Hs).
    congruence. }
  destruct (decide (src = src1)) as [<-|Hne1], (decide (src = src2)) as [<-|Hne2];
    [reflexivity | | |].
  - rewrite lookup_insert_eq in H1. injection H1 as <-.
    rewrite lookup_insert_ne in H2 by exact Hne2. destruct (Hfresh _ H2).
  - rewrite lookup_insert_eq in H2. injection H2 as <-.
    rewrite lookup_insert_ne in H1 by exact Hne1. destruct (Hfresh _ H1).
  - rewrite lookup_insert_ne in H1 by exact Hne1.
    rewrite lookup_insert_ne in H2 by exact Hne2.
    eapply Hm; eassumption.
Qed.

Lemma set_property_other (m : gmap jsstring jsstring) (src name other : jsstring) :
  other <> src -> set_property m src name !! other = m !! other.
Proof.
  intros Hne. unfold set_property.
  destruct (m !! src); [|destruct (eqs src PROTO); [reflexivity|]];
    apply lookup_insert_ne; congruence.
Qed.

Lemma set_property_unique (m : gmap jsstring jsstring) (src name : jsstring) :
  unique_names m -> values_include m name = false ->
  unique_names (set_property m src name).
Proof.
  intros Hm Hnew. unfold set_property.
  destruct (m !! src); [|destruct (eqs src PROTO); [exact Hm|]];
    apply unique_names_insert; assumption.
Qed.

Lemma add_image_unique (m : gmap jsstring jsstring) (src f : jsstring) :
  unique_names m ->
  exists m', add_image m src f = Some m' /\ unique_names m'.
Proof.
  intros Hm. unfold add_image. destruct (needs_entry m src f).
  - destruct (disambiguate_returns m f) as (name & -> & Hnew). simpl.
    eexists. split; [reflexivity|]. apply set_property_unique; assumption.
  - exists m. split; [reflexivity | exact Hm].
Qed.

Lemma add_images_unique (images : list (jsstring * jsstring)) :
  forall m : gmap jsstring jsstring,
    unique_names m ->
    exists m', add_images m images = Some m' /\ unique_names m'.
Proof.
  induction images as [|[src f] images IH]; intros m Hm.
  - exists m. split; [reflexivity | exact Hm].
  - cbn [add_images].
    destruct (add_image_unique m src f Hm) as (m1 & -> & Hm1). simpl.
    apply IH. exact Hm1.
Qed.

(** No assignment of the rule makes an own property [__proto__]. *)
Lemma add_image_no_proto (m m' : gmap jsstring jsstring) (src f : jsstring) :
  m !! PROTO = None -> add_image m src f = Some m' -> m' !! PROTO = None.
Proof.
  intros Hm. unfold add_image. destruct (needs_entry m src f).
  - destruct (disambiguate (S (size m)) m 1 f) as [name|]; cbn [mbind option_bind];
      [|discriminate].
    intros [= <-]. unfold set_property.
    destruct (decide (src = PROTO)) as [->|Hne].
    + rewrite Hm. unfold eqs. rewrite bool_decide_eq_true_2 by reflexivity. exact Hm.
    + destruct (m !! src); [|destruct (eqs src PROTO); [exact Hm|]];
        (rewrite lookup_insert_ne by exact Hne); exact Hm.
  - intros [= <-]. exact Hm.
Qed.

Lemma add_images_no_proto (images : list (jsstring * jsstring)) :
  forall m m' : gmap jsstring jsstring,
    m !! PROTO = None -> add_images m images = Some m' -> m' !! PROTO = None.
Proof.
  induction images as [|[src f] images IH]; intros m m' Hm H.
  - injection H as <-. exact Hm.
  - cbn [add_images] in H.
    destruct (add_image m src f) as [m1|] eqn:E; [|discriminate H].
    cbn [mbind option_bind] in H.
    eapply IH; [|exact H]. eapply add_image_no_proto; eassumption.
Qed.

(** Whatever images a document holds, the rule ends for each of them, and
    the manifest gives two different sources two different file names. *)
Lemma manifest_names_distinct (images : list (jsstring * jsstring)) :
  exists imageList,
    build_manifest images = Some imageList /\
    forall src1 src2 name1 name2,
      src1 <> src2 ->
      imageList !! src1 = Some name1 -> imageList !! src2 = Some name2 ->
      name1 <> name2.
Proof.
  destruct (add_images_unique images ∅) as (m & Hm & Huniq).
  { intros s1 s2 v H. rewrite lookup_empty in H. discriminate H. }
  exists m. split; [exact Hm|].
  intros src1 src2 name1 name2 Hne H1 H2 ->.
  apply Hne. eapply Huniq; eassumption.
Qed.

Lemma endsWith_app (p a : jsstring) : endsWith p (a ++ p) = true.
Proof. unfold endsWith. rewrite rev_app_distr. apply startsWith_app. Qed.

Lemma values_include_empty (f : jsstring) :
  values_include (∅ : gmap jsstring jsstring) f = false.
Proof. unfold values_include. rewrite map_to_list_empty. reflexivity. Qed.

Lemma values_include_singleton (src name f : jsstring) :
  values_include ({[src := name]} : gmap jsstring jsstring) f = eqs f name.
Proof.
  unfold values_include. rewrite map_to_list_singleton. simpl.
  apply orb_false_r.
Qed.

(** *** More on the manifest *)

(** X6. What the rule does for one image leaves the names of the other images
    as they are. *)
Theorem add_image_keeps_others (m m' : gmap jsstring jsstring) (src f other : jsstring) :
  add_image m src f = Some m' -> other <> src -> m' !! other = m !! other.
Proof.
  unfold add_image. intros H Hne.
  destruct (needs_entry m src f).
  - destruct (disambiguate (S (size m)) m 1 f) as [name|]; [|discriminate H].
    injection H as <-. apply set_property_other. exact Hne.
  - injection H as <-. reflexivity.
Qed.

(** X7. An image that is met again. When the manifest holds for it the name that
    is computed, nothing changes. When it holds another name (the image was
    renamed at its first place because the computed name was taken), the image
    is renamed once more: it gets a name that no image had, its earlier name
    included. *)
Theorem add_image_again (m : gmap jsstring jsstring) (src f v : jsstring) :
  m !! src = Some v ->
  (v = f -> f <> [] -> add_image m src f = Some m) /\
  (v <> f ->
   exists name,
     add_image m src f = Some (<[src := name]> m) /\
     name <> v /\ values_include m name = false).
Proof.
  intros Hv. split.
  - intros -> Hf. unfold add_image, needs_entry. rewrite Hv.
    destruct f as [|c f]; [congruence|].
    unfold eqs. rewrite bool_decide_eq_true_2 by reflexivity. reflexivity.
  - intros Hne. unfold add_image, needs_entry. rewrite Hv.
    unfold eqs. rewrite bool_decide_eq_false_2 by exact Hne.
    rewrite orb_true_r.
    destruct (disambiguate_returns m f) as (name & -> & Hnew).
    exists name. split; [unfold set_property; rewrite Hv; reflexivity|].
    split; [|exact Hnew].
    intros ->.
    assert (values_include m v = true) as Ht
      by (apply values_include_spec; exists src; exact Hv).
    congruence.
Qed.

Lemma last_app_singleton {A} (l : list A) (x d : A) : List.last (l ++ [x]) d = x.
Proof. apply last_last. Qed.

Lemma disambiguate_last_part (m : gmap jsstring jsstring) (f name : jsstring) :
  disambiguate (S (size m)) m 1 f = Some name ->
  List.last (split DOT name) [] = List.last (split DOT f) [].
Proof.
  intros H. cbn [disambiguate] in H.
  destruct (values_include m f); [|injection H as <-; reflexivity].
  destruct (split_init_last DOT f) as (init & last & Hsplit).
  rewrite (next_name_first f init last Hsplit) in H.
  assert (Hfree : Forall (Forall (fun c => c <> DOT)) (init ++ [last])).
  { rewrite <- Hsplit. apply split_parts_free. }
  destruct (disambiguate_candidates_some m init last Hfree (size m) 1%N name
              ltac:(lia) H) as (k & _ & ->).
  unfold candidate.
  rewrite split_join;
    [|destruct init; discriminate | apply candidate_parts_free; exact Hfree].
  rewrite Hsplit.
  change (init ++ [number k; last]) with (init ++ [number k] ++ [last]).
  rewrite app_assoc, !last_app_singleton. reflexivity.
Qed.

(** X8. The name an image gets in the manifest has the last part (what follows
    the last dot: the extension) of the name computed for it. *)
Theorem add_image_keeps_extension (m m' : gmap jsstring jsstring) (src f name : jsstring) :
  add_image m src f = Some m' ->
  m' !! src = Some name ->
  (m !! src = Some name /\ name = f) \/
  List.last (split DOT name) [] = List.last (split DOT f) [].
Proof.
  unfold add_image. intros H Hname.
  destruct (needs_entry m src f) eqn:E.
  - destruct (disambiguate (S (size m)) m 1 f) as [n|] eqn:Hd; [|discriminate H].
    injection H as <-. unfold set_property in Hname.
    assert (Hins : <[src := n]> m !! src = Some name -> n = name).
    { rewrite lookup_insert_eq. congruence. }
    destruct (m !! src) as [v|] eqn:Hv.
    + apply Hins in Hname as <-. right. eapply disambiguate_last_part. exact Hd.
    + destruct (eqs src PROTO).
      * rewrite Hv in Hname. discriminate Hname.
      * apply Hins in Hname as <-. right. eapply disambiguate_last_part. exact Hd.
  - injection H as <-. left. split; [exact Hname|].
    unfold needs_entry in E. rewrite Hname in E.
    apply orb_false_iff in E as [_ E]. apply negb_false_iff in E.
    unfold eqs in E. apply bool_decide_eq_true in E. exact E.
Qed.

End WithPrototype.

(** C5 fails for an image whose [src] attribute is the text [__proto__]. The
    rule computes a name for it and says that it adds it to the list of the
    images to download; the assignment [imageList[src] = imageFilename] on the
    plain object stores nothing under that name, so the image never has a
    value in the manifest, whatever the document. Of two images that compute
    the same name, [http://a/__proto__] and [__proto__], the manifest holds
    the first only; with [http://b/__proto__] as the second image it holds
    both, with the two names of the claim. *)
Theorem proto_image_not_recorded :
  (forall Object_prototype (images : list (jsstring * jsstring)),
      exists imageList,
        build_manifest Object_prototype images = Some imageList /\
        imageList !! PROTO = None) /\
  (let opts := {| imagePrefix := JNull; disallowedChars := JNull |} in
   getImageFilename (str "http://a/__proto__") opts = str "__proto__.idunno" /\
   getImageFilename (str "__proto__") opts = str "__proto__.idunno" /\
   getImageFilename (str "http://b/__proto__") opts = str "__proto__.idunno" /\
   manifest_of example_prototype opts [str "http://a/__proto__"; str "__proto__"]
   = Some {[str "http://a/__proto__" := str "__proto__.idunno"]} /\
   manifest_of example_prototype opts [str "http://a/__proto__"; str "http://b/__proto__"]
   = Some (<[str "http://b/__proto__" := str "__proto__.1.idunno"]>
             {[str "http://a/__proto__" := str "__proto__.idunno"]})).
Proof.
  split.
  - intros P images.
    destruct (manifest_names_distinct P images) as (m & Hm & _).
    exists m. split; [exact Hm|].
    eapply add_images_no_proto; [|exact Hm]. apply lookup_empty.
  - cbv zeta. repeat split; vm_compute; reflexivity.
Qed.

Lemma add_image_keeps_others_witness :
  (<[str "b" := str "p.1.png"]> {[str "a" := str "p.png"]} : gmap jsstring jsstring)
    !! str "a"
  = ({[str "a" := str "p.png"]} : gmap jsstring jsstring) !! str "a".
Proof.
  apply (add_image_keeps_others example_prototype {[str "a" := str "p.png"]}
           (<[str "b" := str "p.1.png"]> {[str "a" := str "p.png"]})
           (str "b") (str "p.png") (str "a")).
  - vm_compute. reflexivity.
  - discriminate.
Defined.

Lemma add_image_again_witness :
  add_image example_prototype {[str "a" := str "p.png"]} (str "a") (str "p.png")
  = Some {[str "a" := str "p.png"]} /\
  exists name,
    add_image example_prototype (<[str "b" := str "p.1.png"]> {[str "a" := str "p.png"]})
      (str "b") (str "p.png")
    = Some (<[str "b" := name]>
              (<[str "b" := str "p.1.png"]> {[str "a" := str "p.png"]})) /\
    name <> str "p.1.png" /\
    values_include (<[str "b" := str "p.1.png"]> {[str "a" := str "p.png"]}) name = false.
Proof.
  split.
  - apply (proj1 (add_image_again example_prototype {[str "a" := str "p.png"]}
                    (str "a") (str "p.png") (str "p.png")
                    ltac:(apply lookup_singleton_eq))).
    + reflexivity.
    + discriminate.
  - apply (proj2 (add_image_again example_prototype
                    (<[str "b" := str "p.1.png"]> {[str "a" := str "p.png"]})
                    (str "b") (str "p.png") (str "p.1.png")
                    ltac:(apply lookup_insert_eq))).
    discriminate.
Defined.

Lemma add_image_keeps_extension_witness :
  (({[str "a" := str "p.png"]} : gmap jsstring jsstring) !! str "b"
   = Some (str "p.1.png") /\ str "p.1.png" = str "p.png") \/
  List.last (split DOT (str "p.1.png")) [] = List.last (split DOT (str "p.png")) [].
Proof.
  apply (add_image_keeps_extension example_prototype {[str "a" := str "p.png"]}
           (<[str "b" := str "p.1.png"]> {[str "a" := str "p.png"]})
           (str "b") (str "p.png") (str "p.1.png")).
  - vm_compute. reflexivity.
  - apply lookup_insert_eq.
Defined.

Lemma indexOf_absent (c : N) (s : jsstring) :
  Forall (fun x => x <> c) s -> indexOf c s = (-1)%Z.
Proof.
  induction 1 as [|x s Hx _ IH]; [reflexivity|].
  cbn [indexOf]. apply N.eqb_neq in Hx. rewrite Hx, IH. reflexivity.
Qed.

Lemma indexOf_first (c : N) (a b : jsstring) :
  Forall (fun x => x <> c) a -> indexOf c (a ++ c :: b) = Z.of_nat (length a).
Proof.
  induction 1 as [|x a Hx _ IH].
  - cbn [app indexOf]. rewrite N.eqb_refl. reflexivity.
  - cbn [app indexOf length]. apply N.eqb_neq in Hx. rewrite Hx, IH.
    destruct (Z.ltb_spec (Z.of_nat (length a)) 0); lia.
Qed.

Lemma lastIndexOf_last (c : N) (a b : jsstring) :
  Forall (fun x => x <> c) b -> lastIndexOf c (a ++ c :: b) = Z.of_nat (length a).
Proof.
  intros Hb. unfold lastIndexOf.
  rewrite rev_app_distr. cbn [rev]. rewrite <- app_assoc. cbn [app].
  rewrite indexOf_first by (apply Forall_rev; exact Hb).
  rewrite length_rev, length_app. cbn [length].
  destruct (Z.ltb_spec (Z.of_nat (length b)) 0); lia.
Qed.

Lemma substring_middle (x n y : jsstring) :
  substring (length x) (length x + length n) (x ++ n ++ y) = n /\
  substring (length x + length n) (length x) (x ++ n ++ y) = n.
Proof.
  unfold substring. rewrite !length_app.
  replace (Nat.min (length x) (length x + (length n + length y))) with (length x) by lia.
  replace (Nat.min (length x + length n) (length x + (length n + length y)))
    with (length x + length n) by lia.
  replace (Nat.max (length x) (length x + length n)) with (length x + length n) by lia.
  replace (Nat.max (length x + length n) (length x)) with (length x + length n) by lia.
  replace (Nat.min (length x) (length x + length n)) with (length x) by lia.
  replace (Nat.min (length x + length n) (length x)) with (length x) by lia.
  replace (length x + length n - length x) with (length n) by lia.
  rewrite drop_app_length, take_app_length. split; reflexivity.
Qed.

Lemma getImageFilename_path_filename (src1 src2 : jsstring) (opts : options) :
  path_filename src1 = path_filename src2 ->
  getImageFilename src1 opts = getImageFilename src2 opts.
Proof.
  intros H. unfold getImageFilename. cbv zeta.
  change (substringZ (lastIndexOf SLASH src1 + 1)
    (if (0 <? indexOf (ch "?") src1)%Z then indexOf (ch "?") src1
     else Z.of_nat (length src1)) src1) with (path_filename src1).
  change (substringZ (lastIndexOf SLASH src2 + 1)
    (if (0 <? indexOf (ch "?") src2)%Z then indexOf (ch "?") src2
     else Z.of_nat (length src2)) src2) with (path_filename src2).
  rewrite H. reflexivity.
Qed.

Lemma path_filename_plain (p n : jsstring) :
  Forall (fun c => c <> ch "?") p -> Forall (fun c => c <> SLASH) n ->
  Forall (fun c => c <> ch "?") n ->
  path_filename (p ++ [SLASH] ++ n) = n.
Proof.
  intros Hp Hn Hq. unfold path_filename.
  cbn [app]. rewrite (lastIndexOf_last SLASH p n Hn).
  rewrite indexOf_absent.
  2:{ apply Forall_app. split; [exact Hp|]. constructor; [discriminate|exact Hq]. }
  cbn [Z.ltb Z.compare]. unfold substringZ.
  replace (Z.to_nat (Z.of_nat (length p) + 1)) with (length (p ++ [SLASH]))
    by (rewrite length_app; cbn [length]; lia).
  replace (Z.to_nat (Z.of_nat (length (p ++ SLASH :: n))))
    with (length (p ++ [SLASH]) + length n)
    by (rewrite !length_app; cbn [length]; lia).
  pose proof (substring_middle (p ++ [SLASH]) n []) as [H _].
  rewrite app_nil_r, <- app_assoc in H. exact H.
Qed.

Lemma path_filename_query (p n q : jsstring) :
  Forall (fun c => c <> ch "?") p -> Forall (fun c => c <> SLASH) n ->
  Forall (fun c => c <> ch "?") n -> Forall (fun c => c <> SLASH) q ->
  path_filename (p ++ [SLASH] ++ n ++ [ch "?"] ++ q) = n.
Proof.
  intros Hp Hn Hq Hs. unfold path_filename.
  cbn [app]. rewrite (lastIndexOf_last SLASH p (n ++ ch "?" :: q)).
  2:{ apply Forall_app. split; [exact Hn|]. constructor; [discriminate|exact Hs]. }
  replace (p ++ SLASH :: n ++ ch "?" :: q) with ((p ++ SLASH :: n) ++ ch "?" :: q)
    by (rewrite <- app_assoc; reflexivity).
  rewrite indexOf_first.
  2:{ apply Forall_app. split; [exact Hp|]. constructor; [discriminate|exact Hq]. }
  replace (0 <? Z.of_nat (length (p ++ SLASH :: n)))%Z with true.
  2:{ symmetry. apply Z.ltb_lt. rewrite length_app. cbn [length]. lia. }
  unfold substringZ.
  replace (Z.to_nat (Z.of_nat (length p) + 1)) with (length (p ++ [SLASH]))
    by (rewrite length_app; cbn [length]; lia).
  replace (Z.to_nat (Z.of_nat (length (p ++ SLASH :: n))))
    with (length (p ++ [SLASH]) + length n)
    by (rewrite !length_app; cbn [length]; lia).
  pose proof (substring_middle (p ++ [SLASH]) n (ch "?" :: q)) as [H _].
  rewrite <- !app_assoc in H. rewrite <- !app_assoc. exact H.
Qed.

(** X9. A query string without a slash has no effect on the name of an image:
    the name is computed from the last segment of the path. *)
Theorem getImageFilename_ignores_query (p n q : jsstring) (opts : options) :
  Forall (fun c => c <> ch "?") p ->
  Forall (fun c => c <> SLASH) n -> Forall (fun c => c <> ch "?") n ->
  Forall (fun c => c <> SLASH) q ->
  getImageFilename (p ++ [SLASH] ++ n ++ [ch "?"] ++ q) opts
  = getImageFilename (p ++ [SLASH] ++ n) opts.
Proof.
  intros Hp Hn Hq Hs. apply getImageFilename_path_filename.
  rewrite path_filename_query, path_filename_plain by assumption. reflexivity.
Qed.

Lemma getImageFilename_ignores_query_witness :
  getImageFilename (str "http://a/b" ++ [SLASH] ++ str "pic.png" ++ [ch "?"] ++ str "v=1")
    {| imagePrefix := JStr (str "img/"); disallowedChars := JStr (str "[]#^") |}
  = getImageFilename (str "http://a/b" ++ [SLASH] ++ str "pic.png")
      {| imagePrefix := JStr (str "img/"); disallowedChars := JStr (str "[]#^") |}.
Proof.
  apply (getImageFilename_ignores_query (str "http://a/b") (str "pic.png") (str "v=1"));
    repeat constructor; discriminate.
Defined.

Lemma path_filename_slash_in_query (p q r : jsstring) :
  p <> [] -> Forall (fun c => c <> ch "?") p -> Forall (fun c => c <> SLASH) r ->
  path_filename (p ++ [ch "?"] ++ q ++ [SLASH] ++ r) = [ch "?"] ++ q ++ [SLASH].
Proof.
  intros Hne Hp Hr. unfold path_filename.
  cbn [app]. rewrite (indexOf_first (ch "?") p _ Hp).
  replace (p ++ ch "?" :: q ++ SLASH :: r) with ((p ++ ch "?" :: q) ++ SLASH :: r)
    by (rewrite <- app_assoc; reflexivity).
  rewrite (lastIndexOf_last SLASH _ r Hr).
  replace (0 <? Z.of_nat (length p))%Z with true.
  2:{ symmetry. apply Z.ltb_lt. destruct p; [congruence|]. cbn [length]. lia. }
  unfold substringZ.
  replace (Z.to_nat (Z.of_nat (length (p ++ ch "?" :: q)) + 1))
    with (length p + length (ch "?" :: q ++ [SLASH]))
    by (rewrite !length_app; cbn [length]; rewrite length_app; cbn [length]; lia).
  rewrite Nat2Z.id.
  pose proof (substring_middle p (ch "?" :: q ++ [SLASH]) r) as [_ H].
  rewrite <- app_assoc. cbn [app] in H |- *. rewrite <- app_assoc in H. exact H.
Qed.

(** X10. A query string that holds a slash: [lastIndexOf] finds that slash, the two
    indices given to [substring] are swapped, and the name is computed from
    the query string up to its last slash. Neither the path before the question
    mark nor the text after the last slash has an effect on the name. *)
Theorem getImageFilename_slash_in_query (p p' q r r' : jsstring) (opts : options) :
  p <> [] -> p' <> [] ->
  Forall (fun c => c <> ch "?") p -> Forall (fun c => c <> ch "?") p' ->
  Forall (fun c => c <> SLASH) r -> Forall (fun c => c <> SLASH) r' ->
  getImageFilename (p ++ [ch "?"] ++ q ++ [SLASH] ++ r) opts
  = getImageFilename (p' ++ [ch "?"] ++ q ++ [SLASH] ++ r') opts.
Proof.
  intros. apply getImageFilename_path_filename.
  rewrite !path_filename_slash_in_query by assumption. reflexivity.
Qed.

Lemma getImageFilename_slash_in_query_witness :
  getImageFilename (str "http://a/x.png" ++ [ch "?"] ++ str "u=" ++ [SLASH] ++ str "1")
    {| imagePrefix := JNull; disallowedChars := JNull |}
  = getImageFilename (str "http://b/y.gif" ++ [ch "?"] ++ str "u=" ++ [SLASH] ++ str "2")
      {| imagePrefix := JNull; disallowedChars := JNull |}.
Proof.
  apply (getImageFilename_slash_in_query (str "http://a/x.png") (str "http://b/y.gif")
           (str "u=") (str "1") (str "2"));
    try discriminate; repeat constructor; discriminate.
Defined.

(** The name of an image is the image prefix of the options followed by a
    file name without any forbidden character. *)
Lemma getImageFilename_shape (src : jsstring) (opts : options) :
  exists name,
    getImageFilename src opts
    = match imagePrefix opts with JStr p => p | _ => [] end ++ name /\
    Forall (fun c => FileName.forbidden c = false) name.
Proof.
  unfold getImageFilename. cbv zeta.
  match goal with
  | |- context [FileName.generateValidFileName (JStr ?f) ?d] =>
      generalize f; intros filename
  end.
  eexists. split; [reflexivity|].
  unfold FileName.generateValidFileName.
  destruct (negb (truthy (JStr filename))) eqn:E.
  - destruct filename; [constructor|discriminate E].
  - apply FileName.valid_name_clean.
Qed.

End Manifest.

(** ** Fenced code blocks

    Two rules of [turndown] print a fenced block: [fencedCodeBlock], for a
    [pre] whose first child is a [code], and [pre], for every other [pre],
    which calls [convertToFencedCodeBlock]. *)

Module Fence.

(** [function repeat(character, count) { return Array(count + 1).join(character) }] *)
Definition repeat (character : jsstring) (count : nat) : jsstring :=
  concat (replicate count character).

(** [options.fence.charAt(0)] *)
Definition charAt0 (s : jsstring) : jsstring := take 1 s.

(** The [replacement] of the [fencedCodeBlock] rule.  [language] and [code]
    are [processedCode.language] and [processedCode.code]. *)
Definition fencedCodeBlock (fence language code : jsstring) : jsstring :=
  let fenceChar := charAt0 fence in
  let fenceSize := 3 in
  let fence := repeat fenceChar fenceSize in
  [LF; LF] ++ fence ++ language ++ [LF] ++ code ++ [LF] ++ fence ++ [LF; LF].

Fixpoint run_of (c : N) (s : jsstring) : nat :=
  match s with
  | x :: s' => if (x =? c)%N then S (run_of c s') else 0
  | [] => 0
  end.

(** The lengths of the matches that the loop
    [while ((match = fenceInCodeRegex.exec(code)))] goes through, for
    [new RegExp('^' + fenceChar + '{3,}', 'gm')]: at the start of a line, a
    run of at least three fence characters (a backquote or a tilde, which
    stand for themselves in the expression).  [line_start] tells whether the
    current place is the start of the text or follows a line terminator;
    [skip] counts what is left of the current match. *)
Fixpoint fence_matches (c : N) (line_start : bool) (skip : nat) (code : jsstring)
    : list nat :=
  match code with
  | [] => []
  | x :: code' =>
      match skip with
      | S k => fence_matches c (is_line_terminator x) k code'
      | O =>
          if line_start && (3 <=? run_of c code)
          then run_of c code
                 :: fence_matches c (is_line_terminator x) (run_of c code - 1) code'
          else fence_matches c (is_line_terminator x) 0 code'
      end
  end.

(** [if (match[0].length >= fenceSize) fenceSize = match[0].length + 1],
    from [var fenceSize = 3] on. *)
Definition fence_size (c : N) (code : jsstring) : nat :=
  fold_left (fun fenceSize len => if fenceSize <=? len then len + 1 else fenceSize)
            (fence_matches c true 0 code) 3.

(** [code.replace(/\n$/, '')] *)
Definition chomp (code : jsstring) : jsstring :=
  match rev code with
  | x :: r => if (x =? LF)%N then rev r else code
  | [] => code
  end.

(** [convertToFencedCodeBlock], for a fence that starts with the character
    [c]; [language] is what the [id] of the node gives and [code] the text
    taken from the node. *)
Definition convertToFencedCodeBlock (c : N) (language code : jsstring) : jsstring :=
  let fence := repeat [c] (fence_size c code) in
  [LF; LF] ++ fence ++ language ++ [LF] ++ chomp code ++ [LF] ++ fence ++ [LF; LF].

Definition BACKQUOTE : N := 96.

(** A body that holds a fence of its own. *)
Definition fenced_body : jsstring :=
  str "```" ++ [LF] ++ str "x" ++ [LF] ++ str "```".

Definition TILDE : N := 126.

(** A place of the text where a line starts: the start of the text, or right
    after a line terminator. *)
Definition line_start (pre : jsstring) : Prop :=
  pre = [] \/ exists pre' t, pre = pre' ++ [t] /\ is_line_terminator t = true.

Lemma fold_fence_size_ge (lens : list nat) :
  forall size, size <= fold_left
                         (fun fenceSize len => if fenceSize <=? len then len + 1 else fenceSize)
                         lens size.
Proof.
  induction lens as [|len lens IH]; intros size; simpl; [lia|].
  destruct (Nat.leb_spec size len); [|apply IH].
  etransitivity; [|apply IH]. lia.
Qed.

Lemma fold_fence_size_gt (lens : list nat) :
  forall size, Forall (fun len => len < fold_left
                         (fun fenceSize len => if fenceSize <=? len then len + 1 else fenceSize)
                         lens size) lens.
Proof.
  induction lens as [|len lens IH]; intros size; simpl; constructor; [|apply IH].
  eapply Nat.lt_le_trans; [|apply fold_fence_size_ge].
  destruct (Nat.leb_spec size len); lia.
Qed.

(** [convertToFencedCodeBlock] does what the specification says: its fence is
    at least three long and longer than every run of three or more fence
    characters that starts a line of the body. *)
Lemma convertToFencedCodeBlock_fence (c : N) (code : jsstring) :
  3 <= fence_size c code /\
  Forall (fun len => len < fence_size c code) (fence_matches c true 0 code).
Proof.
  unfold fence_size. split; [apply fold_fence_size_ge | apply fold_fence_size_gt].
Qed.

(** The fence of the [fencedCodeBlock] rule is three characters long whatever
    the body holds. *)
Lemma fencedCodeBlock_fence (fence language code : jsstring) :
  fencedCodeBlock fence language code
  = [LF; LF] ++ repeat (charAt0 fence) 3 ++ language ++ [LF] ++ code ++ [LF]
      ++ repeat (charAt0 fence) 3 ++ [LF; LF].
Proof. reflexivity. Qed.

(** C6 fails for the [fencedCodeBlock] rule. For a body that holds a run of
    three backquotes at the start of a line, the rule prints a fence of three
    backquotes, where the claim asks for four; [convertToFencedCodeBlock]
    prints four for the same body. *)
Theorem fencedCodeBlock_fence_collides :
  fence_matches BACKQUOTE true 0 fenced_body = [3; 3] /\
  fencedCodeBlock (str "```") [] fenced_body
  = [LF; LF] ++ str "```" ++ [LF] ++ fenced_body ++ [LF] ++ str "```" ++ [LF; LF] /\
  convertToFencedCodeBlock BACKQUOTE [] fenced_body
  = [LF; LF] ++ str "````" ++ [LF] ++ fenced_body ++ [LF] ++ str "````" ++ [LF; LF].
Proof. repeat split. Qed.

Lemma run_of_pos (c x : N) (s : jsstring) :
  0 < run_of c (x :: s) -> x = c /\ run_of c (x :: s) = S (run_of c s).
Proof.
  cbn [run_of]. destruct (N.eqb_spec x c); [split; [assumption|reflexivity]|lia].
Qed.

(** The loop meets every run of three or more at the start of a line. *)
Lemma fence_matches_complete (c : N) (code : jsstring) :
  is_line_terminator c = false ->
  forall (ls : bool) (skip : nat) (pre rest : jsstring),
    code = pre ++ rest ->
    skip <= run_of c code ->
    (pre = [] -> ls = true /\ skip = 0) ->
    (pre <> [] -> exists pre' t, pre = pre' ++ [t] /\ is_line_terminator t = true) ->
    3 <= run_of c rest ->
    In (run_of c rest) (fence_matches c ls skip code).
Proof.
  intros Hc. induction code as [|x code IH]; intros ls skip pre rest Hcode Hskip Hnil Hcons Hrun.
  - destruct pre; [|discriminate Hcode]. cbn [app] in Hcode. subst rest.
    cbn [run_of] in Hrun. lia.
  - destruct pre as [|y pre].
    + cbn [app] in Hcode. subst rest. destruct (Hnil eq_refl) as [-> ->].
      cbn [fence_matches andb].
      destruct (Nat.leb_spec 3 (run_of c (x :: code))); [left; reflexivity|lia].
    + cbn [app] in Hcode. injection Hcode as <- Hcode.
      destruct (Hcons ltac:(discriminate)) as (pre' & t & Hpre & Ht).
      assert (Hpre2 : pre <> [] ->
                      exists pre' t, pre = pre' ++ [t] /\ is_line_terminator t = true).
      { intros Hne. destruct pre' as [|z pre'].
        - cbn [app] in Hpre. injection Hpre as _ Hpre. congruence.
        - cbn [app] in Hpre. injection Hpre as _ Hpre. eauto. }
      assert (Hx : pre = [] -> is_line_terminator x = true).
      { intros ->. destruct pre' as [|z pre'].
        - cbn [app] in Hpre. injection Hpre as ->. exact Ht.
        - cbn [app] in Hpre. injection Hpre as _ Hpre. destruct pre'; discriminate Hpre. }
      cbn [fence_matches]. destruct skip as [|k].
      * destruct (ls && (3 <=? run_of c (x :: code))) eqn:E.
        -- right. apply andb_true_iff in E as [_ E]. apply Nat.leb_le in E.
           destruct (run_of_pos c x code ltac:(lia)) as [-> Hrun'].
           apply (IH _ _ pre rest Hcode); [lia| |exact Hpre2|exact Hrun].
           intros Hp. rewrite (Hx Hp) in Hc. discriminate Hc.
        -- apply (IH _ _ pre rest Hcode); [lia| |exact Hpre2|exact Hrun].
           intros Hp. split; [exact (Hx Hp)|reflexivity].
      * destruct (run_of_pos c x code ltac:(lia)) as [-> Hrun'].
        apply (IH _ _ pre rest Hcode); [lia| |exact Hpre2|exact Hrun].
        intros Hp. rewrite (Hx Hp) in Hc. discriminate Hc.
Qed.

(** Each match of the loop is a run of three or more at the start of a line. *)
Lemma fence_matches_sound (c : N) (code : jsstring) :
  forall (ls : bool) (skip n : nat),
    In n (fence_matches c ls skip code) ->
    exists pre rest,
      code = pre ++ rest /\ run_of c rest = n /\ 3 <= n /\
      ((pre = [] /\ ls = true) \/
       exists pre' t, pre = pre' ++ [t] /\ is_line_terminator t = true).
Proof.
  induction code as [|x code IH]; intros ls skip n Hin; [destruct Hin|].
  assert (Hrec : forall k, In n (fence_matches c (is_line_terminator x) k code) ->
            exists pre rest,
              x :: code = pre ++ rest /\ run_of c rest = n /\ 3 <= n /\
              ((pre = [] /\ ls = true) \/
               exists pre' t, pre = pre' ++ [t] /\ is_line_terminator t = true)).
  { intros k Hk. destruct (IH _ _ _ Hk) as (pre & rest & -> & Hn & H3 & Hpre).
    exists (x :: pre), rest. split; [reflexivity|]. split; [exact Hn|].
    split; [exact H3|]. right.
    destruct Hpre as [[-> Hx]|(pre' & t & -> & Ht)].
    - exists [], x. split; [reflexivity|exact Hx].
    - exists (x :: pre'), t. split; [reflexivity|exact Ht]. }
  cbn [fence_matches] in Hin. destruct skip as [|k]; [|exact (Hrec _ Hin)].
  destruct (ls && (3 <=? run_of c (x :: code))) eqn:E; [|exact (Hrec _ Hin)].
  destruct Hin as [<-|Hin]; [|exact (Hrec _ Hin)].
  apply andb_true_iff in E as [-> E]. apply Nat.leb_le in E.
  exists [], (x :: code). split; [reflexivity|]. split; [reflexivity|].
  split; [exact E|]. left. split; reflexivity.
Qed.

Lemma fold_fence_size_exact (lens : list nat) :
  forall size,
    let r := fold_left
               (fun fenceSize len => if fenceSize <=? len then len + 1 else fenceSize)
               lens size in
    r = size \/ exists len, In len lens /\ r = len + 1.
Proof.
  induction lens as [|len lens IH]; intros size; cbn [fold_left]; [left; reflexivity|].
  cbv zeta in IH.
  destruct (Nat.leb_spec size len).
  - right. destruct (IH (len + 1)) as [->|(l & Hl & ->)].
    + exists len. split; [left; reflexivity|reflexivity].
    + exists l. split; [right; exact Hl|reflexivity].
  - destruct (IH size) as [->|(l & Hl & ->)]; [left; reflexivity|].
    right. exists l. split; [right; exact Hl|reflexivity].
Qed.

Lemma fence_matches_inside_line (c : N) (s : jsstring) :
  Forall (fun x => is_line_terminator x = false) s ->
  fence_matches c false 0 s = [].
Proof.
  induction 1 as [|x s Hx _ IH]; [reflexivity|].
  cbn [fence_matches andb]. rewrite Hx. exact IH.
Qed.

(** X11. The fence that [convertToFencedCodeBlock] prints for a backquote or a
    tilde is longer than every run of the fence character that stands at the
    very start of a line of the code; and it is no longer than that needs: it
    is three long, or one longer than a run at the start of some line.  Only
    the start of a line is looked at: a run behind a space is not counted,
    however long it is. *)
Theorem convertToFencedCodeBlock_fence_fits (c : N) (code : jsstring) :
  c = BACKQUOTE \/ c = TILDE ->
  (forall pre rest, code = pre ++ rest -> line_start pre ->
                    run_of c rest < fence_size c code) /\
  (fence_size c code = 3 \/
   exists pre rest, code = pre ++ rest /\ line_start pre /\
                    fence_size c code = run_of c rest + 1) /\
  (forall k, fence_size c ([SPACE] ++ replicate k c) = 3).
Proof.
  intros Hc.
  assert (Hlt : is_line_terminator c = false) by (destruct Hc as [->| ->]; reflexivity).
  assert (Hsp : (SPACE =? c)%N = false) by (destruct Hc as [->| ->]; reflexivity).
  destruct (convertToFencedCodeBlock_fence c code) as [H3 Hall].
  split; [|split].
  3:{ intros k. unfold fence_size. cbn [app fence_matches run_of andb].
      rewrite Hsp. cbn [Nat.leb andb is_line_terminator].
      change (is_line_terminator SPACE) with false.
      rewrite fence_matches_inside_line; [reflexivity|].
      apply Forall_replicate. exact Hlt. }
  - intros pre rest Hcode Hstart.
    destruct (Nat.lt_ge_cases (run_of c rest) 3) as [?|Hrun]; [lia|].
    pose proof (fence_matches_complete c code Hlt true 0 pre rest Hcode ltac:(lia)) as Hin.
    eapply (proj1 (List.Forall_forall _ _) Hall). apply Hin.
    + intros _. split; reflexivity.
    + intros Hne. destruct Hstart as [->|H]; [congruence|exact H].
    + exact Hrun.
  - unfold fence_size.
    destruct (fold_fence_size_exact (fence_matches c true 0 code) 3) as [H|(len & Hin & H)];
      [left; exact H|right].
    destruct (fence_matches_sound c code true 0 len Hin) as (pre & rest & Hcode & Hn & _ & Hpre).
    exists pre, rest. split; [exact Hcode|]. split.
    + destruct Hpre as [[-> _]|Hp]; [left; reflexivity|right; exact Hp].
    + rewrite Hn. exact H.
Qed.

Lemma convertToFencedCodeBlock_fence_fits_witness :
  (forall pre rest, fenced_body = pre ++ rest -> line_start pre ->
                    run_of BACKQUOTE rest < fence_size BACKQUOTE fenced_body) /\
  (fence_size BACKQUOTE fenced_body = 3 \/
   exists pre rest, fenced_body = pre ++ rest /\ line_start pre /\
                    fence_size BACKQUOTE fenced_body = run_of BACKQUOTE rest + 1) /\
  (forall k, fence_size BACKQUOTE ([SPACE] ++ replicate k BACKQUOTE) = 3).
Proof.
  apply (convertToFencedCodeBlock_fence_fits BACKQUOTE fenced_body).
  left. reflexivity.
Defined.

End Fence.

(** ** The bookkeeping of downloads in the service worker

    The three maps [activeDownloads], [markSnipDownloads] and [markSnipUrls]
    and the functions that write to them for the downloads of images:
    [handleImageDownloads], the [track-download-url] message,
    [handleDownloadComplete], and the listener [handleDownloadChange]. *)

Module Downloads.

(** The values of [markSnipDownloads] and [markSnipUrls]. *)
Record info := {
  filename : jsstring;
  isMarkdown : bool;
  isImage : bool;
  url : option jsstring
}.

Record tracking := {
  (** [activeDownloads]: identifier to URL *)
  activeDownloads : gmap Z jsstring;
  (** [markSnipDownloads]: identifier to record *)
  markSnipDownloads : gmap Z info;
  (** [markSnipUrls]: URL to record *)
  markSnipUrls : gmap jsstring info;
  (** the URLs of the [cleanup-blob-url] messages sent so far, last first *)
  cleanups : list jsstring
}.

Definition start : tracking :=
  {| activeDownloads := ∅; markSnipDownloads := ∅; markSnipUrls := ∅; cleanups := [] |}.

(** [delta.state.current] *)
Inductive download_state := in_progress | complete | interrupted.

(** The argument of the listener; [state] is [None] when the change is not a
    change of state. *)
Record delta := {
  id : Z;
  state : option download_state
}.

Definition terminal (d : delta) : bool :=
  match state d with
  | Some complete | Some interrupted => true
  | _ => false
  end.

(** The [if (url.startsWith('blob:chrome-extension://'))] with its message. *)
Definition cleanup_blob (u : jsstring) (sent : list jsstring) : list jsstring :=
  if startsWith (str "blob:chrome-extension://") u then u :: sent else sent.

(** The first [if] of [handleDownloadChange]. The branch for [complete] and
    the branch for [interrupted] hold the same statements. *)
Definition forget_download (d : delta) (st : tracking) : tracking :=
  match activeDownloads st !! id d with
  | Some u =>
      if terminal d then
        {| activeDownloads := delete (id d) (activeDownloads st);
           markSnipDownloads := delete (id d) (markSnipDownloads st);
           markSnipUrls := markSnipUrls st;
           cleanups := cleanup_blob u (cleanups st) |}
      else st
  | None => st
  end.

(** The second [if], under the comment that it also cleans up any remaining
    URL tracking. *)
Definition forget_url (d : delta) (st : tracking) : tracking :=
  match markSnipDownloads st !! id d with
  | Some downloadInfo =>
      match url downloadInfo with
      | Some u =>
          if truthy (JStr u) && bool_decide (is_Some (markSnipUrls st !! u))
          then {| activeDownloads := activeDownloads st;
                  markSnipDownloads := markSnipDownloads st;
                  markSnipUrls := delete u (markSnipUrls st);
                  cleanups := cleanups st |}
          else st
      | None => st
      end
  | None => st
  end.

Definition handleDownloadChange (d : delta) (st : tracking) : tracking :=
  forget_url d (forget_download d st).

(** The [track-download-url] message. *)
Definition track_download_url (u name : jsstring) (markdown image : bool)
    (st : tracking) : tracking :=
  {| activeDownloads := activeDownloads st;
     markSnipDownloads := markSnipDownloads st;
     markSnipUrls := <[u := {| filename := name; isMarkdown := markdown;
                               isImage := image; url := None |}]> (markSnipUrls st);
     cleanups := cleanups st |}.

(** [handleDownloadComplete]: [if (downloadId && url) activeDownloads.set(downloadId, url)] *)
Definition handleDownloadComplete (downloadId : Z) (u : jsstring) (st : tracking)
    : tracking :=
  if negb (downloadId =? 0)%Z && truthy (JStr u)
  then {| activeDownloads := <[downloadId := u]> (activeDownloads st);
          markSnipDownloads := markSnipDownloads st;
          markSnipUrls := markSnipUrls st;
          cleanups := cleanups st |}
  else st.

(** [destPath] and [adjustedDestPath] of [handleImageDownloads]. *)
Definition adjustedDestPath (mdClipsFolder title : jsstring) : jsstring :=
  let destPath :=
    mdClipsFolder
      ++ Manifest.substringZ 0 (Manifest.lastIndexOf Manifest.SLASH title) title in
  if truthy (JStr destPath) && negb (endsWith (str "/") destPath)
  then destPath ++ str "/" else destPath.

(** The body of the loop of [handleImageDownloads] for one image. [imgId] is
    what [browser.downloads.download] answers: the identifier of the download,
    or [None] when the call is rejected (the [catch] carries on with the next
    image). *)
Definition download_image (dest src name : jsstring) (imgId : option Z)
    (st : tracking) : tracking :=
  let fullImagePath := if truthy (JStr dest) then dest ++ name else name in
  let record := {| filename := fullImagePath; isMarkdown := false; isImage := true;
                   url := None |} in
  let blob := startsWith (str "blob:") src in
  let urls := if blob then <[src := record]> (markSnipUrls st) else markSnipUrls st in
  match imgId with
  | None =>
      {| activeDownloads := activeDownloads st;
         markSnipDownloads := markSnipDownloads st;
         markSnipUrls := urls;
         cleanups := cleanups st |}
  | Some imgId =>
      {| activeDownloads := <[imgId := src]> (activeDownloads st);
         markSnipDownloads :=
           if blob then markSnipDownloads st
           else <[imgId := {| filename := fullImagePath; isMarkdown := false;
                              isImage := true; url := Some src |}]>
                  (markSnipDownloads st);
         markSnipUrls := urls;
         cleanups := cleanups st |}
  end.

(** [handleImageDownloads]: the entries of [imageList] in order, each with the
    answer of the platform. *)
Definition handleImageDownloads (mdClipsFolder title : jsstring)
    (images : list (jsstring * jsstring * option Z)) (st : tracking) : tracking :=
  fold_left
    (fun st '(src, name, imgId) =>
       download_image (adjustedDestPath mdClipsFolder title) src name imgId st)
    images st.

(** *** The other functions that write the three maps *)

(** [downloadListener(id, url)]: what the call does to the maps; the function
    it returns is [handleChange] below. *)
Definition downloadListener (id0 : Z) (u : jsstring) (st : tracking) : tracking :=
  {| activeDownloads := <[id0 := u]> (activeDownloads st);
     markSnipDownloads := markSnipDownloads st;
     markSnipUrls := markSnipUrls st;
     cleanups := cleanups st |}.

(** The listener that [downloadListener(id, url)] returns. It looks at
    [complete] only and tests the URL it was made with. *)
Definition handleChange (id0 : Z) (u : jsstring) (d : delta) (st : tracking) : tracking :=
  if bool_decide (id d = id0)
     && match state d with Some complete => true | _ => false end
  then {| activeDownloads := delete id0 (activeDownloads st);
          markSnipDownloads := delete id0 (markSnipDownloads st);
          markSnipUrls := markSnipUrls st;
          cleanups := cleanup_blob u (cleanups st) |}
  else st.

(** [downloadItem] as [handleFilenameConflict] reads it *)
Record downloadItem := {
  item_id : Z;
  item_url : option jsstring
}.

(** [handleFilenameConflict(downloadItem, suggest)]: the file name given to
    [suggest], [None] for a call of [suggest] without argument. *)
Definition handleFilenameConflict (item : downloadItem) (st : tracking)
    : option jsstring :=
  let has := bool_decide (is_Some (markSnipDownloads st !! item_id item)) in
  let isMarkSnipDownload :=
    has || match item_url item with
           | Some u => truthy (JStr u) && startsWith (str "blob:") u
           | None => false
           end in
  if isMarkSnipDownload && has
  then filename <$> (markSnipDownloads st !! item_id item)
  else if isMarkSnipDownload then None
  else None.

(** The download of the Markdown file in [handleDownloadWithBlobUrl],
    [handleDownloadDirectly] and [downloadMarkdown]. Before the call of the
    platform: the record under the URL; the properties that the object does
    not have read as false. *)
Definition markdown_download_requested (u name : jsstring) (st : tracking) : tracking :=
  {| activeDownloads := activeDownloads st;
     markSnipDownloads := markSnipDownloads st;
     markSnipUrls := <[u := {| filename := name; isMarkdown := true;
                               isImage := false; url := None |}]> (markSnipUrls st);
     cleanups := cleanups st |}.

(** After the platform has answered with the identifier: the record moves from
    the URL to the identifier, and the listener is made. *)
Definition markdown_download_started (u : jsstring) (id0 : Z) (st : tracking) : tracking :=
  let st1 :=
    match markSnipUrls st !! u with
    | Some urlInfo =>
        {| activeDownloads := activeDownloads st;
           markSnipDownloads :=
             <[id0 := {| filename := filename urlInfo; isMarkdown := isMarkdown urlInfo;
                         isImage := isImage urlInfo; url := Some u |}]>
               (markSnipDownloads st);
           markSnipUrls := delete u (markSnipUrls st);
           cleanups := cleanups st |}
    | None => st
    end in
  downloadListener id0 u st1.

(** The body of the loop of [handleImageDownloadsDirectly] for one image. *)
Definition download_image_directly (dest src name : jsstring) (imgId : option Z)
    (st : tracking) : tracking :=
  let fullImagePath := if truthy (JStr dest) then dest ++ name else name in
  match imgId with
  | None => st
  | Some imgId =>
      downloadListener imgId src
        {| activeDownloads := activeDownloads st;
           markSnipDownloads :=
             <[imgId := {| filename := fullImagePath; isMarkdown := false;
                           isImage := true; url := Some src |}]> (markSnipDownloads st);
           markSnipUrls := markSnipUrls st;
           cleanups := cleanups st |}
  end.

Definition handleImageDownloadsDirectly (mdClipsFolder title : jsstring)
    (images : list (jsstring * jsstring * option Z)) (st : tracking) : tracking :=
  fold_left
    (fun st '(src, name, imgId) =>
       download_image_directly (adjustedDestPath mdClipsFolder title) src name imgId st)
    images st.

(** What can happen to the maps, one synchronous piece of code at a time. *)
Inductive event :=
  | track_url (u name : jsstring) (markdown image : bool)
  | download_complete (downloadId : Z) (u : jsstring)
  | changed (d : delta)
  | listener_changed (id0 : Z) (u : jsstring) (d : delta)
  | image_download (dest src name : jsstring) (imgId : option Z)
  | image_download_directly (dest src name : jsstring) (imgId : option Z)
  | markdown_requested (u name : jsstring)
  | markdown_started (u : jsstring) (id0 : Z).

Definition run (st : tracking) (e : event) : tracking :=
  match e with
  | track_url u name markdown image => track_download_url u name markdown image st
  | download_complete downloadId u => handleDownloadComplete downloadId u st
  | changed d => handleDownloadChange d st
  | listener_changed id0 u d => handleChange id0 u d st
  | image_download dest src name imgId => download_image dest src name imgId st
  | image_download_directly dest src name imgId =>
      download_image_directly dest src name imgId st
  | markdown_requested u name => markdown_download_requested u name st
  | markdown_started u id0 => markdown_download_started u id0 st
  end.

(** Every record of [markSnipDownloads] belongs to a download that
    [activeDownloads] tracks. *)
Definition tracked (st : tracking) : Prop :=
  forall i, is_Some (markSnipDownloads st !! i) -> is_Some (activeDownloads st !! i).

(** A terminal change of a download that [activeDownloads] knows removes it
    from the two maps that are keyed by the identifier. *)
Lemma handleDownloadChange_forgets_id (d : delta) (st : tracking) :
  terminal d = true ->
  is_Some (activeDownloads st !! id d) ->
  activeDownloads (handleDownloadChange d st) !! id d = None /\
  markSnipDownloads (handleDownloadChange d st) !! id d = None.
Proof.
  intros Hterm [u Hu]. unfold handleDownloadChange, forget_download.
  rewrite Hu, Hterm. unfold forget_url. cbn [markSnipDownloads].
  rewrite lookup_delete_eq. cbn [activeDownloads markSnipDownloads].
  split; apply lookup_delete_eq.
Qed.

(** It leaves [markSnipUrls] as it is: by the time the second [if] looks the
    download up in [markSnipDownloads], the first one has deleted it. *)
Lemma handleDownloadChange_keeps_urls (d : delta) (st : tracking) :
  terminal d = true ->
  is_Some (activeDownloads st !! id d) ->
  markSnipUrls (handleDownloadChange d st) = markSnipUrls st.
Proof.
  intros Hterm [u Hu]. unfold handleDownloadChange, forget_download.
  rewrite Hu, Hterm. unfold forget_url. cbn [markSnipDownloads].
  rewrite lookup_delete_eq. reflexivity.
Qed.

(** C7 fails for the record in [markSnipUrls]. An image with a blob URL is
    downloaded by [handleImageDownloads] and gets the identifier 7; when the
    download is complete, the listener takes it out of [activeDownloads] and
    [markSnipDownloads], and the record under its URL is still in
    [markSnipUrls]. *)
Theorem blob_image_url_record_stays :
  let src := str "blob:chrome-extension://abc/1" in
  let st := handleImageDownloads [] (str "page") [(src, str "page/img.png", Some 7%Z)] start in
  let st' := handleDownloadChange {| id := 7; state := Some complete |} st in
  activeDownloads st !! 7%Z = Some src /\
  activeDownloads st' !! 7%Z = None /\
  markSnipDownloads st' !! 7%Z = None /\
  markSnipUrls st' !! src
  = Some {| filename := str "page/img.png"; isMarkdown := false; isImage := true;
            url := None |} /\
  cleanups st' = [src].
Proof.
  intros src st st'.
  assert (Hst : activeDownloads st !! 7%Z = Some src) by (vm_compute; reflexivity).
  split; [exact Hst|].
  destruct (handleDownloadChange_forgets_id {| id := 7; state := Some complete |} st
              eq_refl (ex_intro _ _ Hst)) as [Ha Hm].
  split; [exact Ha|]. split; [exact Hm|].
  split.
  - unfold st'. rewrite handleDownloadChange_keeps_urls by (eauto || reflexivity).
    vm_compute. reflexivity.
  - vm_compute. reflexivity.
Qed.

(** *** The maps over the life of a download *)

Lemma forget_url_ids (d : delta) (st : tracking) :
  activeDownloads (forget_url d st) = activeDownloads st /\
  markSnipDownloads (forget_url d st) = markSnipDownloads st /\
  cleanups (forget_url d st) = cleanups st.
Proof.
  unfold forget_url.
  destruct (markSnipDownloads st !! id d) as [i|]; [|auto].
  destruct (url i) as [u|]; [|auto].
  destruct (truthy (JStr u) && bool_decide (is_Some (markSnipUrls st !! u))); auto.
Qed.

Lemma tracked_delete (i : Z) (a : gmap Z jsstring) (m : gmap Z info) (j : Z) :
  (forall k, is_Some (m !! k) -> is_Some (a !! k)) ->
  is_Some (delete i m !! j) -> is_Some (delete i a !! j).
Proof.
  intros H Hj. destruct (decide (j = i)) as [->|Hne].
  - rewrite lookup_delete_eq in Hj. destruct Hj as [? Hj]. discriminate Hj.
  - rewrite lookup_delete_ne in Hj by congruence.
    rewrite lookup_delete_ne by congruence. apply H, Hj.
Qed.

Lemma tracked_insert_active (i : Z) (u : jsstring) (a : gmap Z jsstring)
    (m : gmap Z info) (j : Z) :
  (forall k, is_Some (m !! k) -> is_Some (a !! k)) ->
  is_Some (m !! j) -> is_Some (<[i := u]> a !! j).
Proof.
  intros H Hj. destruct (decide (j = i)) as [->|Hne].
  - rewrite lookup_insert_eq. eauto.
  - rewrite lookup_insert_ne by congruence. apply H, Hj.
Qed.

Lemma tracked_insert_both (i : Z) (u : jsstring) (r : info) (a : gmap Z jsstring)
    (m : gmap Z info) (j : Z) :
  (forall k, is_Some (m !! k) -> is_Some (a !! k)) ->
  is_Some (<[i := r]> m !! j) -> is_Some (<[i := u]> a !! j).
Proof.
  intros H Hj. destruct (decide (j = i)) as [->|Hne].
  - rewrite lookup_insert_eq. eauto.
  - rewrite lookup_insert_ne in Hj by congruence.
    rewrite lookup_insert_ne by congruence. apply H, Hj.
Qed.

Lemma run_tracked (st : tracking) (e : event) : tracked st -> tracked (run st e).
Proof.
  intros H. destruct e as [u name md img|downloadId u|d|id0 u d|dest src name imgId
                          |dest src name imgId|u name|u id0]; cbn [run].
  - exact H.
  - unfold handleDownloadComplete.
    destruct (negb (downloadId =? 0)%Z && truthy (JStr u)); [|exact H].
    intros j Hj. cbn [activeDownloads markSnipDownloads] in *.
    eapply tracked_insert_active; eassumption.
  - unfold handleDownloadChange. intros j.
    destruct (forget_url_ids d (forget_download d st)) as (-> & -> & _).
    unfold forget_download.
    destruct (activeDownloads st !! id d); [|apply H].
    destruct (terminal d); [|apply H].
    cbn [activeDownloads markSnipDownloads]. apply tracked_delete, H.
  - unfold handleChange.
    destruct (bool_decide (id d = id0) && _); [|exact H].
    intros j. cbn [activeDownloads markSnipDownloads]. apply tracked_delete, H.
  - unfold download_image. destruct imgId as [imgId|]; [|exact H].
    intros j. cbn [activeDownloads markSnipDownloads].
    destruct (startsWith (str "blob:") src).
    + apply tracked_insert_active, H.
    + apply tracked_insert_both, H.
  - unfold download_image_directly. destruct imgId as [imgId|]; [|exact H].
    intros j. unfold downloadListener. cbn [activeDownloads markSnipDownloads].
    apply tracked_insert_both, H.
  - exact H.
  - unfold markdown_download_started, downloadListener. intros j.
    destruct (markSnipUrls st !! u); cbn [activeDownloads markSnipDownloads].
    + apply tracked_insert_both, H.
    + apply tracked_insert_active, H.
Qed.

Lemma reach_tracked (events : list event) (st : tracking) :
  tracked st -> tracked (fold_left run events st).
Proof.
  revert st. induction events as [|e events IH]; intros st H; [exact H|].
  cbn [fold_left]. apply IH, run_tracked, H.
Qed.

(** X12. In every state that the functions can reach from the empty maps, each
    file-name record belongs to a download whose end is awaited; so a terminal
    change of state leaves no file-name record under the identifier of the
    download, whichever function has started it. *)
Theorem records_never_outlive_downloads (events : list event) (d : delta) :
  let st := fold_left run events start in
  tracked st /\
  (terminal d = true -> markSnipDownloads (handleDownloadChange d st) !! id d = None).
Proof.
  intros st.
  assert (Ht : tracked st).
  { apply reach_tracked. intros i [r Hr]. cbn [start markSnipDownloads] in Hr.
    rewrite lookup_empty in Hr. discriminate Hr. }
  split; [exact Ht|]. intros Hterm.
  destruct (activeDownloads st !! id d) as [u|] eqn:E.
  - apply handleDownloadChange_forgets_id; [exact Hterm|eauto].
  - unfold handleDownloadChange.
    destruct (forget_url_ids d (forget_download d st)) as (_ & -> & _).
    unfold forget_download. rewrite E.
    destruct (markSnipDownloads st !! id d) as [r|] eqn:F; [|reflexivity].
    destruct (Ht (id d) (ex_intro _ r F)) as [u Hu]. congruence.
Qed.

Lemma records_never_outlive_downloads_witness :
  markSnipDownloads
    (handleDownloadChange {| id := 3; state := Some interrupted |}
       (fold_left run
          [markdown_requested (str "blob:u") (str "a.md");
           markdown_started (str "blob:u") 3%Z] start))
    !! 3%Z = None.
Proof.
  apply (proj2 (records_never_outlive_downloads
                  [markdown_requested (str "blob:u") (str "a.md");
                   markdown_started (str "blob:u") 3%Z]
                  {| id := 3; state := Some interrupted |})).
  reflexivity.
Defined.

(** X13. A change that is handled a second time does nothing: the maps stay as
    they are and no second clean-up message is sent. *)
Theorem handleDownloadChange_idempotent (d : delta) (st : tracking) :
  handleDownloadChange d (handleDownloadChange d st) = handleDownloadChange d st.
Proof.
  assert (Hurl : forall s, forget_url d (forget_url d s) = forget_url d s).
  { intros s. unfold forget_url at 2 3.
    destruct (markSnipDownloads s !! id d) as [r|] eqn:Hr.
    - destruct (url r) as [u|] eqn:Hu.
      + destruct (truthy (JStr u) && bool_decide (is_Some (markSnipUrls s !! u))) eqn:E.
        * unfold forget_url. cbn [markSnipDownloads markSnipUrls]. rewrite Hr, Hu.
          rewrite lookup_delete_eq.
          rewrite bool_decide_eq_false_2 by (intros [? H]; discriminate H).
          rewrite andb_false_r. reflexivity.
        * unfold forget_url. rewrite Hr, Hu, E. reflexivity.
      + unfold forget_url. rewrite Hr, Hu. reflexivity.
    - unfold forget_url. rewrite Hr. reflexivity. }
  unfold handleDownloadChange.
  assert (Hdl : forget_download d (forget_url d (forget_download d st))
                = forget_url d (forget_download d st)).
  { unfold forget_download at 1.
    destruct (forget_url_ids d (forget_download d st)) as (-> & _ & _).
    unfold forget_download at 1.
    destruct (activeDownloads st !! id d) as [u|] eqn:E.
    - destruct (terminal d) eqn:Hterm.
      + cbn [activeDownloads]. rewrite lookup_delete_eq. reflexivity.
      + rewrite E. reflexivity.
    - rewrite E. reflexivity. }
  rewrite Hdl. apply Hurl.
Qed.

(** X14. The two ways in which a Markdown file is downloaded. When the service
    worker starts the download itself ([handleDownloadWithBlobUrl],
    [handleDownloadDirectly], its [downloadMarkdown]), then once the platform
    has answered the record is under the identifier and no longer under the
    URL, and after the terminal change of state none of the three maps holds
    anything for the download. When the offscreen document starts it and tells
    the service worker with [track-download-url] and [download-complete], the
    terminal change takes the identifier out of [activeDownloads] and leaves
    the record under the URL in [markSnipUrls]. *)
Theorem markdown_download_records (st : tracking) (u name : jsstring) (d : delta) :
  terminal d = true ->
  (let st1 := markdown_download_started u (id d) (markdown_download_requested u name st) in
   let st2 := handleDownloadChange d st1 in
   (activeDownloads st1 !! id d = Some u /\
    (filename <$> markSnipDownloads st1 !! id d) = Some name /\
    markSnipUrls st1 !! u = None) /\
   (activeDownloads st2 !! id d = None /\
    markSnipDownloads st2 !! id d = None /\
    markSnipUrls st2 !! u = None)) /\
  (id d <> 0%Z -> u <> [] ->
   let st1 := handleDownloadComplete (id d) u (track_download_url u name true false st) in
   let st2 := handleDownloadChange d st1 in
   activeDownloads st1 !! id d = Some u /\
   activeDownloads st2 !! id d = None /\
   markSnipDownloads st2 !! id d = None /\
   markSnipUrls st2 !! u
   = Some {| filename := name; isMarkdown := true; isImage := false; url := None |}).
Proof.
  intros Hterm. split.
  - intros st1 st2.
    assert (H1 : activeDownloads st1 !! id d = Some u).
    { unfold st1, markdown_download_started, downloadListener.
      cbn [activeDownloads]. apply lookup_insert_eq. }
    assert (H3 : markSnipUrls st1 !! u = None).
    { unfold st1, markdown_download_started, markdown_download_requested, downloadListener.
      cbn [markSnipUrls]. rewrite lookup_insert_eq. cbn [markSnipUrls].
      apply lookup_delete_eq. }
    split; [split; [exact H1|split; [|exact H3]]|].
    + unfold st1, markdown_download_started, markdown_download_requested, downloadListener.
      cbn [markSnipUrls]. rewrite lookup_insert_eq. cbn [markSnipDownloads].
      rewrite lookup_insert_eq. reflexivity.
    + destruct (handleDownloadChange_forgets_id d st1 Hterm (ex_intro _ u H1)) as [Ha Hm].
      split; [exact Ha|]. split; [exact Hm|].
      unfold st2. rewrite handleDownloadChange_keeps_urls by eauto. exact H3.
  - intros Hid Hu st1 st2.
    assert (Hst1 : st1 = {| activeDownloads := <[id d := u]> (activeDownloads st);
                            markSnipDownloads := markSnipDownloads st;
                            markSnipUrls :=
                              <[u := {| filename := name; isMarkdown := true;
                                        isImage := false; url := None |}]>
                                (markSnipUrls st);
                            cleanups := cleanups st |}).
    { unfold st1, handleDownloadComplete.
      destruct (Z.eqb_spec (id d) 0) as [E|_]; [contradiction|].
      destruct u as [|c u]; [congruence|]. reflexivity. }
    assert (H1 : activeDownloads st1 !! id d = Some u).
    { rewrite Hst1. cbn [activeDownloads]. apply lookup_insert_eq. }
    destruct (handleDownloadChange_forgets_id d st1 Hterm (ex_intro _ u H1)) as [Ha Hm].
    split; [exact H1|]. split; [exact Ha|]. split; [exact Hm|].
    unfold st2. rewrite handleDownloadChange_keeps_urls by eauto.
    rewrite Hst1. cbn [markSnipUrls]. apply lookup_insert_eq.
Qed.

Lemma markdown_download_records_witness :
  (let d := {| id := 5; state := Some complete |} in
   let st1 := markdown_download_started (str "blob:u") (id d)
                (markdown_download_requested (str "blob:u") (str "notes/a.md") start) in
   let st2 := handleDownloadChange d st1 in
   (activeDownloads st1 !! id d = Some (str "blob:u") /\
    (filename <$> markSnipDownloads st1 !! id d) = Some (str "notes/a.md") /\
    markSnipUrls st1 !! str "blob:u" = None) /\
   (activeDownloads st2 !! id d = None /\
    markSnipDownloads st2 !! id d = None /\
    markSnipUrls st2 !! str "blob:u" = None)) /\
  (let d := {| id := 5; state := Some complete |} in
   let st1 := handleDownloadComplete (id d) (str "blob:u")
                (track_download_url (str "blob:u") (str "notes/a.md") true false start) in
   let st2 := handleDownloadChange d st1 in
   activeDownloads st1 !! id d = Some (str "blob:u") /\
   activeDownloads st2 !! id d = None /\
   markSnipDownloads st2 !! id d = None /\
   markSnipUrls st2 !! str "blob:u"
   = Some {| filename := str "notes/a.md"; isMarkdown := true; isImage := false;
             url := None |}).
Proof.
  pose proof (markdown_download_records start (str "blob:u") (str "notes/a.md")
                {| id := 5; state := Some complete |} eq_refl) as [Hsw Hoff].
  split; [exact Hsw|]. apply Hoff; discriminate.
Defined.

Lemma handleFilenameConflict_tracked (item : downloadItem) (st : tracking) :
  handleFilenameConflict item st = filename <$> (markSnipDownloads st !! item_id item).
Proof.
  unfold handleFilenameConflict. cbv zeta.
  destruct (markSnipDownloads st !! item_id item) as [r|] eqn:E.
  - rewrite bool_decide_eq_true_2 by eauto. reflexivity.
  - rewrite bool_decide_eq_false_2 by (intros [? H]; discriminate H).
    rewrite andb_false_r. destruct (false || _); reflexivity.
Qed.

Lemma handleImageDownloads_blob_records (mdClipsFolder title : jsstring)
    (images : list (jsstring * jsstring * option Z)) (st : tracking) :
  Forall (fun '(src, _, _) => startsWith (str "blob:") src = true) images ->
  markSnipDownloads (handleImageDownloads mdClipsFolder title images st)
  = markSnipDownloads st.
Proof.
  unfold handleImageDownloads. intros H. revert st.
  induction H as [|[[src name] imgId] images Hsrc _ IH]; intros st; [reflexivity|].
  cbn [fold_left]. rewrite IH. unfold download_image. rewrite Hsrc.
  destruct imgId; reflexivity.
Qed.

(** X15. Images that were fetched beforehand have blob URLs, and
    [handleImageDownloads] writes no record under the identifiers of their
    downloads: when the platform asks for the file name of such a download,
    [handleFilenameConflict] suggests none. The records it has written under
    the URLs are not looked at. *)
Theorem blob_images_get_no_suggestion (mdClipsFolder title : jsstring)
    (images : list (jsstring * jsstring * option Z)) (st : tracking)
    (item : downloadItem) :
  Forall (fun '(src, _, _) => startsWith (str "blob:") src = true) images ->
  markSnipDownloads st !! item_id item = None ->
  handleFilenameConflict item (handleImageDownloads mdClipsFolder title images st) = None.
Proof.
  intros Hblob Hnew.
  rewrite handleFilenameConflict_tracked, handleImageDownloads_blob_records by exact Hblob.
  rewrite Hnew. reflexivity.
Qed.

Lemma blob_images_get_no_suggestion_witness :
  handleFilenameConflict
    {| item_id := 7; item_url := Some (str "blob:chrome-extension://abc/1") |}
    (handleImageDownloads [] (str "page")
       [(str "blob:chrome-extension://abc/1", str "page/img.png", Some 7%Z)] start)
  = None.
Proof.
  apply (blob_images_get_no_suggestion [] (str "page")
           [(str "blob:chrome-extension://abc/1", str "page/img.png", Some 7%Z)] start
           {| item_id := 7; item_url := Some (str "blob:chrome-extension://abc/1") |}).
  - repeat constructor.
  - apply lookup_empty.
Defined.

(** X16. The download of a Markdown file from a blob URL of the extension has two
    listeners: [handleDownloadChange] and the one that [downloadListener]
    made. When the download is complete and [handleDownloadChange] runs
    first, both send the clean-up message for the URL; in the other order
    only one message is sent. *)
Theorem cleanup_sent_twice (st : tracking) (u : jsstring) (id0 : Z) :
  startsWith (str "blob:chrome-extension://") u = true ->
  let st1 := markdown_download_started u id0 st in
  let d := {| id := id0; state := Some complete |} in
  cleanups (handleChange id0 u d (handleDownloadChange d st1)) = u :: u :: cleanups st /\
  cleanups (handleDownloadChange d (handleChange id0 u d st1)) = u :: cleanups st.
Proof.
  intros Hblob st1 d.
  assert (Hc : cleanups st1 = cleanups st).
  { unfold st1, markdown_download_started, downloadListener.
    destruct (markSnipUrls st !! u); reflexivity. }
  assert (Ha : activeDownloads st1 !! id0 = Some u).
  { unfold st1, markdown_download_started, downloadListener.
    cbn [activeDownloads]. apply lookup_insert_eq. }
  split.
  - unfold handleChange. cbn [id state d]. rewrite bool_decide_eq_true_2 by reflexivity.
    cbn [andb cleanups]. unfold cleanup_blob at 1. rewrite Hblob. f_equal.
    unfold handleDownloadChange.
    destruct (forget_url_ids d (forget_download d st1)) as (_ & _ & ->).
    unfold forget_download. cbn [id d]. rewrite Ha. cbn [terminal state cleanups].
    unfold cleanup_blob. rewrite Hblob, Hc. reflexivity.
  - unfold handleDownloadChange.
    destruct (forget_url_ids d (forget_download d (handleChange id0 u d st1)))
      as (_ & _ & ->).
    unfold forget_download, handleChange. cbn [id state d].
    rewrite bool_decide_eq_true_2 by reflexivity. cbn [andb activeDownloads].
    rewrite lookup_delete_eq. cbn [cleanups]. unfold cleanup_blob.
    rewrite Hblob, Hc. reflexivity.
Qed.

Lemma cleanup_sent_twice_witness :
  let u := str "blob:chrome-extension://abc/9" in
  let st1 := markdown_download_started u 4 (markdown_download_requested u (str "a.md") start) in
  let d := {| id := 4; state := Some complete |} in
  cleanups (handleChange 4 u d (handleDownloadChange d st1)) = [u; u] /\
  cleanups (handleDownloadChange d (handleChange 4 u d st1)) = [u].
Proof.
  apply (cleanup_sent_twice
           (markdown_download_requested (str "blob:chrome-extension://abc/9")
              (str "a.md") start)
           (str "blob:chrome-extension://abc/9") 4%Z).
  reflexivity.
Defined.

End Downloads.

(** ** The final clean-up of the output

    [turndown] and [orgdown] end by taking the non-printing characters out of
    the text; [convertArticleToMarkdown] and [convertArticleToOrg] put the
    templates around it. *)

Module Output.
Import Template.

(** The character class of the clean-up:
    [\u0000-\u0009 \u000b \u000c \u000e-\u001f \u007f-\u009f \u00ad \u061c
     \u200b-\u200f \u2028 \u2029 \ufeff \ufff9-\ufffc]. *)
Definition special (c : N) : bool :=
  (c <=? 0x0009)%N
  || (c =? 0x000b)%N || (c =? 0x000c)%N
  || ((0x000e <=? c)%N && (c <=? 0x001f)%N)
  || ((0x007f <=? c)%N && (c <=? 0x009f)%N)
  || (c =? 0x00ad)%N || (c =? 0x061c)%N
  || ((0x200b <=? c)%N && (c <=? 0x200f)%N)
  || (c =? 0x2028)%N || (c =? 0x2029)%N || (c =? 0xfeff)%N
  || ((0xfff9 <=? c)%N && (c <=? 0xfffc)%N).

(** [.replace(/[...]/g, '')] *)
Definition strip_special (s : jsstring) : jsstring :=
  List.filter (fun c => negb (special c)) s.

(** What the two functions read of the options. *)
Record options := {
  includeTemplate : bool;
  frontmatter : jsstring;
  backmatter : jsstring;
  orgPreambleTemplate : jsstring
}.

(** The end of [turndown]; [body] is [turndownService.turndown(content)]. *)
Definition turndown (frontmatter body backmatter : jsstring) : jsstring :=
  strip_special (frontmatter ++ body ++ backmatter).

(** The end of [orgdown]; [body] is [orgdownService.orgdown(content)]. *)
Definition orgdown (body : jsstring) : jsstring := strip_special body.

(** [convertArticleToMarkdown], up to the call of [turndown]. *)
Definition convertArticleToMarkdown (rt : Runtime) (opts : options) (a : article)
    (body : jsstring) : option jsstring :=
  if includeTemplate opts then
    front ← textReplace rt (frontmatter opts) a JNull;
    back ← textReplace rt (backmatter opts) a JNull;
    Some (turndown (front ++ [LF]) body ([LF] ++ back))
  else Some (turndown [] body []).

(** [convertArticleToOrg], up to [result.org = orgPreamble + result.org]. *)
Definition convertArticleToOrg (rt : Runtime) (opts : options) (a : article)
    (body : jsstring) : option jsstring :=
  orgPreamble ←
    (if includeTemplate opts && truthy (JStr (orgPreambleTemplate opts))
     then text ← textReplace rt (orgPreambleTemplate opts) a JNull;
          Some (text ++ [LF; LF])
     else Some []);
  Some (orgPreamble ++ orgdown body).

Definition ZWSP : N := 0x200b.



(** The Org preamble is put before the text after the clean-up: what it
    holds stays. *)
Lemma convertArticleToOrg_keeps_preamble rt opts a body text :
  includeTemplate opts = true ->
  truthy (JStr (orgPreambleTemplate opts)) = true ->
  textReplace rt (orgPreambleTemplate opts) a JNull = Some text ->
  convertArticleToOrg rt opts a body = Some (text ++ [LF; LF] ++ strip_special body).
Proof.
  intros Hi Ht Htext. unfold convertArticleToOrg. rewrite Hi, Ht, Htext. simpl.
  rewrite <- app_assoc. reflexivity.
Qed.

(** C8 fails on the Org path. With the preamble [#+TITLE: {pageTitle}] and a
    page title that holds a zero-width space (U+200B), the Org document
    starts with the title as it is, zero-width space included; the Markdown
    path, with the same text as front matter, takes it out. *)
Theorem org_preamble_not_cleaned :
  let a := [(str "pageTitle", VString (str "a" ++ [ZWSP] ++ str "b"))] in
  let opts := {| includeTemplate := true;
                 frontmatter := str "#+TITLE: {pageTitle}";
                 backmatter := [];
                 orgPreambleTemplate := str "#+TITLE: {pageTitle}" |} in
  special ZWSP = true /\
  convertArticleToOrg ascii_runtime opts a (str "text")
  = Some (str "#+TITLE: a" ++ [ZWSP] ++ str "b" ++ [LF; LF] ++ str "text") /\
  convertArticleToMarkdown ascii_runtime opts a (str "text")
  = Some (str "#+TITLE: ab" ++ [LF] ++ str "text" ++ [LF]).
Proof. repeat split. Qed.



End Output.

(** ** [validateUri] *)

Module Uri.

(** What the function reads of a [URL] object. *)
Record URL := {
  href : jsstring;
  origin : jsstring
}.

Section WithParser.

(** [new URL(s)], the URL parser of the platform; [None] when it throws. *)
Context (URL_new : jsstring -> option URL).

Definition validateUri (href_ baseURI : jsstring) : option jsstring :=
  match URL_new href_ with
  | Some _ => Some href_
  | None =>
      baseUri ← URL_new baseURI;
      Some (if startsWith (str "/") href_
            then origin baseUri ++ href_
            else href baseUri
                   ++ (if endsWith (str "/") (href baseUri) then [] else str "/")
                   ++ href_)
  end.

End WithParser.

(** A stand-in for the parser, to run the function on examples: it knows the
    [https] URLs made of a host and a path, without port and dot segments,
    and refuses every text that does not start with the scheme. What follows
    the path (a query, a fragment) stays in the [href] and out of the
    [origin], as with the parser of the platform. *)
Definition https_URL (s : jsstring) : option URL :=
  if startsWith (str "https://") s then
    let rest := drop 8 s in
    let host := take (Table.run_length (fun c => negb (c =? Manifest.SLASH)%N) rest) rest in
    Some {| href := if includes rest (str "/") then s else s ++ str "/";
            origin := str "https://" ++ host |}
  else None.




(** X18. When the function fails and what it never does. It throws (the
    [new URL(baseURI)] in the [catch] block is not guarded) exactly when
    neither the [href] nor the base parses; and a result always ends with the
    [href] as it was given: the function only puts text before it. *)
Theorem validateUri_throws (URL_new : jsstring -> option URL) (href_ baseURI : jsstring) :
  (validateUri URL_new href_ baseURI = None <->
   URL_new href_ = None /\ URL_new baseURI = None) /\
  (forall result, validateUri URL_new href_ baseURI = Some result ->
                  endsWith href_ result = true).
Proof.
  unfold validateUri. split.
  - destruct (URL_new href_) as [u|].
    + split; [discriminate|intros [H _]; discriminate H].
    + destruct (URL_new baseURI) as [b|]; cbn [mbind option_bind].
      * split; [discriminate|intros [_ H]; discriminate H].
      * split; [intros _; split; reflexivity|reflexivity].
  - intros result. destruct (URL_new href_) as [u|].
    + intros [= <-]. apply (Manifest.endsWith_app href_ []).
    + destruct (URL_new baseURI) as [b|]; cbn [mbind option_bind]; [|discriminate].
      destruct (startsWith (str "/") href_); intros [= <-].
      * apply Manifest.endsWith_app.
      * rewrite app_assoc. apply Manifest.endsWith_app.
Qed.

Lemma validateUri_throws_witness :
  validateUri https_URL (str "x") (str "b/c") = None /\
  endsWith (str "x") (str "https://a.com/b/c/x") = true.
Proof.
  split.
  - apply (proj2 (proj1 (validateUri_throws https_URL (str "x") (str "b/c")))).
    split; reflexivity.
  - apply (proj2 (validateUri_throws https_URL (str "x") (str "https://a.com/b/c"))).
    reflexivity.
Defined.

End Uri.

(** ** [cleanAttribute]

    The titles and alternative texts of links and images go through it. *)

Module Attribute.
Import Scan Template.

(** The expression of [cleanAttribute]: one or more times (line feeds, then
    white space). A match starts at a line feed and takes all the white space
    that follows, line feeds included. *)
Definition newline_run : matcher :=
  fun s => match s with
           | x :: s' => if (x =? LF)%N then Some (S (Table.run_length is_white_space s'))
                        else None
           | [] => None
           end.

(** The call of [replace] with a line feed as the new text *)
Definition clean (s : jsstring) : jsstring := replace newline_run (fun _ => [LF]) s.

(** [cleanAttribute(attribute)]; [getAttribute] gives [null] for an attribute
    that the node does not have. *)
Definition cleanAttribute (attribute : jsval) : jsstring :=
  match attribute with
  | JStr s => if truthy attribute then clean s else []
  | _ => []
  end.

(** The text does not start with white space. *)
Definition starts_with_text (s : jsstring) : Prop :=
  match s with
  | x :: _ => is_white_space x = false
  | [] => True
  end.

(** No line feed of the text is followed by white space. *)
Fixpoint single_breaks (s : jsstring) : Prop :=
  match s with
  | x :: s' => (x = LF -> starts_with_text s') /\ single_breaks s'
  | [] => True
  end.

Lemma replace_from_drop (re : matcher) (f : jsstring -> jsstring) (s : jsstring) :
  forall k, replace_from re f k s = replace_from re f 0 (drop k s).
Proof.
  induction s as [|x s IH]; intros k.
  - destruct k; reflexivity.
  - destruct k as [|k]; [reflexivity|]. cbn [replace_from drop]. apply IH.
Qed.

Lemma drop_run_length (s : jsstring) :
  drop (Table.run_length is_white_space s) s = trimStart s.
Proof.
  induction s as [|x s IH]; [reflexivity|].
  cbn [Table.run_length trimStart]. destruct (is_white_space x); [exact IH|reflexivity].
Qed.

Lemma clean_lf (s : jsstring) : clean (LF :: s) = LF :: clean (trimStart s).
Proof.
  unfold clean, replace. cbn [replace_from newline_run].
  rewrite N.eqb_refl. cbn [app]. rewrite replace_from_drop, drop_run_length. reflexivity.
Qed.

Lemma clean_other (x : N) (s : jsstring) : x <> LF -> clean (x :: s) = x :: clean s.
Proof.
  intros Hx. unfold clean, replace. cbn [replace_from newline_run].
  apply N.eqb_neq in Hx. rewrite Hx. reflexivity.
Qed.

Lemma trimStart_length (s : jsstring) : length (trimStart s) <= length s.
Proof.
  induction s as [|x s IH]; [reflexivity|]. cbn [trimStart].
  destruct (is_white_space x); cbn [length]; lia.
Qed.

Lemma trimStart_starts (s : jsstring) : starts_with_text (trimStart s).
Proof.
  induction s as [|x s IH]; [exact I|]. cbn [trimStart].
  destruct (is_white_space x) eqn:E; [exact IH|exact E].
Qed.

Lemma trimStart_id (s : jsstring) : starts_with_text s -> trimStart s = s.
Proof.
  destruct s as [|x s]; [reflexivity|]. cbn [starts_with_text trimStart].
  intros ->. reflexivity.
Qed.

Lemma clean_starts (s : jsstring) : starts_with_text s -> starts_with_text (clean s).
Proof.
  destruct s as [|x s]; [intros _; exact I|]. intros H.
  destruct (N.eq_dec x LF) as [->|Hx]; [discriminate H|].
  rewrite (clean_other x s Hx). exact H.
Qed.

Lemma clean_single_breaks_n (n : nat) :
  forall s, length s <= n -> single_breaks (clean s) /\ clean (clean s) = clean s.
Proof.
  induction n as [|n IH]; intros s Hlen.
  - destruct s; [split; [exact I|reflexivity]|cbn [length] in Hlen; lia].
  - destruct s as [|x s]; [split; [exact I|reflexivity]|].
    cbn [length] in Hlen.
    destruct (N.eq_dec x LF) as [->|Hx].
    + rewrite clean_lf.
      destruct (IH (trimStart s)) as [Hs Hi];
        [pose proof (trimStart_length s); lia|].
      split.
      * cbn [single_breaks]. split; [|exact Hs].
        intros _. apply clean_starts, trimStart_starts.
      * rewrite clean_lf.
        rewrite (trimStart_id (clean (trimStart s)))
          by (apply clean_starts, trimStart_starts).
        rewrite Hi. reflexivity.
    + rewrite (clean_other x s Hx).
      destruct (IH s ltac:(lia)) as [Hs Hi]. split.
      * cbn [single_breaks]. split; [congruence|exact Hs].
      * rewrite (clean_other x _ Hx), Hi. reflexivity.
Qed.

Lemma single_breaks_spec (s : jsstring) :
  single_breaks s ->
  forall pre x post, s = pre ++ LF :: x :: post -> is_white_space x = false.
Proof.
  intros H pre. revert s H. induction pre as [|y pre IH]; intros s H x post ->.
  - cbn [app single_breaks] in H. destruct H as [H _]. exact (H eq_refl).
  - cbn [app single_breaks] in H. destruct H as [_ H]. exact (IH _ H x post eq_refl).
Qed.

Lemma clean_no_lf (s : jsstring) : Forall (fun c => c <> LF) s -> clean s = s.
Proof.
  induction 1 as [|x s Hx _ IH]; [reflexivity|].
  rewrite (clean_other x s Hx), IH. reflexivity.
Qed.

(** X19. What [cleanAttribute] gives: an attribute that is missing or empty gives
    the empty text; in the result no line feed is followed by white space (so
    there is no blank line and no line that starts with a space); a text
    without line feed comes back as it is; and cleaning a second time changes
    nothing. *)
Theorem cleanAttribute_single_breaks (attribute : jsval) :
  (truthy attribute = false -> cleanAttribute attribute = []) /\
  (forall pre x post,
      cleanAttribute attribute = pre ++ LF :: x :: post -> is_white_space x = false) /\
  (forall s, attribute = JStr s -> Forall (fun c => c <> LF) s ->
             cleanAttribute attribute = s) /\
  cleanAttribute (JStr (cleanAttribute attribute)) = cleanAttribute attribute.
Proof.
  assert (Hc : forall s, cleanAttribute (JStr s) = clean s).
  { intros [|x s]; reflexivity. }
  destruct attribute as [| |s].
  - split; [reflexivity|]. split; [intros [|? ?] ? ? H; discriminate H|].
    split; [discriminate|reflexivity].
  - split; [reflexivity|]. split; [intros [|? ?] ? ? H; discriminate H|].
    split; [discriminate|reflexivity].
  - rewrite !Hc. destruct (clean_single_breaks_n (length s) s (le_n _)) as [Hs Hi].
    split; [destruct s; [reflexivity|discriminate]|].
    split; [exact (single_breaks_spec _ Hs)|].
    split; [|exact Hi].
    intros s' [= <-] Hno. apply clean_no_lf, Hno.
Qed.

Lemma cleanAttribute_single_breaks_witness :
  cleanAttribute JNull = [] /\ cleanAttribute (JStr (str "a title")) = str "a title".
Proof.
  split.
  - apply (proj1 (cleanAttribute_single_breaks JNull)). reflexivity.
  - apply (proj1 (proj2 (proj2 (cleanAttribute_single_breaks (JStr (str "a title")))))
             (str "a title") eq_refl).
    repeat constructor; discriminate.
Defined.

End Attribute.

(** ** [formatTitle], [formatMdClipsFolder] and [formatObsidianFolder] *)

Module Title.
Import Template.

Definition SLASH : N := Manifest.SLASH.

(** [v + s] for a value that is [undefined], [null] or a string *)
Definition plus_text (v : jsval) (s : jsstring) : jsstring :=
  match v with
  | JUndefined => str "undefined" ++ s
  | JNull => str "null" ++ s
  | JStr d => d ++ s
  end.

(** [text.split('/').map(s => generateValidFileName(s, disallowedChars)).join('/')] *)
Definition valid_parts (disallowedChars : jsval) (text : jsstring) : jsstring :=
  join [SLASH]
    (map (fun s => match FileName.generateValidFileName (JStr s) disallowedChars with
                   | JStr name => name
                   | _ => []
                   end)
       (split SLASH text)).

(** What the three functions read of the options. *)
Record options := {
  title : jsstring;
  mdClipsFolder : jsval;
  obsidianFolder : jsval;
  downloadMode : jsstring;
  disallowedChars : jsval
}.

Definition formatTitle (rt : Runtime) (article_ : article) (opts : options)
    : option jsstring :=
  text ← textReplace rt (title opts) article_
           (JStr (plus_text (disallowedChars opts) (str "/")));
  Some (valid_parts (disallowedChars opts) text).

(** The body that [formatMdClipsFolder] and [formatObsidianFolder] share. *)
Definition format_folder (rt : Runtime) (article_ : article) (template : jsstring)
    (disallowedChars : jsval) : option jsstring :=
  text ← textReplace rt template article_ disallowedChars;
  let folder := valid_parts disallowedChars text in
  Some (if negb (endsWith (str "/") folder) then folder ++ str "/" else folder).

Definition formatMdClipsFolder (rt : Runtime) (article_ : article) (opts : options)
    : option jsstring :=
  match mdClipsFolder opts with
  | JStr template =>
      if truthy (mdClipsFolder opts) && eqs (downloadMode opts) (str "downloadsApi")
      then format_folder rt article_ template (disallowedChars opts)
      else Some []
  | _ => Some []
  end.

Definition formatObsidianFolder (rt : Runtime) (article_ : article) (opts : options)
    : option jsstring :=
  match obsidianFolder opts with
  | JStr template =>
      if truthy (obsidianFolder opts)
      then format_folder rt article_ template (disallowedChars opts)
      else Some []
  | _ => Some []
  end.

(** The image prefix as [convertArticleToMarkdown] sets it before the
    conversion. *)
Definition image_prefix (rt : Runtime) (article_ : article) (imagePrefix : jsstring)
    (disallowedChars : jsval) : option jsstring :=
  text ← textReplace rt imagePrefix article_ disallowedChars;
  Some (valid_parts disallowedChars text).

(** Every part between two slashes is free of the forbidden characters. *)
Definition clean_parts (path : jsstring) : Prop :=
  Forall (Forall (fun c => FileName.forbidden c = false)) (split SLASH path).

Lemma forbidden_slash (c : N) : FileName.forbidden c = false -> c <> SLASH.
Proof. intros H ->. discriminate H. Qed.

Lemma valid_name_of (d : jsval) (s : jsstring) :
  Forall (fun c => FileName.forbidden c = false)
    match FileName.generateValidFileName (JStr s) d with
    | JStr name => name
    | _ => []
    end.
Proof.
  unfold FileName.generateValidFileName.
  destruct (negb (truthy (JStr s))) eqn:E.
  - destruct s; [constructor|discriminate E].
  - apply FileName.valid_name_clean.
Qed.

Lemma valid_parts_clean (d : jsval) (text : jsstring) : clean_parts (valid_parts d text).
Proof.
  unfold clean_parts, valid_parts.
  assert (Hall : Forall (Forall (fun c => FileName.forbidden c = false))
            (map (fun s => match FileName.generateValidFileName (JStr s) d with
                           | JStr name => name
                           | _ => []
                           end) (split SLASH text))).
  { apply List.Forall_map, List.Forall_forall. intros s _. apply valid_name_of. }
  rewrite Manifest.split_join; [exact Hall| |].
  - pose proof (Manifest.split_nonempty SLASH text) as Hne.
    destruct (split SLASH text); [congruence|discriminate].
  - eapply List.Forall_impl; [|exact Hall].
    intros part Hpart. eapply List.Forall_impl; [|exact Hpart].
    intros c. apply forbidden_slash.
Qed.

Lemma format_folder_shape rt a template d folder :
  format_folder rt a template d = Some folder ->
  endsWith (str "/") folder = true /\ clean_parts folder.
Proof.
  unfold format_folder. destruct (textReplace rt template a d) as [text|]; [|discriminate].
  cbn [mbind option_bind]. intros [= <-].
  destruct (endsWith (str "/") (valid_parts d text)) eqn:E; cbn [negb].
  - split; [exact E|apply valid_parts_clean].
  - split; [apply Manifest.endsWith_app|].
    unfold clean_parts. change (str "/") with [SLASH].
    rewrite Manifest.split_app. apply Forall_app. split; [apply valid_parts_clean|].
    repeat constructor.
Qed.

(** X20. The title and the two folders as the functions format them: in the
    title every part between two slashes is a file name without forbidden
    character; a folder is empty (when the option is off) or ends with a
    slash, and its parts are such file names too. *)
Theorem formatted_paths_clean rt (a : article) (opts : options) :
  (forall t, formatTitle rt a opts = Some t -> clean_parts t) /\
  (forall f, formatMdClipsFolder rt a opts = Some f ->
             (f = [] \/ endsWith (str "/") f = true) /\ clean_parts f) /\
  (forall f, formatObsidianFolder rt a opts = Some f ->
             (f = [] \/ endsWith (str "/") f = true) /\ clean_parts f).
Proof.
  assert (Hempty : ([] : jsstring) = [] \/ endsWith (str "/") [] = true) by (left; reflexivity).
  assert (Hnil : clean_parts []) by (repeat constructor).
  split; [|split].
  - intros t. unfold formatTitle.
    destruct (textReplace rt (title opts) a _) as [text|]; [|discriminate].
    cbn [mbind option_bind]. intros [= <-]. apply valid_parts_clean.
  - intros f. unfold formatMdClipsFolder.
    destruct (mdClipsFolder opts) as [| |template]; try (intros [= <-]; split; assumption).
    destruct (truthy (JStr template) && eqs (downloadMode opts) (str "downloadsApi"));
      [|intros [= <-]; split; assumption].
    intros H. destruct (format_folder_shape _ _ _ _ _ H) as [He Hc].
    split; [right; exact He|exact Hc].
  - intros f. unfold formatObsidianFolder.
    destruct (obsidianFolder opts) as [| |template]; try (intros [= <-]; split; assumption).
    destruct (truthy (JStr template)); [|intros [= <-]; split; assumption].
    intros H. destruct (format_folder_shape _ _ _ _ _ H) as [He Hc].
    split; [right; exact He|exact Hc].
Qed.

Definition example_options : options :=
  {| title := str "{pageTitle}";
     mdClipsFolder := JStr (str "clips/{pageTitle}");
     obsidianFolder := JNull;
     downloadMode := str "downloadsApi";
     disallowedChars := JStr (str "[]#^") |}.

Definition example_article : article :=
  [(str "pageTitle", VString (str "What? [1]: a/b"))].

Lemma formatted_paths_clean_witness :
  clean_parts (str "What 1 ab") /\
  ((str "clips/What 1 ab/" = [] \/ endsWith (str "/") (str "clips/What 1 ab/") = true)
   /\ clean_parts (str "clips/What 1 ab/")) /\
  (([] : jsstring) = [] \/ endsWith (str "/") [] = true) /\ clean_parts [].
Proof.
  pose proof (formatted_paths_clean ascii_runtime example_article example_options)
    as (Ht & Hf & Ho).
  split; [|split].
  - apply Ht. vm_compute. reflexivity.
  - apply Hf. vm_compute. reflexivity.
  - apply Ho. vm_compute. reflexivity.
Defined.

Lemma clean_parts_app (path name : jsstring) :
  clean_parts path -> Forall (fun c => FileName.forbidden c = false) name ->
  clean_parts (path ++ name).
Proof.
  unfold clean_parts. intros Hpath Hname.
  induction path as [|x path IH].
  - cbn [app]. rewrite Manifest.split_free.
    + repeat constructor. exact Hname.
    + eapply List.Forall_impl; [|exact Hname]. intros c. apply forbidden_slash.
  - cbn [app split] in Hpath |- *.
    pose proof (Manifest.split_nonempty SLASH path) as Hne1.
    pose proof (Manifest.split_nonempty SLASH (path ++ name)) as Hne2.
    destruct (split SLASH path) as [|p ps] eqn:E1; [congruence|].
    destruct (split SLASH (path ++ name)) as [|q qs] eqn:E2; [congruence|].
    destruct (x =? SLASH)%N.
    + inversion Hpath as [|? ? _ Hrest]; subst.
      constructor; [constructor|]. apply IH. exact Hrest.
    + inversion Hpath as [|? ? Hxp Hps]; subst.
      inversion Hxp as [|? ? Hx Hp]; subst.
      assert (Hq : Forall (Forall (fun c => FileName.forbidden c = false)) (q :: qs)).
      { apply IH. constructor; assumption. }
      inversion Hq as [|? ? Hq1 Hq2]; subst.
      constructor; [constructor; assumption|assumption].
Qed.

(** X21. The path of an image file. With the image prefix that
    [convertArticleToMarkdown] makes from the template, every part between
    two slashes of the name that [getImageFilename] gives is free of the
    forbidden characters, whatever the source of the image. *)
Theorem image_path_clean rt (a : article) (template : jsstring) (d : jsval)
    (prefix src : jsstring) :
  image_prefix rt a template d = Some prefix ->
  clean_parts
    (Manifest.getImageFilename src
       {| Manifest.imagePrefix := JStr prefix; Manifest.disallowedChars := d |}).
Proof.
  unfold image_prefix. destruct (textReplace rt template a d) as [text|]; [|discriminate].
  cbn [mbind option_bind]. intros [= <-].
  destruct (Manifest.getImageFilename_shape src
              {| Manifest.imagePrefix := JStr (valid_parts d text);
                 Manifest.disallowedChars := d |}) as (name & -> & Hname).
  cbn [Manifest.imagePrefix]. apply clean_parts_app; [apply valid_parts_clean|exact Hname].
Qed.

Lemma image_path_clean_witness :
  clean_parts
    (Manifest.getImageFilename (str "http://a/b/pic?.png")
       {| Manifest.imagePrefix := JStr (str "What 1 ab/");
          Manifest.disallowedChars := JStr (str "[]#^") |}).
Proof.
  apply (image_path_clean ascii_runtime example_article (str "{pageTitle}/")
           (JStr (str "[]#^")) (str "What 1 ab/") (str "http://a/b/pic?.png")).
  vm_compute. reflexivity.
Defined.

End Title.

(** ** The rules for mathematics and images *)

Module Rules.
Import Scan Template Attribute.

(** *** The [mathjax] rule *)

(** The [replacement] of the rule; [tex] and [inline] are [math.tex] and
    [math.inline]. *)
Definition mathjax (tex : jsstring) (inline : bool) : jsstring :=
  let tex := replaceAll [NBSP] [] (trim tex) in
  if inline then [DOLLAR] ++ replaceAll [LF] [SPACE] tex ++ [DOLLAR]
  else [DOLLAR; DOLLAR; LF] ++ tex ++ [LF; DOLLAR; DOLLAR].

(** *** The [images] rule *)

(** What the rule reads of the options; [encodeURI] is the function of the
    platform. *)
Record options := {
  imageStyle : jsstring;
  imageRefStyle : jsstring;
  encodeURI : jsstring -> jsstring
}.

(** [localSrc] in the filter of the rule *)
Definition localSrc (opts : options) (imageFilename : jsstring) : jsstring :=
  let obsidianLink := startsWith (str "obsidian") (imageStyle opts) in
  if eqs (imageStyle opts) (str "obsidian-nofolder")
  then Manifest.substringZ (Manifest.lastIndexOf Manifest.SLASH imageFilename + 1)
         (Z.of_nat (length imageFilename)) imageFilename
  else join (str "/")
         (map (fun s => if obsidianLink then s else encodeURI opts s)
            (split Manifest.SLASH imageFilename)).

(** The attributes of the [img] node that the replacement reads *)
Record img := {
  alt : jsval;
  src : jsval;
  title : jsval
}.

(** A value inside a template literal *)
Definition text_of (v : jsval) : jsstring :=
  match v with
  | JUndefined => str "undefined"
  | JNull => str "null"
  | JStr s => s
  end.

(** [v || ''] *)
Definition or_empty (v : jsval) : jsstring :=
  match v with
  | JStr s => s
  | _ => []
  end.

Definition titlePart (node_title : jsval) : jsstring :=
  let title := cleanAttribute node_title in
  if truthy (JStr title) then [SPACE; DQUOTE] ++ title ++ [DQUOTE] else [].

(** The label of the reference with the number [id] *)
Definition fig (id : nat) : jsstring :=
  str "[fig" ++ Manifest.number (N.of_nat id) ++ str "]".

(** The [replacement] of the rule: the text it returns and [this.references]
    after the call. *)
Definition image_replacement (opts : options) (node : img) (references : list jsstring)
    : jsstring * list jsstring :=
  if eqs (imageStyle opts) (str "noImage") then ([], references)
  else if startsWith (str "obsidian") (imageStyle opts)
  then (str "![[" ++ text_of (src node) ++ str "]]", references)
  else
    let alt := cleanAttribute (alt node) in
    let src_ := or_empty (src node) in
    let titlePart := titlePart (title node) in
    if eqs (imageRefStyle opts) (str "referenced") then
      let id := length references + 1 in
      (str "![" ++ alt ++ str "]" ++ fig id,
       references ++ [fig id ++ str ": " ++ src_ ++ titlePart])
    else
      (if truthy (JStr src_)
       then str "![" ++ alt ++ str "]" ++ str "(" ++ src_ ++ titlePart ++ str ")"
       else [],
       references).

(** The images of a document, one after the other: the texts, and the
    references at the end. *)
Fixpoint image_replacements (opts : options) (nodes : list img)
    (references : list jsstring) : list jsstring * list jsstring :=
  match nodes with
  | [] => ([], references)
  | node :: nodes' =>
      let '(text, references) := image_replacement opts node references in
      let '(texts, references) := image_replacements opts nodes' references in
      (text :: texts, references)
  end.

(** [append]: the references under the text; the list is emptied. *)
Definition append (references : list jsstring) : jsstring * list jsstring :=
  match references with
  | [] => ([], references)
  | _ :: _ => ([LF; LF] ++ join [LF] references ++ [LF; LF], [])
  end.

(** *** Properties *)

Lemma replaceAll_from_char_remove (c : N) (s before : jsstring) :
  replaceAll_from [c] [] before 0 s = List.filter (fun x => negb (x =? c)%N) s.
Proof.
  revert before. induction s as [|x s IH]; intros before; [reflexivity|].
  cbn [replaceAll_from startsWith List.filter length Nat.sub expand app].
  rewrite !andb_true_r, N.eqb_sym.
  destruct (x =? c)%N; cbn [negb app]; rewrite IH; reflexivity.
Qed.

Lemma replaceAll_from_char_map (c d : N) (s before : jsstring) :
  d <> DOLLAR ->
  replaceAll_from [c] [d] before 0 s = map (fun x => if (x =? c)%N then d else x) s.
Proof.
  intros Hd. apply N.eqb_neq in Hd.
  revert before. induction s as [|x s IH]; intros before; [reflexivity|].
  cbn [replaceAll_from startsWith map length Nat.sub expand].
  rewrite Hd.
  rewrite !andb_true_r, N.eqb_sym.
  destruct (x =? c)%N; cbn [app]; rewrite IH; reflexivity.
Qed.

Lemma trimStart_keeps_last (x : N) (l : jsstring) :
  is_white_space x = false -> exists l', trimStart (l ++ [x]) = l' ++ [x].
Proof.
  intros Hx. induction l as [|a l IH].
  - cbn [app trimStart]. rewrite Hx. exists []. reflexivity.
  - cbn [app trimStart]. destruct (is_white_space a); [exact IH|].
    exists (a :: l). reflexivity.
Qed.

Lemma trim_starts (s : jsstring) :
  starts_with_text (trim s) /\ starts_with_text (rev (trim s)).
Proof.
  unfold trim. rewrite rev_involutive. split; [|apply trimStart_starts].
  pose proof (trimStart_starts s) as Ht.
  destruct (trimStart s) as [|x t]; [exact I|].
  cbn [starts_with_text] in Ht. cbn [rev].
  destruct (trimStart_keeps_last x (rev t) Ht) as (l' & ->).
  rewrite rev_app_distr. cbn [rev app starts_with_text]. exact Ht.
Qed.

Lemma filter_starts (f : N -> bool) (s : jsstring) :
  (forall c, f c = false -> is_white_space c = true) ->
  starts_with_text s -> starts_with_text (List.filter f s).
Proof.
  intros Hf. destruct s as [|x s]; [intros _; exact I|].
  cbn [starts_with_text List.filter]. intros Hx.
  destruct (f x) eqn:E; [exact Hx|].
  rewrite (Hf x E) in Hx. discriminate Hx.
Qed.

Lemma map_starts (f : N -> N) (s : jsstring) :
  (forall c, is_white_space c = false -> f c = c) ->
  starts_with_text s -> starts_with_text (map f s).
Proof.
  intros Hf. destruct s as [|x s]; [intros _; exact I|].
  cbn [starts_with_text map]. intros Hx. rewrite (Hf x Hx). exact Hx.
Qed.

(** X22. Inline mathematics is printed between two dollar signs, on one line, and
    no white space stands next to a dollar sign; what is between them holds
    no non-breaking space. *)
Theorem mathjax_inline (tex : jsstring) :
  exists t,
    mathjax tex true = [DOLLAR] ++ t ++ [DOLLAR] /\
    Forall (fun c => c <> LF /\ c <> NBSP) t /\
    starts_with_text t /\ starts_with_text (rev t).
Proof.
  unfold mathjax. cbv zeta.
  unfold replaceAll.
  rewrite replaceAll_from_char_remove, replaceAll_from_char_map by discriminate.
  eexists. split; [reflexivity|].
  destruct (trim_starts tex) as [Hs He].
  assert (Hf : forall c, negb (c =? NBSP)%N = false -> is_white_space c = true).
  { intros c H. apply negb_false_iff, N.eqb_eq in H. subst c. reflexivity. }
  assert (Hm : forall c, is_white_space c = false -> (if (c =? LF)%N then SPACE else c) = c).
  { intros c H. destruct (N.eqb_spec c LF) as [->|_]; [discriminate H|reflexivity]. }
  split; [|split].
  - apply List.Forall_map, List.Forall_forall. intros c Hc.
    apply filter_In in Hc as [_ Hc]. apply negb_true_iff, N.eqb_neq in Hc.
    destruct (N.eqb_spec c LF) as [->|Hlf]; split; try discriminate; assumption.
  - apply map_starts; [exact Hm|]. apply filter_starts; [exact Hf|exact Hs].
  - rewrite <- map_rev, <- List.filter_rev.
    apply map_starts; [exact Hm|]. apply filter_starts; [exact Hf|exact He].
Qed.

Lemma last_slash (c : N) (f : jsstring) :
  Forall (fun x => x <> c) f \/
  exists a b, f = a ++ c :: b /\ Forall (fun x => x <> c) b.
Proof.
  induction f as [|x f IH]; [left; constructor|].
  destruct IH as [Hfree|(a & b & -> & Hb)].
  - destruct (N.eq_dec x c) as [->|Hx].
    + right. exists [], f. split; [reflexivity|exact Hfree].
    + left. constructor; assumption.
  - right. exists (x :: a), b. split; [reflexivity|exact Hb].
Qed.

Lemma lastIndexOf_absent (c : N) (s : jsstring) :
  Forall (fun x => x <> c) s -> Manifest.lastIndexOf c s = (-1)%Z.
Proof.
  intros H. unfold Manifest.lastIndexOf.
  rewrite Manifest.indexOf_absent by (apply Forall_rev; exact H). reflexivity.
Qed.

(** X23. The source that an Obsidian link gets. With [obsidian-nofolder] it is the
    name of the image without its folders: it holds no slash, and the name is
    a folder path (empty, or ending with a slash) followed by it. With the
    other Obsidian styles it is the name as it is. *)
Theorem localSrc_obsidian (opts : options) (imageFilename : jsstring) :
  (imageStyle opts = str "obsidian-nofolder" ->
   Forall (fun c => c <> Manifest.SLASH) (localSrc opts imageFilename) /\
   exists folder,
     imageFilename = folder ++ localSrc opts imageFilename /\
     (folder = [] \/ endsWith (str "/") folder = true)) /\
  (startsWith (str "obsidian") (imageStyle opts) = true ->
   imageStyle opts <> str "obsidian-nofolder" ->
   localSrc opts imageFilename = imageFilename).
Proof.
  unfold localSrc. cbv zeta. split.
  - intros ->. unfold eqs. rewrite bool_decide_eq_true_2 by reflexivity.
    unfold Manifest.substringZ.
    destruct (last_slash Manifest.SLASH imageFilename) as [Hfree|(a & b & -> & Hb)].
    + rewrite (lastIndexOf_absent _ _ Hfree).
      change (Z.to_nat (-1 + 1)) with 0. rewrite Nat2Z.id.
      pose proof (Manifest.substring_middle [] imageFilename []) as [H _].
      cbn [length app Nat.add] in H. rewrite app_nil_r in H. rewrite H.
      split; [exact Hfree|]. exists []. split; [reflexivity|left; reflexivity].
    + rewrite (Manifest.lastIndexOf_last _ a b Hb).
      replace (Z.to_nat (Z.of_nat (length a) + 1)) with (length (a ++ [Manifest.SLASH]))
        by (rewrite length_app; cbn [length]; lia).
      replace (Z.to_nat (Z.of_nat (length (a ++ Manifest.SLASH :: b))))
        with (length (a ++ [Manifest.SLASH]) + length b)
        by (rewrite !length_app; cbn [length]; lia).
      pose proof (Manifest.substring_middle (a ++ [Manifest.SLASH]) b []) as [H _].
      rewrite app_nil_r, <- app_assoc in H. cbn [app] in H. rewrite H.
      split; [exact Hb|]. exists (a ++ [Manifest.SLASH]).
      split; [rewrite <- app_assoc; reflexivity|].
      right. apply (Manifest.endsWith_app [Manifest.SLASH] a).
  - intros -> Hne. unfold eqs. rewrite bool_decide_eq_false_2 by exact Hne.
    rewrite map_id. apply (Manifest.join_split Manifest.SLASH).
Qed.

Lemma localSrc_obsidian_witness :
  (Forall (fun c => c <> Manifest.SLASH)
     (localSrc {| imageStyle := str "obsidian-nofolder"; imageRefStyle := str "inlined";
                  encodeURI := id |} (str "page/img/a.png")) /\
   exists folder,
     str "page/img/a.png"
     = folder ++ localSrc {| imageStyle := str "obsidian-nofolder";
                             imageRefStyle := str "inlined"; encodeURI := id |}
                   (str "page/img/a.png") /\
     (folder = [] \/ endsWith (str "/") folder = true)) /\
  localSrc {| imageStyle := str "obsidian"; imageRefStyle := str "inlined";
              encodeURI := id |} (str "page/img/a.png")
  = str "page/img/a.png".
Proof.
  split.
  - apply (proj1 (localSrc_obsidian
                    {| imageStyle := str "obsidian-nofolder";
                       imageRefStyle := str "inlined"; encodeURI := id |}
                    (str "page/img/a.png"))).
    reflexivity.
  - apply (proj2 (localSrc_obsidian
                    {| imageStyle := str "obsidian"; imageRefStyle := str "inlined";
                       encodeURI := id |}
                    (str "page/img/a.png"))).
    + reflexivity.
    + discriminate.
Defined.

Lemma fig_inj (j k : nat) : fig j = fig k -> j = k.
Proof.
  unfold fig. intros H. apply app_inv_head, app_inv_tail in H.
  apply Manifest.number_inj in H. lia.
Qed.

(** The rule in the [referenced] style, not an Obsidian one and not
    [noImage]. *)
Definition referenced (opts : options) : Prop :=
  imageStyle opts <> str "noImage" /\
  startsWith (str "obsidian") (imageStyle opts) = false /\
  imageRefStyle opts = str "referenced".

Lemma image_replacement_referenced (opts : options) (node : img) (refs : list jsstring) :
  referenced opts ->
  image_replacement opts node refs
  = (str "![" ++ cleanAttribute (alt node) ++ str "]" ++ fig (length refs + 1),
     refs ++ [fig (length refs + 1) ++ str ": " ++ or_empty (src node)
                ++ titlePart (title node)]).
Proof.
  intros (Hno & Hobs & Href). unfold image_replacement, eqs.
  rewrite bool_decide_eq_false_2 by exact Hno. rewrite Hobs, Href.
  rewrite bool_decide_eq_true_2 by reflexivity. reflexivity.
Qed.

Lemma image_replacements_referenced (opts : options) (nodes : list img) :
  referenced opts ->
  forall refs texts refs',
    image_replacements opts nodes refs = (texts, refs') ->
    length texts = length nodes /\
    exists new,
      refs' = refs ++ new /\ length new = length nodes /\
      forall k node, nodes !! k = Some node ->
        texts !! k = Some (str "![" ++ cleanAttribute (alt node) ++ str "]"
                             ++ fig (length refs + k + 1)) /\
        new !! k = Some (fig (length refs + k + 1) ++ str ": " ++ or_empty (src node)
                           ++ titlePart (title node)).
Proof.
  intros Hopts. induction nodes as [|node nodes IH]; intros refs texts refs' H.
  - cbn [image_replacements] in H. injection H as <- <-.
    split; [reflexivity|]. exists []. rewrite app_nil_r.
    split; [reflexivity|]. split; [reflexivity|]. intros k n Hk.
    rewrite lookup_nil in Hk. discriminate Hk.
  - cbn [image_replacements] in H.
    rewrite (image_replacement_referenced opts node refs Hopts) in H.
    destruct (image_replacements opts nodes _) as [texts0 refs0] eqn:E.
    injection H as <- <-.
    destruct (IH _ _ _ E) as (Hlen & new & -> & Hnew & Hk).
    split; [cbn [length]; lia|].
    eexists (_ :: new). split; [rewrite <- app_assoc; reflexivity|].
    split; [cbn [length]; lia|].
    intros [|k] n Hn.
    + cbn in Hn. injection Hn as <-. rewrite Nat.add_0_r. split; reflexivity.
    + cbn in Hn. destruct (Hk k n Hn) as [Ht Hr].
      rewrite length_app in Ht, Hr. cbn [length] in Ht, Hr.
      replace (length refs + S k + 1) with (length refs + 1 + k + 1) by lia.
      split; [exact Ht|exact Hr].
Qed.

(** X24. Images in the [referenced] style. The image at place [k] of the document
    (from 0) is printed with the label [fig] and the number [k+1], and the
    list that is put under the text defines that label at place [k], with
    the source of that image; two places never share a label; and the list
    is empty again after it has been printed. *)
Theorem referenced_images_numbered (opts : options) (nodes : list img)
    (texts references : list jsstring) :
  referenced opts ->
  image_replacements opts nodes [] = (texts, references) ->
  length texts = length nodes /\ length references = length nodes /\
  (forall k node, nodes !! k = Some node ->
     texts !! k = Some (str "![" ++ cleanAttribute (alt node) ++ str "]" ++ fig (k + 1)) /\
     references !! k = Some (fig (k + 1) ++ str ": " ++ or_empty (src node)
                               ++ titlePart (title node))) /\
  (forall j k, fig j = fig k -> j = k) /\
  snd (append references) = [].
Proof.
  intros Hopts H.
  destruct (image_replacements_referenced opts nodes Hopts [] texts references H)
    as (Hlen & new & Hrefs & Hnew & Hk).
  cbn [app] in Hrefs. subst new.
  split; [exact Hlen|]. split; [exact Hnew|]. split; [exact Hk|].
  split; [exact fig_inj|]. destruct references; reflexivity.
Qed.

Definition example_options : options :=
  {| imageStyle := str "markdown"; imageRefStyle := str "referenced"; encodeURI := id |}.

Definition example_images : list img :=
  [{| alt := JStr (str "one"); src := JStr (str "a.png"); title := JNull |};
   {| alt := JNull; src := JStr (str "b.png"); title := JStr (str "B") |}].

Lemma referenced_images_numbered_witness :
  image_replacements example_options example_images []
  = ([str "![one][fig1]"; str "![][fig2]"],
     [str "[fig1]: a.png"; str "[fig2]: b.png " ++ [DQUOTE] ++ str "B" ++ [DQUOTE]]) /\
  length [str "![one][fig1]"; str "![][fig2]"] = length example_images.
Proof.
  assert (H : image_replacements example_options example_images []
              = ([str "![one][fig1]"; str "![][fig2]"],
                 [str "[fig1]: a.png";
                  str "[fig2]: b.png " ++ [DQUOTE] ++ str "B" ++ [DQUOTE]]))
    by (vm_compute; reflexivity).
  split; [exact H|].
  apply (proj1 (referenced_images_numbered example_options example_images _ _
                  ltac:(repeat split; discriminate) H)).
Defined.

End Rules.

(** ** The renaming of images in [preDownloadImages] *)

Module PreDownload.
Import Scan.

(** [s.replace(pat, rep)] for a string [pat]: the first place where [pat]
    stands is replaced; [before] is the text passed so far. *)
Fixpoint replace_text_from (pat rep before s : jsstring) : jsstring :=
  if startsWith pat s
  then expand rep pat before (drop (length pat) s) ++ drop (length pat) s
  else match s with
       | [] => []
       | x :: s' => x :: replace_text_from pat rep (before ++ [x]) s'
       end.

Definition replace_text (pat rep s : jsstring) : jsstring := replace_text_from pat rep [] s.

(** [mimedb[blob.type || 'application/octet-stream'] || 'bin']; [mimedb] is the
    table of the library, from media type to extension. *)
Definition mime_extension (mimedb : gmap jsstring jsstring) (blob_type : jsstring)
    : jsstring :=
  let mimeType := if truthy (JStr blob_type) then blob_type
                  else str "application/octet-stream" in
  match mimedb !! mimeType with
  | Some extension => if truthy (JStr extension) then extension else str "bin"
  | None => str "bin"
  end.

(** [newFilename] in [preDownloadImages], for an image that is not turned
    into base64. *)
Definition newFilename (mimedb : gmap jsstring jsstring) (blob_type filename : jsstring)
    : jsstring :=
  if endsWith (str ".idunno") filename
  then replace_text (str ".idunno") (str "." ++ mime_extension mimedb blob_type) filename
  else filename.

Lemma expand_plain (rep matched before after : jsstring) :
  Forall (fun c => c <> DOLLAR) rep -> expand rep matched before after = rep.
Proof.
  induction 1 as [|d rep Hd _ IH]; [reflexivity|].
  cbn [expand]. apply N.eqb_neq in Hd. rewrite Hd, IH. reflexivity.
Qed.

Lemma replace_text_from_first (pat rep rest : jsstring) (a : jsstring) :
  forall before,
    (forall i, i < length a -> startsWith pat (drop i (a ++ pat ++ rest)) = false) ->
    replace_text_from pat rep before (a ++ pat ++ rest)
    = a ++ expand rep pat (before ++ a) rest ++ rest.
Proof.
  induction a as [|x a IH]; intros before Hfirst.
  - cbn [app]. rewrite app_nil_r.
    destruct (pat ++ rest) as [|y s] eqn:E.
    + destruct pat; [|discriminate E]. cbn [app] in E. subst rest. reflexivity.
    + cbn [replace_text_from]. rewrite <- E, startsWith_app, drop_app_length.
      reflexivity.
  - pose proof (Hfirst 0 ltac:(cbn [length]; lia)) as H0. cbn [drop app] in H0.
    cbn [app replace_text_from]. rewrite H0. f_equal.
    rewrite IH.
    + rewrite <- app_assoc. reflexivity.
    + intros i Hi. apply (Hfirst (S i)). cbn [length]. lia.
Qed.

(** X25. The renaming of an image whose extension was not known. The name ends
    with [.idunno]; the first place of the name where [.idunno] stands is
    replaced by a dot and the extension of the media type. When that place
    is the end of the name, the name gets the extension; when [.idunno]
    stands earlier too (in the name of a folder, say), that place is changed
    and the name still ends with [.idunno]. *)
Theorem unknown_extension_renamed (mimedb : gmap jsstring jsstring)
    (blob_type a rest : jsstring) :
  endsWith (str ".idunno") (a ++ str ".idunno" ++ rest) = true ->
  (forall i, i < length a ->
             startsWith (str ".idunno") (drop i (a ++ str ".idunno" ++ rest)) = false) ->
  Forall (fun c => c <> DOLLAR) (mime_extension mimedb blob_type) ->
  newFilename mimedb blob_type (a ++ str ".idunno" ++ rest)
  = a ++ str "." ++ mime_extension mimedb blob_type ++ rest.
Proof.
  intros Hend Hfirst Hext. unfold newFilename. rewrite Hend.
  unfold replace_text. rewrite replace_text_from_first by exact Hfirst.
  rewrite expand_plain; [rewrite <- app_assoc; reflexivity|].
  constructor; [discriminate|exact Hext].
Qed.

Definition example_mimedb : gmap jsstring jsstring :=
  {[ str "image/png" := str "png" ]}.

Lemma unknown_extension_renamed_witness :
  newFilename example_mimedb (str "image/png") (str "img/pic" ++ str ".idunno" ++ [])
  = str "img/pic" ++ str "." ++ mime_extension example_mimedb (str "image/png") ++ [] /\
  newFilename example_mimedb [] (str "a" ++ str ".idunno" ++ str "/b.idunno")
  = str "a" ++ str "." ++ mime_extension example_mimedb [] ++ str "/b.idunno".
Proof.
  split.
  - apply (unknown_extension_renamed example_mimedb (str "image/png") (str "img/pic") []).
    + reflexivity.
    + intros i Hi. cbn [length str] in Hi.
      do 7 (destruct i as [|i]; [reflexivity|]). cbn in Hi. lia.
    + vm_compute. repeat constructor; discriminate.
  - apply (unknown_extension_renamed example_mimedb [] (str "a") (str "/b.idunno")).
    + reflexivity.
    + intros i Hi. destruct i as [|i]; [reflexivity|]. cbn in Hi. lia.
    + vm_compute. repeat constructor; discriminate.
Defined.

End PreDownload.

(** ** The list of addresses of the popup *)

Module Popup.
Import Template Uri.

(** The expression of [parseMarkdownLink] at the start of [s]: a label of one
    or more code units other than a closing square bracket, in square
    brackets, and a target of one or more code units other than a closing
    round bracket, in round brackets. The two groups. *)
Definition link_here (s : jsstring) : option (jsstring * jsstring) :=
  match s with
  | x :: r =>
      if (x =? ch "[")%N then
        let label := Table.run_length (fun c => negb (c =? ch "]")%N) r in
        match label, drop label r with
        | S _, y :: z :: r' =>
            if (y =? ch "]")%N && (z =? ch "(")%N then
              let target := Table.run_length (fun c => negb (c =? ch ")")%N) r' in
              match target, drop target r' with
              | S _, w :: _ =>
                  if (w =? ch ")")%N then Some (take label r, take target r') else None
              | _, _ => None
              end
            else None
        | _, _ => None
        end
      else None
  | [] => None
  end.

(** [text.match(markdownLinkRegex)]: the first place where the expression
    matches. *)
Fixpoint first_link (text : jsstring) : option (jsstring * jsstring) :=
  match link_here text with
  | Some groups => Some groups
  | None => match text with
            | [] => None
            | _ :: text' => first_link text'
            end
  end.

(** [parseMarkdownLink(text)]: the title and the URL, or [None] for [null]. *)
Definition parseMarkdownLink (text : jsstring) : option (jsstring * jsstring) :=
  (fun groups => (trim (fst groups), trim (snd groups))) <$> first_link text.

(** The test of [normalizeUrl]: [http://] or [https://] at the start, in
    upper or lower case. *)
Definition has_protocol (url : jsstring) : bool :=
  startsWith (str "http://") (map ascii_lower url)
  || startsWith (str "https://") (map ascii_lower url).

Section WithParser.
Context (URL_new : jsstring -> option URL).

(** [normalizeUrl(url)]; [None] for [null]. *)
Definition normalizeUrl (url : jsstring) : option jsstring :=
  let url := if negb (has_protocol url) then str "https://" ++ url else url in
  href <$> URL_new url.

(** The objects of the list; [title] is [None] for [null]. *)
Record urlObject := {
  title : option jsstring;
  url : jsstring
}.

(** The body of the loop of [processUrlInput]: what one line adds. *)
Definition process_line (line : jsstring) : list urlObject :=
  match parseMarkdownLink line with
  | Some (link_title, link_url) =>
      match normalizeUrl link_url with
      | Some normalizedUrl => [{| title := Some link_title; url := normalizedUrl |}]
      | None => []
      end
  | None =>
      if truthy (JStr line) then
        match normalizeUrl line with
        | Some normalizedUrl => [{| title := None; url := normalizedUrl |}]
        | None => []
        end
      else []
  end.

Definition processUrlInput (text : jsstring) : list urlObject :=
  let lines := List.filter (fun line => truthy (JStr line)) (map trim (split LF text)) in
  flat_map process_line lines.

Lemma has_protocol_https (url : jsstring) : has_protocol (str "https://" ++ url) = true.
Proof.
  unfold has_protocol. rewrite map_app.
  change (map ascii_lower (str "https://")) with (str "https://").
  rewrite startsWith_app. apply orb_true_r.
Qed.

Lemma normalizeUrl_parsed (text result : jsstring) :
  normalizeUrl text = Some result ->
  exists t u, has_protocol t = true /\ URL_new t = Some u /\ result = href u.
Proof.
  unfold normalizeUrl. destruct (has_protocol text) eqn:E; cbn [negb].
  - destruct (URL_new text) as [u|] eqn:Hu; [|discriminate].
    intros [= <-]. exists text, u. auto.
  - destruct (URL_new (str "https://" ++ text)) as [u|] eqn:Hu; [|discriminate].
    intros [= <-]. exists (str "https://" ++ text), u.
    split; [apply has_protocol_https|]. auto.
Qed.

Lemma process_line_length (line : jsstring) : length (process_line line) <= 1.
Proof.
  unfold process_line.
  destruct (parseMarkdownLink line) as [[t u]|].
  - destruct (normalizeUrl u); cbn [length]; lia.
  - destruct (truthy (JStr line)); [|cbn [length]; lia].
    destruct (normalizeUrl line); cbn [length]; lia.
Qed.

(** X26. What the batch gets from the text area: at most one address for each
    line, and each address is the [href] that the URL parser gave for a text
    that starts with [http://] or [https://]. *)
Theorem processUrlInput_urls (text : jsstring) :
  length (processUrlInput text) <= length (split LF text) /\
  forall o, In o (processUrlInput text) ->
            exists t u, has_protocol t = true /\ URL_new t = Some u /\ url o = href u.
Proof.
  unfold processUrlInput. cbv zeta. split.
  - etransitivity;
      [|rewrite <- (length_map trim (split LF text));
        apply (List.filter_length_le (fun line => truthy (JStr line)))].
    generalize (List.filter (fun line => truthy (JStr line)) (map trim (split LF text))).
    intros lines. induction lines as [|l lines IH]; [reflexivity|].
    cbn [flat_map length]. rewrite length_app.
    pose proof (process_line_length l). lia.
  - intros o Ho. apply in_flat_map in Ho as (line & _ & Ho).
    unfold process_line in Ho.
    destruct (parseMarkdownLink line) as [[t u]|].
    + destruct (normalizeUrl u) as [n|] eqn:E; [|destruct Ho].
      destruct Ho as [<-|[]]. cbn [url]. exact (normalizeUrl_parsed _ _ E).
    + destruct (truthy (JStr line)); [|destruct Ho].
      destruct (normalizeUrl line) as [n|] eqn:E; [|destruct Ho].
      destruct Ho as [<-|[]]. cbn [url]. exact (normalizeUrl_parsed _ _ E).
Qed.

End WithParser.

Definition example_input : jsstring :=
  str "[A page](a.com/x)" ++ [LF] ++ str "  " ++ [LF] ++ str "HTTPS://b.org/y"
    ++ [LF] ++ str "https://c.org".

Lemma processUrlInput_urls_witness :
  processUrlInput https_URL example_input
  = [{| title := Some (str "A page"); url := str "https://a.com/x" |};
     {| title := None; url := str "https://c.org/" |}] /\
  exists t u, has_protocol t = true /\ https_URL t = Some u
              /\ str "https://c.org/" = href u.
Proof.
  assert (H : processUrlInput https_URL example_input
              = [{| title := Some (str "A page"); url := str "https://a.com/x" |};
                 {| title := None; url := str "https://c.org/" |}])
    by (vm_compute; reflexivity).
  split; [exact H|].
  apply (proj2 (processUrlInput_urls https_URL example_input)
           {| title := None; url := str "https://c.org/" |}).
  rewrite H. right. left. reflexivity.
Defined.

End Popup.
